(** * kerf-init: the minimal process-1 supervisor of the spawn kernel

    A shallow embedding of [src/init/init.c] and the properties its
    specification states about it.

    Conventions of the embedding.
    - A C string is the list of its characters before the terminating NUL.
    - A pointer into a NUL-terminated buffer is the string it points at: the
      suffix of the buffer from that position.  Dereferencing reads the head
      (NUL at the end), [p++] drops the head, and the difference of two
      pointers into one string is the difference of the suffixes' lengths.
    - [int] results are in [Z], [size_t] sizes in [N].
    - System calls are answered by the environment, which is an explicit
      argument (or, for mount and mkdir, a kernel interface).
    - The calls of [log_msg] and [log_error] are collected, in order, in a
      writer monad; [kmsg] gives what of them is written, which depends on
      whether /dev/kmsg can be opened at each call.
    - Signal handlers can run between any two steps of main.  [exec] follows
      the parent step by step from the return of [fork]; [loop_body] and
      [run] are the runs in which every signal arrives inside [pause()]. *)

From Stdlib Require Import Ascii String DecimalString.
From Stdlib Require Import List ZArith NArith Arith Lia Bool.
Import ListNotations.

Local Open Scope Z_scope.

(** ** C strings *)

Abbreviation cstring := (list ascii) (only parsing).

Definition cs (s : string) : cstring := list_ascii_of_string s.

Definition NUL : ascii := "000"%char.
Definition SPACE : ascii := " "%char.
Definition TAB : ascii := "009"%char.
Definition NEWLINE : ascii := "010"%char.
Definition COMMA : ascii := ","%char.
Definition DQUOTE : ascii := "034"%char.
Definition SQUOTE : ascii := "'"%char.

(** The C string held by an array: everything before the first NUL. *)
Fixpoint c_str (bytes : list ascii) : cstring :=
  match bytes with
  | [] => []
  | c :: bytes' => if Ascii.eqb c NUL then [] else c :: c_str bytes'
  end.

(** [*p] *)
Definition deref (p : cstring) : ascii := hd NUL p.

Definition strlen (s : cstring) : nat := length s.

(** [strncmp(hay, needle, strlen(needle)) == 0] *)
Fixpoint starts_with (needle hay : cstring) : bool :=
  match needle, hay with
  | [], _ => true
  | _ :: _, [] => false
  | a :: needle', b :: hay' => Ascii.eqb a b && starts_with needle' hay'
  end.

(** [strstr]: a pointer to the first occurrence of [needle], or NULL. *)
Fixpoint strstr (hay needle : cstring) : option cstring :=
  if starts_with needle hay then Some hay
  else match hay with
       | [] => None
       | _ :: hay' => strstr hay' needle
       end.

(** [strchr] for a character other than NUL. *)
Fixpoint strchr (s : cstring) (c : ascii) : option cstring :=
  match s with
  | [] => None
  | a :: s' => if Ascii.eqb a c then Some s else strchr s' c
  end.

(** [end - start] for two pointers into the same string. *)
Definition ptr_diff (e start : cstring) : nat := (length start - length e)%nat.

(** [memcpy(buf, start, len); buf[len] = 0] leaves this string in [buf]. *)
Definition memcpy_str (start : cstring) (len : nat) : cstring := firstn len start.

(** [snprintf(buf, size, ...)] of an output [s]: at most [size - 1]
    characters are stored. *)
Definition snprintf (size : nat) (s : cstring) : cstring := firstn (size - 1) s.

(** [%.Ns] *)
Definition precision (n : nat) (s : cstring) : cstring := firstn n s.

(** [%d] *)
Definition fmt_d (z : Z) : cstring := cs (NilZero.string_of_int (Z.to_int z)).

(** ** The kernel log

    [Logged] collects the calls of [log_msg] and [log_error] in the order
    in which the program makes them.  A call writes its line only if it can
    open /dev/kmsg at that moment; [kmsg] below gives what is written. *)

Inductive log_line :=
| Line (msg : cstring)                  (* log_msg(msg) *)
| ErrorLine (ctx : cstring) (errno : Z) (* log_error(ctx), with errno as it stands *).

Definition Logged (A : Type) : Type := A * list log_line.

Definition ret {A} (a : A) : Logged A := (a, []).

Definition bind {A B} (m : Logged A) (k : A -> Logged B) : Logged B :=
  let (a, l1) := m in let (b, l2) := k a in (b, l1 ++ l2).

Notation "x <- m ;; k" := (bind m (fun x => k))
  (at level 61, m at next level, right associativity).
Notation "m ;;; k" := (bind m (fun _ => k))
  (at level 61, right associativity).

Definition log_msg (msg : cstring) : Logged unit := (tt, [Line msg]).

Definition log_error (ctx : cstring) (errno : Z) : Logged unit :=
  (tt, [ErrorLine ctx errno]).

Definition value {A} (m : Logged A) : A := fst m.
Definition logs {A} (m : Logged A) : list log_line := snd m.

(** What reaches the kernel log.  [log_msg] opens /dev/kmsg for each line
    and writes the prefix, the text and a newline if the open succeeds; if
    it fails the line is dropped, and nothing else in the program depends on
    the outcome.  [opens i] tells whether the open of call number [i]
    succeeds: before the program has mounted devtmpfs on /dev that is for
    the root filesystem to decide. *)
Fixpoint kmsg_from (opens : nat -> bool) (i : nat) (calls : list log_line)
  : list log_line :=
  match calls with
  | [] => []
  | l :: calls' =>
      (if opens i then [l] else []) ++ kmsg_from opens (S i) calls'
  end.

Definition kmsg (opens : nat -> bool) (calls : list log_line) : list log_line :=
  kmsg_from opens 0 calls.

(** ** Constants of the program *)

Definition CMDLINE_PATH : cstring := cs "/proc/cmdline".
Definition ENTRYPOINT_KEY : cstring := cs "kerf.entrypoint=".
Definition CONSOLE_KEY : cstring := cs "console=".
Definition MAX_CMDLINE_LEN : nat := 4096.
Definition MAX_ENTRYPOINT_LEN : N := 4096.
Definition MAX_CONSOLE_LEN : N := 64.
Definition MAX_ARGS : Z := 64.

(** errno values and signal numbers of Linux (asm-generic). *)
Definition EBUSY : Z := 16.
Definition EEXIST : Z := 17.
Definition SIGHUP : Z := 1.
Definition SIGINT : Z := 2.
Definition SIGTERM : Z := 15.
Definition SIGCHLD : Z := 17.

(** ** Boot parameter reader *)

(** What [open] and [read] on /proc/cmdline answer. *)
Inductive cmdline_io :=
| OpenFails (errno : Z)
| ReadFails (errno : Z)
| ReadOk (data : list ascii).

(** [read(fd, cmdline, sizeof(cmdline) - 1); cmdline[n] = 0]: at most 4095
    bytes arrive, and the array is then used as a C string. *)
Definition load_cmdline (data : list ascii) : cstring :=
  c_str (firstn (MAX_CMDLINE_LEN - 1) data).

(** The scan of an unquoted value: [end] advances until it points at NUL,
    a space or a newline. *)
Fixpoint scan_unquoted (e : cstring) : cstring :=
  match e with
  | [] => []
  | c :: e' =>
      if Ascii.eqb c SPACE || Ascii.eqb c NEWLINE then e else scan_unquoted e'
  end.

Definition read_entrypoint (io : cmdline_io) (bufsize : N)
  : Logged (Z * option cstring) :=
  match io with
  | OpenFails e => log_error (cs "open /proc/cmdline") e ;;; ret (-1, None)
  | ReadFails e => log_error (cs "read /proc/cmdline") e ;;; ret (-1, None)
  | ReadOk data =>
      let cmdline := load_cmdline data in
      match strstr cmdline ENTRYPOINT_KEY with
      | None =>
          log_msg (cs "kerf.entrypoint= not found in cmdline") ;;; ret (-1, None)
      | Some start =>
          let start := skipn (strlen ENTRYPOINT_KEY) start in
          let bounds :=
            if Ascii.eqb (deref start) DQUOTE then
              let start := tl start in
              match strchr start DQUOTE with
              | None => None
              | Some e => Some (start, e)
              end
            else Some (start, scan_unquoted start) in
          match bounds with
          | None =>
              log_msg (cs "unterminated quote in kerf.entrypoint") ;;; ret (-1, None)
          | Some (start, e) =>
              let len := ptr_diff e start in
              if (len =? 0)%nat then
                log_msg (cs "empty kerf.entrypoint value") ;;; ret (-1, None)
              else if (bufsize <=? N.of_nat len)%N then
                log_msg (cs "kerf.entrypoint value too long") ;;; ret (-1, None)
              else ret (0, Some (memcpy_str start len))
          end
      end
  end.

(** The part of [read_entrypoint] after the marker has been found, under a
    name of its own; [start] points behind the marker. *)
Definition after_marker (start : cstring) (bufsize : N) : Logged (Z * option cstring) :=
  let bounds :=
    if Ascii.eqb (deref start) DQUOTE then
      let start := tl start in
      match strchr start DQUOTE with
      | None => None
      | Some e => Some (start, e)
      end
    else Some (start, scan_unquoted start) in
  match bounds with
  | None =>
      log_msg (cs "unterminated quote in kerf.entrypoint") ;;; ret (-1, None)
  | Some (start, e) =>
      let len := ptr_diff e start in
      if (len =? 0)%nat then
        log_msg (cs "empty kerf.entrypoint value") ;;; ret (-1, None)
      else if (bufsize <=? N.of_nat len)%N then
        log_msg (cs "kerf.entrypoint value too long") ;;; ret (-1, None)
      else ret (0, Some (memcpy_str start len))
  end.

(** The scan of a console value: [end] advances until it points at NUL, a
    space, a comma or a newline. *)
Fixpoint scan_console (e : cstring) : cstring :=
  match e with
  | [] => []
  | c :: e' =>
      if Ascii.eqb c SPACE || Ascii.eqb c COMMA || Ascii.eqb c NEWLINE
      then e else scan_console e'
  end.

Definition read_console (io : cmdline_io) (bufsize : N) : Z * option cstring :=
  match io with
  | OpenFails _ => (-1, None)
  | ReadFails _ => (-1, None)
  | ReadOk data =>
      let cmdline := load_cmdline data in
      match strstr cmdline CONSOLE_KEY with
      | None => (-1, None)
      | Some start =>
          let start := skipn (strlen CONSOLE_KEY) start in
          let e := scan_console start in
          let len := ptr_diff e start in
          if (len =? 0)%nat || (bufsize <=? N.of_nat len)%N then (-1, None)
          else if (bufsize <=? N.of_nat len + 5)%N then (-1, None)
          else (0, Some (snprintf (N.to_nat bufsize)
                           (cs "/dev/" ++ precision len start)))
      end
  end.

(** ** Command tokenizer *)

Definition is_blank (c : ascii) : bool := Ascii.eqb c SPACE || Ascii.eqb c TAB.
Definition is_quote (c : ascii) : bool := Ascii.eqb c DQUOTE || Ascii.eqb c SQUOTE.

(** The state of [parse_args].  The buffer is split at [p]: [tk_done] holds
    the bytes before [p] as they stand (NUL terminators included), [tk_p] is
    the string at [p].  [argv] holds pointers into the buffer, kept as
    offsets from its start; [argc] is the number of entries stored. *)
Record tokenizer := {
  tk_done : list ascii;
  tk_p : cstring;
  tk_argv : list nat;
  tk_in_quote : bool;
  tk_quote_char : ascii
}.

(** The whitespace loop: [p++] while [p] points at a space or a tab. *)
Fixpoint skip_blanks (done : list ascii) (p : cstring) : list ascii * cstring :=
  match p with
  | c :: p' => if is_blank c then skip_blanks (done ++ [c]) p' else (done, p)
  | [] => (done, [])
  end.

(** The inner loop, which finds the end of one argument.
    [memmove(p, p + 1, strlen(p))] drops the character at [p] and leaves [p]
    where it is; [*p++ = 0] stores a NUL and steps over it; [p++] steps over
    the character. *)
Fixpoint find_end (in_quote : bool) (quote_char : ascii)
    (done : list ascii) (p : cstring) : bool * ascii * list ascii * cstring :=
  match p with
  | [] => (in_quote, quote_char, done, [])
  | c :: p' =>
      if negb in_quote then
        if is_quote c then find_end true c done p'
        else if is_blank c then (in_quote, quote_char, done ++ [NUL], p')
        else find_end in_quote quote_char (done ++ [c]) p'
      else
        if Ascii.eqb c quote_char then find_end false quote_char done p'
        else find_end in_quote quote_char (done ++ [c]) p'
  end.

(** The outer loop.  [slots] is [max_args - 1 - argc], the number of entries
    that may still be stored: the loop runs while it is positive and [p] does
    not point at NUL, and every iteration that does not break stores one. *)
Fixpoint parse_loop (slots : nat) (t : tokenizer) : tokenizer :=
  match slots with
  | O => t
  | S slots' =>
      match tk_p t with
      | [] => t
      | _ :: _ =>
          let (done, p) := skip_blanks (tk_done t) (tk_p t) in
          match p with
          | [] => {| tk_done := done; tk_p := p; tk_argv := tk_argv t;
                     tk_in_quote := tk_in_quote t;
                     tk_quote_char := tk_quote_char t |}
          | _ :: _ =>
              let argv := tk_argv t ++ [length done] in
              match find_end (tk_in_quote t) (tk_quote_char t) done p with
              | (q, qc, done', p') =>
                  parse_loop slots' {| tk_done := done'; tk_p := p';
                                       tk_argv := argv; tk_in_quote := q;
                                       tk_quote_char := qc |}
              end
          end
      end
  end.

(** The result of [parse_args]: the returned count, the argument vector
    ([None] is the NULL pointer) and the string buffer as it is left. *)
Record parsed := {
  pa_argc : Z;
  pa_argv : list (option nat);
  pa_buf : list ascii
}.

Definition parse_args (cmdline : cstring) (max_args : Z) : parsed :=
  let t := parse_loop (Z.to_nat (max_args - 1))
             {| tk_done := []; tk_p := cmdline; tk_argv := [];
                tk_in_quote := false; tk_quote_char := NUL |} in
  {| pa_argc := Z.of_nat (length (tk_argv t));
     pa_argv := map Some (tk_argv t) ++ [None];
     pa_buf := tk_done t ++ tk_p t |}.

(** The strings of [argv[0]], ..., up to the first NULL entry: what [execv]
    and the logging loop read. *)
Fixpoint argv_strings (buf : list ascii) (argv : list (option nat)) : list cstring :=
  match argv with
  | Some off :: argv' => c_str (skipn off buf) :: argv_strings buf argv'
  | _ => []
  end.

(** The strings at the offsets [offs] of a buffer. *)
Definition strings_at (buf : list ascii) (offs : list nat) : list cstring :=
  map (fun off => c_str (skipn off buf)) offs.

Definition tokens_of (r : parsed) : list cstring := argv_strings (pa_buf r) (pa_argv r).

(** ** Filesystem bootstrapper *)

(** The answer of a system call that returns 0 or -1 with errno. *)
Inductive sysret :=
| SysOk
| SysErr (errno : Z).

(** The two system calls of the bootstrapper, as an interface over the state
    of the kernel. *)
Class Kernel (K : Type) := {
  sys_mount : cstring -> cstring -> cstring -> Z -> K -> sysret * K;
  sys_mkdir : cstring -> Z -> K -> sysret * K
}.

Definition MS_NOSUID : Z := 2.
Definition MS_NODEV : Z := 4.
Definition MS_NOEXEC : Z := 8.

Section Bootstrap.
Context {K : Type} `{Kernel K}.

Definition do_mount (source target fstype : cstring) (flags : Z) (k : K)
  : Logged (Z * K) :=
  match sys_mount source target fstype flags k with
  | (SysErr e, k') =>
      if negb (e =? EBUSY) then log_error target e ;;; ret (-1, k')
      else ret (0, k')
  | (SysOk, k') => ret (0, k')
  end.

Definition do_mkdir (path : cstring) (mode : Z) (k : K) : Logged (Z * K) :=
  match sys_mkdir path mode k with
  | (SysErr e, k') =>
      if negb (e =? EEXIST) then log_error path e ;;; ret (-1, k')
      else ret (0, k')
  | (SysOk, k') => ret (0, k')
  end.

Definition mount_filesystems (k : K) : Logged (Z * K) :=
  r <- do_mount (cs "proc") (cs "/proc") (cs "proc")
         (Z.lor MS_NOSUID (Z.lor MS_NODEV MS_NOEXEC)) k ;;
  if fst r <? 0 then ret (-1, snd r) else
  r <- do_mount (cs "sysfs") (cs "/sys") (cs "sysfs")
         (Z.lor MS_NOSUID (Z.lor MS_NODEV MS_NOEXEC)) (snd r) ;;
  if fst r <? 0 then ret (-1, snd r) else
  r <- do_mount (cs "devtmpfs") (cs "/dev") (cs "devtmpfs") MS_NOSUID (snd r) ;;
  if fst r <? 0 then ret (-1, snd r) else
  r <- do_mkdir (cs "/dev/pts") 493 (snd r) ;;
  if fst r <? 0 then ret (-1, snd r) else
  r <- do_mount (cs "devpts") (cs "/dev/pts") (cs "devpts")
         (Z.lor MS_NOSUID MS_NOEXEC) (snd r) ;;
  if fst r <? 0 then ret (-1, snd r) else
  ret (0, snd r).
End Bootstrap.

(** A kernel that answers from a script: each call takes the next answer
    (and succeeds once the script is used up). *)
Definition script := list sysret.

Definition next_answer (k : script) : sysret * script :=
  match k with
  | [] => (SysOk, [])
  | r :: k' => (r, k')
  end.

#[export] Instance scripted_kernel : Kernel script := {
  sys_mount := fun _ _ _ _ => next_answer;
  sys_mkdir := fun _ _ => next_answer
}.

(** A reference kernel: the directories that exist and what is mounted
    where.  Mounting needs the target directory and reports a file system
    that is already mounted there with EBUSY; creating a directory that
    exists reports EEXIST. *)
Record vfs := {
  vfs_dirs : list cstring;
  vfs_mounts : list (cstring * cstring)
}.

Definition ENOENT : Z := 2.

Definition cstring_eqb (a b : cstring) : bool :=
  if list_eq_dec Ascii.ascii_dec a b then true else false.

Definition has_dir (path : cstring) (k : vfs) : bool :=
  existsb (cstring_eqb path) (vfs_dirs k).

Definition has_mount (target fstype : cstring) (k : vfs) : bool :=
  existsb (fun m => cstring_eqb target (fst m) && cstring_eqb fstype (snd m))
          (vfs_mounts k).

Definition vfs_mount (source target fstype : cstring) (flags : Z) (k : vfs)
  : sysret * vfs :=
  if negb (has_dir target k) then (SysErr ENOENT, k)
  else if has_mount target fstype k then (SysErr EBUSY, k)
  else (SysOk, {| vfs_dirs := vfs_dirs k;
                  vfs_mounts := (target, fstype) :: vfs_mounts k |}).

Definition vfs_mkdir (path : cstring) (mode : Z) (k : vfs) : sysret * vfs :=
  if has_dir path k then (SysErr EEXIST, k)
  else (SysOk, {| vfs_dirs := path :: vfs_dirs k; vfs_mounts := vfs_mounts k |}).

#[export] Instance vfs_kernel : Kernel vfs := {
  sys_mount := vfs_mount;
  sys_mkdir := vfs_mkdir
}.

(** The root file system the kernel hands to init: the mount points exist,
    nothing is mounted. *)
Definition initial_vfs : vfs :=
  {| vfs_dirs := [cs "/proc"; cs "/sys"; cs "/dev"]; vfs_mounts := [] |}.

(** ** Supervisor *)

(** The state shared by the signal handlers and the main loop. *)
Record supervisor := {
  child_pid : Z;
  child_exited : Z;
  child_exit_status : Z
}.

Definition initial_supervisor : supervisor :=
  {| child_pid := -1; child_exited := 0; child_exit_status := 0 |}.

(** The wait-status macros of Linux. *)
Definition WTERMSIG (status : Z) : Z := Z.land status 127.
Definition WEXITSTATUS (status : Z) : Z := Z.shiftr (Z.land status 65280) 8.
Definition WIFEXITED (status : Z) : bool := WTERMSIG status =? 0.
(** [((signed char) ((status & 0x7f) + 1) >> 1) > 0] *)
Definition WIFSIGNALED (status : Z) : bool :=
  let b := Z.land status 127 + 1 in
  let sc := if b >=? 128 then b - 256 else b in
  Z.shiftr sc 1 >? 0.

(** [sigchld_handler]: [reaped] lists what the successive calls of
    [waitpid(-1, &status, WNOHANG)] return, as pairs of the returned pid and
    the status stored; when the list is used up no child is left to reap. *)
Fixpoint sigchld_handler (reaped : list (Z * Z)) (st : supervisor) : supervisor :=
  match reaped with
  | [] => st
  | (pid, status) :: reaped' =>
      if pid >? 0 then
        sigchld_handler reaped'
          (if pid =? child_pid st then
             {| child_pid := child_pid st;
                child_exited := 1;
                child_exit_status :=
                  if WIFEXITED status then WEXITSTATUS status
                  else if WIFSIGNALED status then 128 + WTERMSIG status
                  else child_exit_status st |}
           else st)
      else st
  end.

(** A call of [kill(pid, sig)]. *)
Record kill_call := { k_pid : Z; k_sig : Z }.

Definition forward_signal (sig : Z) (st : supervisor) : list kill_call :=
  if child_pid st >? 0 then [{| k_pid := child_pid st; k_sig := sig |}] else [].

(** Signal dispositions. *)
Inductive handler :=
| SigDfl
| SigchldHandler
| ForwardSignal.

Record sigaction_t := { sa_handler : handler; sa_flags : Z }.

Definition SA_NOCLDSTOP : Z := 1.
Definition SA_RESTART : Z := 268435456.

Definition sigtable := Z -> sigaction_t.

Definition default_sigtable : sigtable :=
  fun _ => {| sa_handler := SigDfl; sa_flags := 0 |}.

Definition sigaction (sig : Z) (sa : sigaction_t) (tbl : sigtable) : sigtable :=
  fun s => if s =? sig then sa else tbl s.

Definition setup_signals (tbl : sigtable) : sigtable :=
  let sa := {| sa_handler := SigchldHandler;
               sa_flags := Z.lor SA_RESTART SA_NOCLDSTOP |} in
  let tbl := sigaction SIGCHLD sa tbl in
  let sa := {| sa_handler := ForwardSignal; sa_flags := SA_RESTART |} in
  let tbl := sigaction SIGTERM sa tbl in
  let tbl := sigaction SIGINT sa tbl in
  sigaction SIGHUP sa tbl.

(** A signal that arrives, with what [waitpid] would answer at that time. *)
Record arrival := { a_sig : Z; a_reaped : list (Z * Z) }.

(** The kernel runs the handler installed for the signal.  Process 1 is not
    sent signals it has no handler for. *)
Definition deliver (tbl : sigtable) (a : arrival) (st : supervisor)
  : supervisor * list kill_call :=
  match sa_handler (tbl (a_sig a)) with
  | SigchldHandler => (sigchld_handler (a_reaped a) st, [])
  | ForwardSignal => (st, forward_signal (a_sig a) st)
  | SigDfl => (st, [])
  end.

Fixpoint deliver_all (tbl : sigtable) (arrivals : list arrival) (st : supervisor)
  : supervisor * list kill_call :=
  match arrivals with
  | [] => (st, [])
  | a :: arrivals' =>
      let (st1, k1) := deliver tbl a st in
      let (st2, k2) := deliver_all tbl arrivals' st1 in
      (st2, k1 ++ k2)
  end.

(** One turn of the [for (;;)] loop when every signal of the turn arrives
    while [pause()] blocks: [pause()] returns once the handlers have run,
    then the exit flag is looked at.  Signals that arrive elsewhere in the
    loop, or before the result of [fork] is stored, are followed step by
    step by [exec] below. *)
Definition loop_body (tbl : sigtable) (arrivals : list arrival) (st : supervisor)
  : Logged (supervisor * list kill_call) :=
  let (st, kills) := deliver_all tbl arrivals st in
  if negb (child_exited st =? 0) then
    log_msg (snprintf 64 (cs "child exited with status " ++ fmt_d (child_exit_status st))) ;;;
    ret ({| child_pid := child_pid st; child_exited := 0;
            child_exit_status := child_exit_status st |}, kills)
  else ret (st, kills).

(** ** Console attacher (child side) *)

(** What the child finds when it attaches the console. *)
Record tty_env := {
  tty_open : sysret;       (* open(tty, O_RDWR | O_NOCTTY) *)
  tty_getattr : bool       (* tcgetattr(fd, &term) == 0 *)
}.

(** What [setup_console] leaves behind: whether the standard streams were
    rebound to the device, and whether the line discipline was set. *)
Record console_state := { stdio_on_tty : bool; termios_set : bool }.

Definition no_console : console_state :=
  {| stdio_on_tty := false; termios_set := false |}.

Definition setup_console (tty : cstring) (t : tty_env) : Logged console_state :=
  match tty_open t with
  | SysErr e => log_error tty e ;;; ret no_console
  | SysOk => ret {| stdio_on_tty := true; termios_set := tty_getattr t |}
  end.

(** ** main *)

(** The environment of one boot. *)
Record env := {
  e_now : option cstring;     (* the formatted time, if the clock can be read *)
  e_entrypoint_io : cmdline_io;  (* /proc/cmdline as read_entrypoint finds it *)
  e_console_io : cmdline_io;     (* /proc/cmdline as read_console finds it *)
  e_fork : Z;                 (* what fork returns *)
  e_fork_errno : Z;
  e_tty : tty_env;
  e_execv : option Z          (* errno if execv returns, None if it does not *)
}.

(** How far a process gets. *)
Inductive proc :=
| Returned (status : Z)             (* main returned *)
| ChildExecs (argv : list cstring) (console_device : cstring) (con : console_state)
                                    (* the child runs the entrypoint *)
| ChildExits (status : Z)           (* the child called _exit *)
| Supervising (tbl : sigtable) (console_device : cstring) (st : supervisor)
                                    (* the parent is in its loop *).

Definition log_starting (now : option cstring) : Logged unit :=
  match now with
  | None => log_msg (cs "starting")
  | Some ts => log_msg (snprintf 80 (cs "starting at " ++ ts ++ cs " UTC"))
  end.

(** The loop that builds the line listing the arguments; [off] is the
    running sum of the lengths [snprintf] reports. *)
Fixpoint executing_msg (off : Z) (msg : cstring) (args : list cstring) : cstring :=
  match args with
  | [] => msg
  | a :: args' =>
      if off <? 512 - 1 then
        executing_msg (off + Z.of_nat (length (SPACE :: a)))
          (msg ++ snprintf (Z.to_nat (512 - off)) (SPACE :: a)) args'
      else msg
  end.

(** The contents of a buffer after a call that may have written it. *)
Definition stored (old : cstring) (written : option cstring) : cstring :=
  match written with
  | Some s => s
  | None => old
  end.

Definition main {K : Type} `{Kernel K} (k : K) (e : env) : Logged proc :=
  log_starting (e_now e) ;;;
  m <- mount_filesystems k ;;
  if fst m <? 0 then log_msg (cs "failed to mount filesystems") ;;; ret (Returned 1)
  else
  r <- read_entrypoint (e_entrypoint_io e) MAX_ENTRYPOINT_LEN ;;
  if fst r <? 0 then log_msg (cs "failed to read entrypoint") ;;; ret (Returned 1)
  else
  let entrypoint := stored [] (snd r) in
  log_msg (snprintf 256 (cs "entrypoint: '" ++ precision 200 entrypoint ++ cs "'")) ;;;
  let c := read_console (e_console_io e) MAX_CONSOLE_LEN in
  console_device <-
    (if fst c =? 0 then
       let dev := stored [] (snd c) in
       log_msg (snprintf 128 (cs "console: " ++ dev)) ;;; ret dev
     else ret []) ;;
  let ep := parse_args entrypoint MAX_ARGS in
  if pa_argc ep =? 0 then log_msg (cs "no entrypoint arguments") ;;; ret (Returned 1)
  else
  log_msg (executing_msg 10 (cs "executing:") (tokens_of ep)) ;;;
  let tbl := setup_signals default_sigtable in
  let st := {| child_pid := e_fork e; child_exited := 0; child_exit_status := 0 |} in
  if child_pid st <? 0 then log_error (cs "fork") (e_fork_errno e) ;;; ret (Returned 1)
  else if child_pid st =? 0 then
    con <- (if negb (Ascii.eqb (deref console_device) NUL)
            then setup_console console_device (e_tty e)
            else ret no_console) ;;
    match e_execv e with
    | None => ret (ChildExecs (tokens_of ep) console_device con)
    | Some errno => log_error (cs "execv") errno ;;; ret (ChildExits 127)
    end
  else ret (Supervising tbl console_device st).

(** The parent from then on, in turns of the loop with the signals of each
    turn arriving inside [pause()]: one list of arrivals per turn.  A process
    that is not in the loop stays as it is. *)
Fixpoint run (turns : list (list arrival)) (p : proc) : Logged (proc * list kill_call) :=
  match turns with
  | [] => ret (p, [])
  | arrivals :: turns' =>
      match p with
      | Supervising tbl dev st =>
          r <- loop_body tbl arrivals st ;;
          r' <- run turns' (Supervising tbl dev (fst r)) ;;
          ret (fst r', snd r ++ snd r')
      | _ => ret (p, [])
      end
  end.

(** ** The parent step by step

    Between [setup_signals()] and the loop, and inside the loop, a handler
    can run between any two steps of the program.  The places below are the
    points between the steps that read or write the variables the handlers
    share with main. *)
Inductive place :=
| Forked (pid : Z)        (* fork has returned [pid]; the store to child_pid is still to come *)
| Elsewhere               (* fork failed, or this is the child: not followed here *)
| Pausing                 (* in the loop, before [pause()] is entered *)
| Blocked                 (* inside [pause()] *)
| Woken                   (* [pause()] has returned; child_exited is still to be read *)
| Reporting               (* child_exited was read as set; child_exit_status is still to be read *)
| Logging (msg : cstring) (* the message is built; [log_msg] is still to be called *)
| Clearing                (* the message is logged; child_exited is still to be cleared *).

Record machine := { at_place : place; vars : supervisor }.

(** What happens next: a signal arrives and its handler runs, or the
    program goes on to its next place. *)
Inductive event :=
| Sig (a : arrival)
| Go.

(** Whether a handler is installed for the signal that arrives. *)
Definition caught (tbl : sigtable) (a : arrival) : bool :=
  match sa_handler (tbl (a_sig a)) with
  | SigDfl => false
  | _ => true
  end.

(** A handler runs wherever the program is, and [pause()] returns only
    after one has run while it blocked.  The handlers do not write what
    another handler reads, so each is taken as a whole. *)
Definition step (tbl : sigtable) (ev : event) (m : machine)
  : Logged (machine * list kill_call) :=
  match ev with
  | Sig a =>
      match at_place m with
      | Elsewhere => ret (m, [])
      | Blocked =>
          let (st, kills) := deliver tbl a (vars m) in
          ret ({| at_place := if caught tbl a then Woken else Blocked;
                  vars := st |}, kills)
      | p =>
          let (st, kills) := deliver tbl a (vars m) in
          ret ({| at_place := p; vars := st |}, kills)
      end
  | Go =>
      match at_place m with
      | Forked pid =>
          ret ({| at_place := if pid >? 0 then Pausing else Elsewhere;
                  vars := {| child_pid := pid;
                             child_exited := child_exited (vars m);
                             child_exit_status := child_exit_status (vars m) |} |}, [])
      | Elsewhere => ret (m, [])
      | Pausing => ret ({| at_place := Blocked; vars := vars m |}, [])
      | Blocked => ret (m, [])
      | Woken =>
          ret ({| at_place := if negb (child_exited (vars m) =? 0)
                              then Reporting else Pausing;
                  vars := vars m |}, [])
      | Reporting =>
          ret ({| at_place :=
                    Logging (snprintf 64 (cs "child exited with status "
                                          ++ fmt_d (child_exit_status (vars m))));
                  vars := vars m |}, [])
      | Logging msg =>
          log_msg msg ;;; ret ({| at_place := Clearing; vars := vars m |}, [])
      | Clearing =>
          ret ({| at_place := Pausing;
                  vars := {| child_pid := child_pid (vars m);
                             child_exited := 0;
                             child_exit_status := child_exit_status (vars m) |} |}, [])
      end
  end.

Fixpoint exec (tbl : sigtable) (evs : list event) (m : machine)
  : Logged (machine * list kill_call) :=
  match evs with
  | [] => ret (m, [])
  | ev :: evs' =>
      r <- step tbl ev m ;;
      r' <- exec tbl evs' (fst r) ;;
      ret (fst r', snd r ++ snd r')
  end.

(** The parent when [fork] has just returned [pid]: the handlers are
    installed and the variables still have their initial values. *)
Definition after_fork (pid : Z) : machine :=
  {| at_place := Forked pid; vars := initial_supervisor |}.

(** ** Reference definitions, after the specification, and the vocabulary
       of the statements *)

(** [needle] occurs in [hay] after [pre] and before [post], and nowhere
    earlier. *)
Definition first_at (needle hay pre post : cstring) : Prop :=
  hay = pre ++ needle ++ post /\
  forall pre' post', hay = pre' ++ needle ++ post' -> (length pre <= length pre')%nat.

Definition occurs (needle hay : cstring) : Prop :=
  exists pre post, hay = pre ++ needle ++ post.

(** The four failures the specification names for the entrypoint. *)
Inductive ep_error := NotFound | Malformed | Empty | TooLong.

(** A value that was delimited is refused when it is empty or does not fit
    in a buffer of [bufsize] bytes together with its terminator. *)
Definition classify (v : cstring) (bufsize : N) : ep_error + cstring :=
  if (length v =? 0)%nat then inl Empty
  else if (bufsize <=? N.of_nat (length v))%N then inl TooLong
  else inr v.

Definition ends_value (post : cstring) : Prop :=
  post = [] \/ deref post = SPACE \/ deref post = NEWLINE.

(** Where a console value ends: at the end of the command line, or before a
    space, a comma or a newline. *)
Definition ends_console (post : cstring) : Prop :=
  post = [] \/ deref post = SPACE \/ deref post = COMMA \/ deref post = NEWLINE.

(** The extraction rule: the value after the first marker runs to the next
    double quote when it opens with one, else to the next space or newline. *)
Inductive entrypoint_spec (cmdline : cstring) (bufsize : N)
  : ep_error + cstring -> Prop :=
| ES_absent :
    ~ occurs ENTRYPOINT_KEY cmdline ->
    entrypoint_spec cmdline bufsize (inl NotFound)
| ES_unterminated pre rest :
    first_at ENTRYPOINT_KEY cmdline pre (DQUOTE :: rest) ->
    ~ In DQUOTE rest ->
    entrypoint_spec cmdline bufsize (inl Malformed)
| ES_quoted pre v post :
    first_at ENTRYPOINT_KEY cmdline pre (DQUOTE :: v ++ DQUOTE :: post) ->
    ~ In DQUOTE v ->
    entrypoint_spec cmdline bufsize (classify v bufsize)
| ES_unquoted pre v post :
    first_at ENTRYPOINT_KEY cmdline pre (v ++ post) ->
    deref (v ++ post) <> DQUOTE ->
    ~ In SPACE v -> ~ In NEWLINE v ->
    ends_value post ->
    entrypoint_spec cmdline bufsize (classify v bufsize).

(** What [read_entrypoint] returns, stores and logs for each outcome. *)
Definition ep_result (o : ep_error + cstring) : Logged (Z * option cstring) :=
  match o with
  | inl NotFound => ((-1, None), [Line (cs "kerf.entrypoint= not found in cmdline")])
  | inl Malformed => ((-1, None), [Line (cs "unterminated quote in kerf.entrypoint")])
  | inl Empty => ((-1, None), [Line (cs "empty kerf.entrypoint value")])
  | inl TooLong => ((-1, None), [Line (cs "kerf.entrypoint value too long")])
  | inr v => ((0, Some v), [])
  end.

(** The tokenizer of the specification, producing owned tokens: [quote] is
    the terminator of the quoted mode, if in it, and [cur] the token being
    collected, if one has begun. *)
Definition cur_text (cur : option cstring) : cstring :=
  match cur with
  | Some t => t
  | None => []
  end.

Definition emit (cur : option cstring) : list cstring :=
  match cur with
  | Some t => [t]
  | None => []
  end.

Fixpoint spec_tokens (quote : option ascii) (cur : option cstring) (s : cstring)
  : list cstring :=
  match s with
  | [] => emit cur
  | c :: s' =>
      match quote with
      | Some q =>
          if Ascii.eqb c q then spec_tokens None cur s'
          else spec_tokens quote (Some (cur_text cur ++ [c])) s'
      | None =>
          if is_quote c then spec_tokens (Some c) (Some (cur_text cur)) s'
          else if is_blank c then emit cur ++ spec_tokens None None s'
          else spec_tokens None (Some (cur_text cur ++ [c])) s'
      end
  end.

(** The quoted mode that the two variables of [parse_args] encode. *)
Definition mode (in_quote : bool) (quote_char : ascii) : option ascii :=
  if in_quote then Some quote_char else None.

Definition tokenize (s : cstring) (max_tokens : Z) : list cstring :=
  firstn (Z.to_nat (max_tokens - 1)) (spec_tokens None None s).

(** Splitting on runs of spaces and tabs, with no quoting: the maximal runs
    of other characters, in order. *)
Fixpoint split_blanks (cur : cstring) (s : cstring) : list cstring :=
  match s with
  | [] => match cur with [] => [] | _ => [cur] end
  | c :: s' =>
      if is_blank c
      then match cur with [] => [] | _ => [cur] end ++ split_blanks [] s'
      else split_blanks (cur ++ [c]) s'
  end.

(** Words without quoting, and runs of blanks. *)
Definition plain (w : cstring) : Prop :=
  forall c, In c w -> is_blank c = false /\ is_quote c = false /\ c <> NUL.

Definition blanks (b : cstring) : Prop := forall c, In c b -> is_blank c = true.

(** The quoting mode in which the text after [s] is read, when [s] is read
    in mode [quote]: outside a quotation a quote character opens one, inside
    one the same character closes it. *)
Fixpoint quote_after (quote : option ascii) (s : cstring) : option ascii :=
  match s with
  | [] => quote
  | c :: s' =>
      match quote with
      | Some q => if Ascii.eqb c q then quote_after None s' else quote_after quote s'
      | None => if is_quote c then quote_after (Some c) s' else quote_after None s'
      end
  end.

(** [s] without the quote characters that open or close a quotation. *)
Fixpoint strip (quote : option ascii) (s : cstring) : cstring :=
  match s with
  | [] => []
  | c :: s' =>
      match quote with
      | Some q => if Ascii.eqb c q then strip None s' else c :: strip quote s'
      | None => if is_quote c then strip (Some c) s' else c :: strip None s'
      end
  end.

(** Whether a text that ends outside a quotation ends inside a word: it is
    not empty and its last character is not a blank. *)
Definition word_open (pre : cstring) : bool :=
  match pre with
  | [] => false
  | _ :: _ => negb (is_blank (last pre NUL))
  end.

(** The tokens that are complete at the end of [pre], and the text of the
    word that is still open there, if one is. *)
Definition front_tokens (pre : cstring) : list cstring :=
  if word_open pre then removelast (spec_tokens None None pre)
  else spec_tokens None None pre.

Definition open_text (pre : cstring) : cstring :=
  if word_open pre then last (spec_tokens None None pre) [] else [].

(** An answer the bootstrapper treats as success: the call succeeded, or it
    failed with the one error that says the work was done before. *)
Definition benign (done_before : Z) (r : sysret) : bool :=
  match r with
  | SysOk => true
  | SysErr e => e =? done_before
  end.

(** The reference kernel only gains directories and mounts. *)
Definition vfs_le (k k' : vfs) : Prop :=
  (forall p, has_dir p k = true -> has_dir p k' = true) /\
  (forall t f, has_mount t f k = true -> has_mount t f k' = true).

(** After a run that returned 0 everything the bootstrapper sets up is in
    place. *)
Definition bootstrapped (k : vfs) : Prop :=
  has_dir (cs "/proc") k = true /\ has_mount (cs "/proc") (cs "proc") k = true /\
  has_dir (cs "/sys") k = true /\ has_mount (cs "/sys") (cs "sysfs") k = true /\
  has_dir (cs "/dev") k = true /\ has_mount (cs "/dev") (cs "devtmpfs") k = true /\
  has_dir (cs "/dev/pts") k = true /\ has_mount (cs "/dev/pts") (cs "devpts") k = true.

(** The fatal failures before the fork. *)
Definition mount_failure {K : Type} `{Kernel K} (k : K) : Prop :=
  fst (value (mount_filesystems k)) < 0.

Definition entrypoint_failure (e : env) : Prop :=
  fst (value (read_entrypoint (e_entrypoint_io e) MAX_ENTRYPOINT_LEN)) < 0.

Definition entrypoint_of (e : env) : cstring :=
  stored [] (snd (value (read_entrypoint (e_entrypoint_io e) MAX_ENTRYPOINT_LEN))).

Definition zero_tokens (e : env) : Prop :=
  ~ entrypoint_failure e /\
  pa_argc (parse_args (entrypoint_of e) MAX_ARGS) = 0.

Definition fork_failure (e : env) : Prop := e_fork e < 0.

Definition prefork_failure {K : Type} `{Kernel K} (k : K) (e : env) : Prop :=
  mount_failure k \/ entrypoint_failure e \/ zero_tokens e \/ fork_failure e.

(** The console device a process has recorded once it is past the fork. *)
Definition console_of (p : proc) : option cstring :=
  match p with
  | ChildExecs _ dev _ => Some dev
  | Supervising _ dev _ => Some dev
  | _ => None
  end.

(** What main records as console device, from the result of
    [read_console]. *)
Definition recorded_console (e : env) : cstring :=
  let c := read_console (e_console_io e) MAX_CONSOLE_LEN in
  if fst c =? 0 then stored [] (snd c) else [].

(** An environment in which every step before the fork succeeds. *)
Definition good_env (fork_result : Z) : env :=
  {| e_now := None;
     e_entrypoint_io := ReadOk (cs "console=ttyS0,115200 kerf.entrypoint=/bin/sh");
     e_console_io := ReadOk (cs "console=ttyS0,115200 kerf.entrypoint=/bin/sh");
     e_fork := fork_result;
     e_fork_errno := 0;
     e_tty := {| tty_open := SysOk; tty_getattr := true |};
     e_execv := None |}.

(** The line that reports a value too long for the buffer. *)
Definition too_long_line : log_line := Line (cs "kerf.entrypoint value too long").

(** How a child ends, the status [waitpid] reports for it on Linux, and the
    number the exit-status convention assigns to it. *)
Inductive termination :=
| Exited (code : Z)
| Killed (sig : Z) (core : bool).

Definition wait_status (t : termination) : Z :=
  match t with
  | Exited code => Z.shiftl (Z.land code 255) 8
  | Killed sig core => Z.lor sig (if core then 128 else 0)
  end.

Definition well_formed (t : termination) : Prop :=
  match t with
  | Exited code => 0 <= code <= 255
  | Killed sig _ => 1 <= sig <= 64
  end.

Definition convention (t : termination) : Z :=
  match t with
  | Exited code => code
  | Killed sig _ => 128 + sig
  end.

(** ** Further vocabulary: the calls of the bootstrapper *)

(** A call of [mount] or [mkdir], with its arguments. *)
Inductive syscall :=
| Mount (source target fstype : cstring) (flags : Z)
| Mkdir (path : cstring) (mode : Z).

(** A kernel that answers from a script and keeps the calls it receives, in
    order. *)
Record recorder := {
  rec_script : list sysret;
  rec_calls : list syscall
}.

Definition record_call (c : syscall) (k : recorder) : sysret * recorder :=
  (fst (next_answer (rec_script k)),
   {| rec_script := snd (next_answer (rec_script k));
      rec_calls := rec_calls k ++ [c] |}).

#[export] Instance recording_kernel : Kernel recorder := {
  sys_mount := fun source target fstype flags =>
                 record_call (Mount source target fstype flags);
  sys_mkdir := fun path mode => record_call (Mkdir path mode)
}.

(** The path a call is about, and the error it may fail with harmlessly. *)
Definition call_path (c : syscall) : cstring :=
  match c with
  | Mount _ target _ _ => target
  | Mkdir path _ => path
  end.

Definition call_done_before (c : syscall) : Z :=
  match c with
  | Mount _ _ _ _ => EBUSY
  | Mkdir _ _ => EEXIST
  end.

(** Running a list of calls against a list of answers, stopping after the
    first answer that is not benign: the calls made and the lines logged. *)
Fixpoint calls_made (plan : list syscall) (answers : list sysret) : list syscall :=
  match plan with
  | [] => []
  | c :: plan' =>
      match answers with
      | [] => c :: calls_made plan' []
      | r :: answers' =>
          if benign (call_done_before c) r then c :: calls_made plan' answers'
          else [c]
      end
  end.

Definition errno_of (r : sysret) : Z :=
  match r with
  | SysErr e => e
  | SysOk => 0
  end.

Fixpoint failure_log (plan : list syscall) (answers : list sysret) : list log_line :=
  match plan, answers with
  | c :: plan', r :: answers' =>
      if benign (call_done_before c) r then failure_log plan' answers'
      else [ErrorLine (call_path c) (errno_of r)]
  | _, _ => []
  end.

(** The five calls of [mount_filesystems], in order. *)
Definition bootstrap_plan : list syscall :=
  [ Mount (cs "proc") (cs "/proc") (cs "proc")
      (Z.lor MS_NOSUID (Z.lor MS_NODEV MS_NOEXEC));
    Mount (cs "sysfs") (cs "/sys") (cs "sysfs")
      (Z.lor MS_NOSUID (Z.lor MS_NODEV MS_NOEXEC));
    Mount (cs "devtmpfs") (cs "/dev") (cs "devtmpfs") MS_NOSUID;
    Mkdir (cs "/dev/pts") 493;
    Mount (cs "devpts") (cs "/dev/pts") (cs "devpts") (Z.lor MS_NOSUID MS_NOEXEC) ].

(** ** Further vocabulary: well-quoted command lines *)

(** A piece of an argument: characters written bare, or a text between a
    pair of quotes. *)
Inductive piece :=
| Bare (w : cstring)
| Quoted (q : ascii) (t : cstring).

Definition piece_ok (p : piece) : Prop :=
  match p with
  | Bare w => plain w
  | Quoted q t => is_quote q = true /\ ~ In q t /\ ~ In NUL t
  end.

(** How a piece is written, and what it contributes to the token. *)
Definition piece_text (p : piece) : cstring :=
  match p with
  | Bare w => w
  | Quoted q t => q :: t ++ [q]
  end.

Definition piece_value (p : piece) : cstring :=
  match p with
  | Bare w => w
  | Quoted _ t => t
  end.

(** An argument is a sequence of pieces written without a gap. *)
Definition arg_text (a : list piece) : cstring := concat (map piece_text a).
Definition arg_value (a : list piece) : cstring := concat (map piece_value a).

Definition arg_ok (a : list piece) : Prop :=
  Forall piece_ok a /\ arg_text a <> [].

(** A command line: arguments, each followed by a run of blanks, which may
    be empty only after the last one. *)
Fixpoint line_text (args : list (list piece * cstring)) : cstring :=
  match args with
  | [] => []
  | (a, sep) :: args' => arg_text a ++ sep ++ line_text args'
  end.

Fixpoint line_ok (args : list (list piece * cstring)) : Prop :=
  match args with
  | [] => True
  | (a, sep) :: args' =>
      arg_ok a /\ blanks sep /\ (sep = [] -> args' = []) /\ line_ok args'
  end.

(** The same conditions as functions, for checking a given line. *)
Definition occurs_in (c : ascii) (s : cstring) : bool := existsb (Ascii.eqb c) s.

Definition piece_check (p : piece) : bool :=
  match p with
  | Bare w =>
      forallb (fun c => negb (is_blank c) && negb (is_quote c)
                        && negb (Ascii.eqb c NUL)) w
  | Quoted q t => is_quote q && negb (occurs_in q t) && negb (occurs_in NUL t)
  end.

Fixpoint line_check (args : list (list piece * cstring)) : bool :=
  match args with
  | [] => true
  | (a, sep) :: args' =>
      forallb piece_check a && negb (length (arg_text a) =? 0)%nat
      && forallb is_blank sep
      && (negb (length sep =? 0)%nat || (length args' =? 0)%nat)
      && line_check args'
  end.

(** ** Further vocabulary: the layout of the tokens in the buffer *)

(** The strings [toks] stand at the offsets [offs], in order and apart:
    the first not before [lo], each followed by at least one byte before the
    next begins, the last ending by [hi]. *)
Fixpoint in_order (lo : nat) (offs : list nat) (toks : list cstring) (hi : nat)
  : Prop :=
  match offs, toks with
  | [], [] => True
  | o :: offs', t :: toks' =>
      (lo <= o)%nat /\ (o + length t <= hi)%nat /\
      in_order (o + length t + 1) offs' toks' hi
  | _, _ => False
  end.

(** ** Further vocabulary: the signals that are relayed *)

Definition is_forwarded (sig : Z) : bool :=
  (sig =? SIGTERM) || (sig =? SIGINT) || (sig =? SIGHUP).

(** The calls of [kill] that relay the signals among [arrivals] to [pid]. *)
Definition relayed (pid : Z) (arrivals : list arrival) : list kill_call :=
  map (fun a => {| k_pid := pid; k_sig := a_sig a |})
      (filter (fun a => is_forwarded (a_sig a)) arrivals).

(** An arrival during which the process [pid] is not reaped. *)
Definition quiet (pid : Z) (a : arrival) : Prop :=
  ~ In pid (map fst (a_reaped a)).

(** An event that does not reap the process [pid]. *)
Definition calm (pid : Z) (ev : event) : Prop :=
  match ev with
  | Sig a => quiet pid a
  | Go => True
  end.

(** The places at which the parent is waiting for a signal or about to. *)
Definition idle (p : place) : bool :=
  match p with
  | Pausing | Blocked | Woken => true
  | _ => false
  end.

(** The number of steps the program itself takes among [evs]. *)
Fixpoint go_count (evs : list event) : nat :=
  match evs with
  | [] => 0
  | Go :: evs' => S (go_count evs')
  | Sig _ :: evs' => go_count evs'
  end.

(** The line that reports the exit of the child. *)
Definition exit_line (status : Z) : log_line :=
  Line (cs "child exited with status " ++ fmt_d status).

(** The places of a parent that has the exit [status] to report and has not
    logged it yet. *)
Definition pending (status : Z) (p : place) : Prop :=
  match p with
  | Pausing | Blocked | Woken | Reporting => True
  | Logging msg => msg = cs "child exited with status " ++ fmt_d status
  | _ => False
  end.

(** The number of steps after which a parent that is awake has logged. *)
Definition steps_to_report (p : place) : option nat :=
  match p with
  | Woken => Some 3%nat
  | Reporting => Some 2%nat
  | Logging _ => Some 1%nat
  | _ => None
  end.

(** ** Further vocabulary: main *)

(** The line main logs last before it returns: the one of the first step
    that failed. *)
Definition diagnostic {K : Type} `{Kernel K} (k : K) (e : env) : log_line :=
  if fst (value (mount_filesystems k)) <? 0
  then Line (cs "failed to mount filesystems")
  else if fst (value (read_entrypoint (e_entrypoint_io e) MAX_ENTRYPOINT_LEN)) <? 0
  then Line (cs "failed to read entrypoint")
  else if pa_argc (parse_args (entrypoint_of e) MAX_ARGS) =? 0
  then Line (cs "no entrypoint arguments")
  else ErrorLine (cs "fork") (e_fork_errno e).

(** The line that lists the arguments, were there no limit on its length. *)
Definition executing_line (args : list cstring) : cstring :=
  cs "executing:" ++ concat (map (fun a => SPACE :: a) args).

(** ** Console attacher, at the level of descriptors *)

(** The flags of Linux (asm-generic/termbits.h). *)
Definition ICRNL : Z := 256.
Definition IXON : Z := 1024.
Definition OPOST : Z := 1.
Definition ONLCR : Z := 4.
Definition B115200 : Z := 4098.
Definition CS8 : Z := 48.
Definition CREAD : Z := 128.
Definition HUPCL : Z := 1024.
Definition CLOCAL : Z := 2048.
Definition ISIG : Z := 1.
Definition ICANON : Z := 2.
Definition ECHO : Z := 8.
Definition ECHOE : Z := 16.
Definition ECHOK : Z := 32.
Definition CBAUD : Z := 4111.

(** [struct termios] as the program handles it: the four flag words it
    assigns, and the other fields of the struct, which it passes on as
    [tcgetattr] filled them.  The speed the terminal is asked for is the one
    encoded in [c_cflag] under the mask [CBAUD]. *)
Record termios := {
  c_iflag : Z;
  c_oflag : Z;
  c_cflag : Z;
  c_lflag : Z;
  c_rest : list Z
}.

(** What the child holds that [setup_console] acts on: the file each
    descriptor refers to (none when closed), whether the child leads a
    session of its own, its controlling terminal, and the struct it has
    handed to [tcsetattr], if it has called it.  What the terminal makes of
    that struct is not followed here. *)
Record child_io := {
  io_fds : Z -> option cstring;
  io_session : bool;
  io_ctty : option cstring;
  io_tcsetattr : option termios
}.

(** What the child finds: the descriptor [open] returns (negative on
    failure, with errno), and the attributes [tcgetattr] reads, if it
    succeeds. *)
Record console_env := {
  ce_fd : Z;
  ce_errno : Z;
  ce_termios : option termios
}.

(** [setsid()] *)
Definition sys_setsid (st : child_io) : child_io :=
  {| io_fds := io_fds st; io_session := true; io_ctty := None;
     io_tcsetattr := io_tcsetattr st |}.

(** The effect of a successful [open]: the descriptor refers to the file. *)
Definition sys_open (fd : Z) (path : cstring) (st : child_io) : child_io :=
  {| io_fds := fun n => if n =? fd then Some path else io_fds st n;
     io_session := io_session st; io_ctty := io_ctty st; io_tcsetattr := io_tcsetattr st |}.

(** [ioctl(fd, TIOCSCTTY, 1)] *)
Definition sys_tiocsctty (fd : Z) (st : child_io) : child_io :=
  {| io_fds := io_fds st; io_session := io_session st;
     io_ctty := io_fds st fd; io_tcsetattr := io_tcsetattr st |}.

(** [tcsetattr(fd, TCSANOW, &term)]: the call is recorded with the struct
    it is given. *)
Definition sys_tcsetattr (term : termios) (st : child_io) : child_io :=
  {| io_fds := io_fds st; io_session := io_session st; io_ctty := io_ctty st;
     io_tcsetattr := Some term |}.

(** [dup2(oldfd, newfd)] *)
Definition sys_dup2 (oldfd newfd : Z) (st : child_io) : child_io :=
  {| io_fds := fun n => if n =? newfd then io_fds st oldfd else io_fds st n;
     io_session := io_session st; io_ctty := io_ctty st; io_tcsetattr := io_tcsetattr st |}.

(** [close(fd)] *)
Definition sys_close (fd : Z) (st : child_io) : child_io :=
  {| io_fds := fun n => if n =? fd then None else io_fds st n;
     io_session := io_session st; io_ctty := io_ctty st; io_tcsetattr := io_tcsetattr st |}.

Definition STDIN_FILENO : Z := 0.
Definition STDOUT_FILENO : Z := 1.
Definition STDERR_FILENO : Z := 2.

(** [setup_console] step by step.  [open] and [tcgetattr] are answered by
    the environment; the program does not look at what [setsid], [ioctl],
    [tcsetattr], [dup2] and [close] return, and they are taken with the
    effect they have when they succeed. *)
Definition setup_console_io (tty : cstring) (ce : console_env) (st : child_io)
  : Logged child_io :=
  let st := sys_setsid st in
  let fd := ce_fd ce in
  if fd <? 0 then log_error tty (ce_errno ce) ;;; ret st
  else
    let st := sys_open fd tty st in
    let st := sys_tiocsctty fd st in
    let st :=
      match ce_termios ce with
      | Some term =>
          sys_tcsetattr
            {| c_iflag := Z.lor ICRNL IXON;
               c_oflag := Z.lor OPOST ONLCR;
               c_cflag := Z.lor B115200 (Z.lor CS8 (Z.lor CREAD (Z.lor HUPCL CLOCAL)));
               c_lflag := Z.lor ISIG (Z.lor ICANON (Z.lor ECHO (Z.lor ECHOE ECHOK)));
               c_rest := c_rest term |} st
      | None => st
      end in
    let st := sys_dup2 fd STDIN_FILENO st in
    let st := sys_dup2 fd STDOUT_FILENO st in
    let st := sys_dup2 fd STDERR_FILENO st in
    let st := if fd >? STDERR_FILENO then sys_close fd st else st in
    ret st.

(** The environment of [setup_console], as the summary view sees it. *)
Definition summary_env (ce : console_env) : tty_env :=
  {| tty_open := if ce_fd ce <? 0 then SysErr (ce_errno ce) else SysOk;
     tty_getattr := match ce_termios ce with Some _ => true | None => false end |}.

Definition refers_to (st : child_io) (fd : Z) (path : cstring) : bool :=
  match io_fds st fd with
  | Some p => cstring_eqb p path
  | None => false
  end.

(** ** The kernel log of a boot that gets past the fork *)

(** The lines main writes on its way to the fork when nothing fails: the
    start line, the entrypoint (200 characters of it at most), the console
    device if one was recorded, and the arguments (511 characters of the
    line at most). *)
Definition starting_line (now : option cstring) : log_line :=
  match now with
  | None => Line (cs "starting")
  | Some ts => Line (firstn 79 (cs "starting at " ++ ts ++ cs " UTC"))
  end.

Definition transcript (now : option cstring) (v dev : cstring) (argv : list cstring)
  : list log_line :=
  [starting_line now; Line (cs "entrypoint: '" ++ firstn 200 v ++ cs "'")]
  ++ match dev with
     | [] => []
     | _ :: _ => [Line (cs "console: " ++ dev)]
     end
  ++ [Line (firstn 511 (executing_line argv))].

(** The lines of the child: the console device that could not be opened,
    and [execv] that came back. *)
Definition child_lines (dev : cstring) (t : tty_env) (exec : option Z) : list log_line :=
  match dev, tty_open t with
  | _ :: _, SysErr errno => [ErrorLine dev errno]
  | _, _ => []
  end
  ++ match exec with
     | Some errno => [ErrorLine (cs "execv") errno]
     | None => []
     end.

(** * Properties *)

(** ** The tokenizer on the examples of the specification *)

Example parse_abc :
  tokens_of (parse_args (cs "a b c") MAX_ARGS) = [cs "a"; cs "b"; cs "c"].
Proof. reflexivity. Qed.

Example parse_sh :
  tokens_of (parse_args (cs "/bin/sh -c 'echo hi'") MAX_ARGS)
  = [cs "/bin/sh"; cs "-c"; cs "echo hi"].
Proof. reflexivity. Qed.

Example parse_limit :
  let r := parse_args (cs "  a  b c d") 3 in
  tokens_of r = [cs "a"; cs "b"] /\ pa_argc r = 2 /\ pa_argv r = [Some 2%nat; Some 5%nat; None].
Proof. repeat split. Qed.

(** ** C strings *)

Lemma eqb_neq_false (a b : ascii) : a <> b -> Ascii.eqb a b = false.
Proof. intros; apply Ascii.eqb_neq; assumption. Qed.

Lemma starts_with_app (needle post : cstring) :
  starts_with needle (needle ++ post) = true.
Proof.
  induction needle as [|a needle IH]; simpl; [reflexivity|].
  rewrite Ascii.eqb_refl; exact IH.
Qed.

Lemma starts_with_inv (needle hay : cstring) :
  starts_with needle hay = true -> exists post, hay = needle ++ post.
Proof.
  revert hay; induction needle as [|a needle IH]; intros hay Hs.
  - exists hay; reflexivity.
  - destruct hay as [|b hay]; simpl in Hs; [discriminate|].
    apply andb_prop in Hs as [Hab Hrest].
    apply Ascii.eqb_eq in Hab; subst b.
    destruct (IH _ Hrest) as [post ->].
    exists post; reflexivity.
Qed.

Lemma first_at_tail (needle pre post : cstring) (a : ascii) :
  first_at needle ((a :: pre) ++ needle ++ post) (a :: pre) post ->
  first_at needle (pre ++ needle ++ post) pre post.
Proof.
  intros [_ Hmin]; split; [reflexivity|].
  intros pre' post' E.
  specialize (Hmin (a :: pre') post').
  simpl in Hmin; rewrite E in Hmin.
  specialize (Hmin eq_refl); lia.
Qed.

Lemma strstr_first (needle hay pre post : cstring) :
  first_at needle hay pre post -> strstr hay needle = Some (needle ++ post).
Proof.
  revert hay; induction pre as [|a pre IH]; intros hay Hf.
  - destruct Hf as [-> _]; simpl.
    destruct needle; simpl.
    + destruct post; reflexivity.
    + rewrite Ascii.eqb_refl, starts_with_app; reflexivity.
  - pose proof Hf as [-> Hmin].
    assert (Hno : starts_with needle ((a :: pre) ++ needle ++ post) = false).
    { destruct (starts_with needle ((a :: pre) ++ needle ++ post)) eqn:E;
        [|reflexivity].
      apply starts_with_inv in E as [post' E].
      specialize (Hmin [] post' E); simpl in Hmin; lia. }
    simpl in Hno |- *.
    destruct needle as [|b needle]; [discriminate|].
    simpl in Hno; simpl; rewrite Hno.
    apply (IH (pre ++ (b :: needle) ++ post)).
    apply first_at_tail with (a := a); exact Hf.
Qed.

Lemma strstr_found (needle hay s : cstring) :
  strstr hay needle = Some s ->
  exists pre post, first_at needle hay pre post /\ s = needle ++ post.
Proof.
  revert s; induction hay as [|a hay IH]; intros s Hs.
  - simpl in Hs.
    destruct (starts_with needle []) eqn:E; [|discriminate].
    injection Hs as <-.
    apply starts_with_inv in E as [post E].
    exists [], post; repeat split; [exact E| |exact E].
    intros; simpl; lia.
  - simpl in Hs.
    destruct (starts_with needle (a :: hay)) eqn:E.
    + injection Hs as <-.
      apply starts_with_inv in E as [post E].
      exists [], post; repeat split; [exact E| |exact E].
      intros; simpl; lia.
    + destruct (IH _ Hs) as (pre & post & [Eh Hmin] & ->).
      exists (a :: pre), post; repeat split; [simpl; rewrite Eh; reflexivity|].
      intros pre' post' E'.
      destruct pre' as [|a' pre'].
      * simpl in E'. rewrite E', starts_with_app in E. discriminate.
      * simpl in E'; injection E' as _ E'.
        specialize (Hmin _ _ E'); simpl; lia.
Qed.

Lemma strstr_absent (needle hay : cstring) :
  strstr hay needle = None -> ~ occurs needle hay.
Proof.
  induction hay as [|a hay IH]; simpl;
    destruct (starts_with needle _) eqn:E; try discriminate;
    intros Hs (pre & post & Eh).
  - destruct pre; simpl in Eh.
    + rewrite Eh, starts_with_app in E; discriminate.
    + discriminate.
  - destruct pre as [|a' pre]; simpl in Eh.
    + rewrite Eh, starts_with_app in E; discriminate.
    + injection Eh as _ Eh. apply (IH Hs). exists pre, post; exact Eh.
Qed.

Lemma app_split_length {A} (a a' b b' : list A) :
  length a = length a' -> a ++ b = a' ++ b' -> a = a' /\ b = b'.
Proof.
  revert a'; induction a as [|x a IH]; intros [|x' a'] L E;
    try discriminate; simpl in *.
  - split; [reflexivity | exact E].
  - injection E as -> E. injection L as L.
    destruct (IH _ L E) as [-> ->]; split; reflexivity.
Qed.

Lemma first_at_unique (needle hay pre post pre' post' : cstring) :
  first_at needle hay pre post -> first_at needle hay pre' post' ->
  pre = pre' /\ post = post'.
Proof.
  intros [E1 M1] [E2 M2].
  assert (L : length pre = length pre').
  { specialize (M1 _ _ E2); specialize (M2 _ _ E1); lia. }
  rewrite E1 in E2.
  destruct (app_split_length _ _ _ _ L E2) as [-> Hq].
  split; [reflexivity|].
  apply app_inv_head in Hq; exact Hq.
Qed.

Lemma strchr_found (c : ascii) (v post : cstring) :
  ~ In c v -> strchr (v ++ c :: post) c = Some (c :: post).
Proof.
  induction v as [|a v IH]; intros Hn; simpl.
  - rewrite Ascii.eqb_refl; reflexivity.
  - rewrite eqb_neq_false by (intros ->; apply Hn; left; reflexivity).
    apply IH; intros Hin; apply Hn; right; exact Hin.
Qed.

Lemma strchr_missing (c : ascii) (s : cstring) :
  ~ In c s -> strchr s c = None.
Proof.
  induction s as [|a s IH]; intros Hn; simpl; [reflexivity|].
  rewrite eqb_neq_false by (intros ->; apply Hn; left; reflexivity).
  apply IH; intros Hin; apply Hn; right; exact Hin.
Qed.

Lemma strchr_cases (c : ascii) (s : cstring) :
  (strchr s c = None /\ ~ In c s) \/
  (exists v post, s = v ++ c :: post /\ ~ In c v /\ strchr s c = Some (c :: post)).
Proof.
  induction s as [|a s IH]; simpl.
  - left; split; [reflexivity | intros []].
  - destruct (Ascii.eqb a c) eqn:E.
    + apply Ascii.eqb_eq in E; subst a.
      right; exists [], s; repeat split. intros [].
    + apply Ascii.eqb_neq in E.
      destruct IH as [[Hn Hi] | (v & post & -> & Hv & Hs)].
      * left; split; [exact Hn | intros [Ha | Hin]; [exact (E Ha) | exact (Hi Hin)]].
      * right; exists (a :: v), post; repeat split; [|exact Hs].
        intros [Ha | Hin]; [exact (E Ha) | exact (Hv Hin)].
Qed.

Lemma scan_unquoted_stops (v post : cstring) :
  ~ In SPACE v -> ~ In NEWLINE v -> ends_value post ->
  scan_unquoted (v ++ post) = post.
Proof.
  induction v as [|a v IH]; intros Hs Hn He; simpl.
  - destruct post as [|b post]; [reflexivity|]; simpl.
    destruct He as [He | [He | He]]; [discriminate| |]; simpl in He; subst b;
      reflexivity.
  - rewrite (eqb_neq_false a SPACE), (eqb_neq_false a NEWLINE); simpl.
    + apply IH; [intros Hi; apply Hs | intros Hi; apply Hn | exact He];
        right; exact Hi.
    + intros ->; apply Hn; left; reflexivity.
    + intros ->; apply Hs; left; reflexivity.
Qed.

Lemma scan_unquoted_cases (s : cstring) :
  exists v, s = v ++ scan_unquoted s /\ ~ In SPACE v /\ ~ In NEWLINE v /\
            ends_value (scan_unquoted s).
Proof.
  induction s as [|a s (v & Es & Hs & Hn & He)]; simpl.
  - exists []; repeat split; try (intros []); left; reflexivity.
  - destruct (Ascii.eqb a SPACE) eqn:E1; simpl.
    { apply Ascii.eqb_eq in E1; subst a.
      exists []; repeat split; try (intros []); right; left; reflexivity. }
    destruct (Ascii.eqb a NEWLINE) eqn:E2.
    { apply Ascii.eqb_eq in E2; subst a.
      exists []; repeat split; try (intros []); right; right; reflexivity. }
    apply Ascii.eqb_neq in E1, E2.
    exists (a :: v); repeat split; [simpl; rewrite <- Es; reflexivity | | | exact He].
    + intros [Ha | Hi]; [exact (E1 Ha) | exact (Hs Hi)].
    + intros [Ha | Hi]; [exact (E2 Ha) | exact (Hn Hi)].
Qed.

Lemma skipn_prefix {A} (a b : list A) : skipn (length a) (a ++ b) = b.
Proof. induction a; simpl; [reflexivity | assumption]. Qed.

Lemma firstn_prefix {A} (a b : list A) : firstn (length a) (a ++ b) = a.
Proof. induction a; simpl; [reflexivity | f_equal; assumption]. Qed.

Lemma ptr_diff_app (v post : cstring) : ptr_diff post (v ++ post) = length v.
Proof. unfold ptr_diff; rewrite length_app; lia. Qed.

Lemma read_entrypoint_unfold (data : list ascii) (bufsize : N) :
  read_entrypoint (ReadOk data) bufsize =
  match strstr (load_cmdline data) ENTRYPOINT_KEY with
  | None => ep_result (inl NotFound)
  | Some start => after_marker (skipn (strlen ENTRYPOINT_KEY) start) bufsize
  end.
Proof.
  unfold read_entrypoint, after_marker.
  destruct (strstr (load_cmdline data) ENTRYPOINT_KEY); reflexivity.
Qed.

Lemma delimited_value (v post : cstring) (bufsize : N) :
  (let len := ptr_diff post (v ++ post) in
   if (len =? 0)%nat then
     log_msg (cs "empty kerf.entrypoint value") ;;; ret (-1, None)
   else if (bufsize <=? N.of_nat len)%N then
     log_msg (cs "kerf.entrypoint value too long") ;;; ret (-1, None)
   else ret (0, Some (memcpy_str (v ++ post) len)))
  = ep_result (classify v bufsize).
Proof.
  cbv zeta; rewrite ptr_diff_app; unfold classify, memcpy_str.
  destruct (length v =? 0)%nat; [reflexivity|].
  destruct (bufsize <=? N.of_nat (length v))%N; [reflexivity|].
  rewrite firstn_prefix; reflexivity.
Qed.

Lemma after_marker_unterminated (rest : cstring) (bufsize : N) :
  ~ In DQUOTE rest ->
  after_marker (DQUOTE :: rest) bufsize = ep_result (inl Malformed).
Proof.
  intros Hn; unfold after_marker; simpl deref; simpl tl.
  rewrite Ascii.eqb_refl, (strchr_missing _ _ Hn); reflexivity.
Qed.

Lemma after_marker_quoted (v post : cstring) (bufsize : N) :
  ~ In DQUOTE v ->
  after_marker (DQUOTE :: v ++ DQUOTE :: post) bufsize
  = ep_result (classify v bufsize).
Proof.
  intros Hn; unfold after_marker; simpl deref; simpl tl.
  rewrite Ascii.eqb_refl, (strchr_found _ _ _ Hn).
  apply delimited_value.
Qed.

Lemma after_marker_unquoted (v post : cstring) (bufsize : N) :
  deref (v ++ post) <> DQUOTE -> ~ In SPACE v -> ~ In NEWLINE v ->
  ends_value post ->
  after_marker (v ++ post) bufsize = ep_result (classify v bufsize).
Proof.
  intros Hq Hs Hn He; unfold after_marker.
  rewrite (eqb_neq_false _ _ Hq), (scan_unquoted_stops _ _ Hs Hn He).
  apply delimited_value.
Qed.

Lemma entrypoint_spec_sound (data : list ascii) (bufsize : N) (o : ep_error + cstring) :
  entrypoint_spec (load_cmdline data) bufsize o ->
  read_entrypoint (ReadOk data) bufsize = ep_result o.
Proof.
  intros Hspec; rewrite read_entrypoint_unfold.
  destruct Hspec as [Habs | pre rest Hf Hn | pre v post Hf Hn
                    | pre v post Hf Hq Hs Hn He].
  - destruct (strstr (load_cmdline data) ENTRYPOINT_KEY) eqn:E; [|reflexivity].
    apply strstr_found in E as (pre & post & [Eh _] & _).
    exfalso; apply Habs; exists pre, post; exact Eh.
  - rewrite (strstr_first _ _ _ _ Hf); unfold strlen; rewrite skipn_prefix.
    apply after_marker_unterminated; exact Hn.
  - rewrite (strstr_first _ _ _ _ Hf); unfold strlen; rewrite skipn_prefix.
    apply after_marker_quoted; exact Hn.
  - rewrite (strstr_first _ _ _ _ Hf); unfold strlen; rewrite skipn_prefix.
    apply after_marker_unquoted; assumption.
Qed.

Lemma entrypoint_spec_total (cmdline : cstring) (bufsize : N) :
  exists o, entrypoint_spec cmdline bufsize o.
Proof.
  destruct (strstr cmdline ENTRYPOINT_KEY) as [s|] eqn:E.
  - apply strstr_found in E as (pre & post & Hf & _).
    destruct post as [|c post].
    + exists (classify [] bufsize).
      apply (ES_unquoted _ _ pre [] []).
      * exact Hf.
      * intros E0; cbv in E0; discriminate.
      * intros [].
      * intros [].
      * left; reflexivity.
    + destruct (Ascii.ascii_dec c DQUOTE) as [-> | Hc].
      * destruct (strchr_cases DQUOTE post) as [[_ Hn] | (v & post' & -> & Hv & _)].
        -- exists (inl Malformed); apply (ES_unterminated _ _ pre post Hf Hn).
        -- exists (classify v bufsize); apply (ES_quoted _ _ pre v post' Hf Hv).
      * destruct (scan_unquoted_cases (c :: post)) as (v & Es & Hs & Hn & He).
        exists (classify v bufsize).
        apply (ES_unquoted _ _ pre v (scan_unquoted (c :: post)));
          try assumption; rewrite <- Es; [exact Hf | exact Hc].
  - exists (inl NotFound); apply ES_absent, strstr_absent; exact E.
Qed.

Lemma ep_result_inj (o o' : ep_error + cstring) :
  ep_result o = ep_result o' -> o = o'.
Proof.
  destruct o as [[]|v], o' as [[]|v']; cbv; intros E;
    try reflexivity; try discriminate.
  injection E as ->; reflexivity.
Qed.

Lemma read_entrypoint_outcome (data : list ascii) (bufsize : N) (o : ep_error + cstring) :
  entrypoint_spec (load_cmdline data) bufsize o <->
  read_entrypoint (ReadOk data) bufsize = ep_result o.
Proof.
  split; [apply entrypoint_spec_sound|].
  intros E.
  destruct (entrypoint_spec_total (load_cmdline data) bufsize) as [o' Ho'].
  pose proof (entrypoint_spec_sound _ _ _ Ho') as E'.
  rewrite E in E'; apply ep_result_inj in E'; subst o'; exact Ho'.
Qed.

Lemma first_at_by_strstr (needle hay pre post : cstring) :
  hay = pre ++ needle ++ post ->
  strstr hay needle = Some (needle ++ post) ->
  first_at needle hay pre post.
Proof.
  intros Eh Es.
  apply strstr_found in Es as (pre0 & post0 & Hf & Ep).
  apply app_inv_head in Ep; subst post0.
  pose proof Hf as [Eh0 _].
  rewrite Eh in Eh0; apply app_inv_tail in Eh0; subst pre0.
  exact Hf.
Qed.

Lemma c_str_length (bytes : list ascii) : (length (c_str bytes) <= length bytes)%nat.
Proof.
  induction bytes as [|c bytes IH]; simpl; [lia|].
  destruct (Ascii.eqb c NUL); simpl; lia.
Qed.

Lemma load_cmdline_length (data : list ascii) :
  (length (load_cmdline data) <= MAX_CMDLINE_LEN - 1)%nat.
Proof.
  unfold load_cmdline.
  pose proof (c_str_length (firstn (MAX_CMDLINE_LEN - 1) data)) as H1.
  pose proof (firstn_le_length (MAX_CMDLINE_LEN - 1) data) as H2.
  lia.
Qed.

Lemma classify_too_long (v : cstring) (bufsize : N) :
  classify v bufsize = inl TooLong -> (bufsize <= N.of_nat (length v))%N.
Proof.
  unfold classify.
  destruct (length v =? 0)%nat; [discriminate|].
  destruct (bufsize <=? N.of_nat (length v))%N eqn:E; [|discriminate].
  intros _; apply N.leb_le; exact E.
Qed.

(** A value that is too long for the buffer leaves the buffer size at least
    the length of the marker below the length of the command line. *)
Lemma too_long_bound (cmdline : cstring) (bufsize : N) :
  entrypoint_spec cmdline bufsize (inl TooLong) ->
  (N.to_nat bufsize + strlen ENTRYPOINT_KEY <= length cmdline)%nat.
Proof.
  intros Hs.
  remember (inl TooLong) as o eqn:Eo.
  destruct Hs as [Habs | pre rest Hf Hn | pre v post [Eh _] Hn
                 | pre v post [Eh _] Hq Hs Hn He]; try discriminate;
    apply classify_too_long in Eo;
    rewrite Eh; unfold strlen; repeat rewrite length_app; simpl;
    repeat rewrite length_app; simpl; lia.
Qed.

Lemma too_long_logged (io : cmdline_io) (bufsize : N) :
  In too_long_line (logs (read_entrypoint io bufsize)) ->
  exists data, io = ReadOk data /\
               entrypoint_spec (load_cmdline data) bufsize (inl TooLong).
Proof.
  intros Hin.
  destruct io as [e | e | data].
  - cbv in Hin; destruct Hin as [Hin | []]; discriminate.
  - cbv in Hin; destruct Hin as [Hin | []]; discriminate.
  - exists data; split; [reflexivity|].
    destruct (entrypoint_spec_total (load_cmdline data) bufsize) as [o Ho].
    pose proof (entrypoint_spec_sound _ _ _ Ho) as E.
    rewrite E in Hin.
    destruct o as [[]|v]; try exact Ho; exfalso;
      cbv in Hin; try destruct Hin as [Hin | []]; try discriminate; exact Hin.
Qed.

(** ** Boot parameter reader: the claims *)

(** C3, as amended.  [read_entrypoint] fails when /proc/cmdline cannot be
    opened or read.  When it has been read, the call fails in exactly four
    cases: the marker is absent from the command line held in the buffer
    (NotFound), the value opens with a double quote that is never closed
    (Malformed), the value delimited is empty (Empty), or its length is not
    below the buffer size (TooLong).  Otherwise it returns 0 and stores the
    value, which for a quoted value runs to the next double quote and for an
    unquoted one to the next space, newline or the end. *)
Theorem read_entrypoint_failures (io : cmdline_io) (bufsize : N) :
  match io with
  | OpenFails e =>
      read_entrypoint io bufsize = ((-1, None), [ErrorLine (cs "open /proc/cmdline") e])
  | ReadFails e =>
      read_entrypoint io bufsize = ((-1, None), [ErrorLine (cs "read /proc/cmdline") e])
  | ReadOk data =>
      (forall o, entrypoint_spec (load_cmdline data) bufsize o <->
                 read_entrypoint io bufsize = ep_result o) /\
      (fst (value (read_entrypoint io bufsize)) < 0 <->
       exists err, entrypoint_spec (load_cmdline data) bufsize (inl err)) /\
      (forall v, entrypoint_spec (load_cmdline data) bufsize (inr v) <->
                 value (read_entrypoint io bufsize) = (0, Some v))
  end.
Proof.
  destruct io as [e | e | data]; try reflexivity.
  pose proof (read_entrypoint_outcome data bufsize) as Hiff.
  destruct (entrypoint_spec_total (load_cmdline data) bufsize) as [o Ho].
  pose proof (proj1 (Hiff o) Ho) as E.
  split; [exact Hiff | split].
  - rewrite E; split.
    + intros Hlt; destruct o as [err | v]; [exists err; exact Ho|].
      simpl in Hlt; lia.
    + intros [err Herr]; apply Hiff in Herr.
      rewrite E in Herr; apply ep_result_inj in Herr; subst o.
      destruct err; simpl; lia.
  - intros v; split.
    + intros Hv; apply Hiff in Hv; rewrite Hv; reflexivity.
    + intros Hv; rewrite E in Hv.
      destruct o as [[] | v']; simpl in Hv; try discriminate.
      injection Hv as ->; exact Ho.
Qed.

(** C3, as stated, fails: a call that cannot open /proc/cmdline returns -1
    although its failure is none of the four the claim lists. *)
Lemma read_entrypoint_open_failure :
  fst (value (read_entrypoint (OpenFails ENOENT) MAX_ENTRYPOINT_LEN)) = -1 /\
  forall err, read_entrypoint (OpenFails ENOENT) MAX_ENTRYPOINT_LEN
              <> ep_result (inl err).
Proof.
  split; [reflexivity|].
  intros []; cbv; discriminate.
Qed.

(** C1.  Two-stage quoting.  When the first marker of the command line is
    followed by a double-quoted [a b c], [read_entrypoint] stores the raw
    value [a b c], outer quotes stripped, and [parse_args] splits that value
    into a, b and c.  When it is followed by the double-quoted
    [/bin/sh -c 'echo hi'], the value stored keeps the single quotes and the
    tokens are /bin/sh, -c and [echo hi]: the tokenizer treats the single
    quotes as it treats double quotes. *)
Theorem two_stage_quoting (data : list ascii) (pre post v : cstring)
    (toks : list cstring) :
  In (v, toks)
     [ (cs "a b c", [cs "a"; cs "b"; cs "c"]);
       (cs "/bin/sh -c 'echo hi'", [cs "/bin/sh"; cs "-c"; cs "echo hi"]) ] ->
  first_at ENTRYPOINT_KEY (load_cmdline data) pre (DQUOTE :: v ++ DQUOTE :: post) ->
  read_entrypoint (ReadOk data) MAX_ENTRYPOINT_LEN = ((0, Some v), []) /\
  tokens_of (parse_args v MAX_ARGS) = toks /\
  pa_argc (parse_args v MAX_ARGS) = 3.
Proof.
  intros Hin Hf.
  assert (Hv : ~ In DQUOTE v /\ classify v MAX_ENTRYPOINT_LEN = inr v /\
               tokens_of (parse_args v MAX_ARGS) = toks /\
               pa_argc (parse_args v MAX_ARGS) = 3).
  { destruct Hin as [E | [E | []]]; injection E as <- <-;
      (split; [|repeat split]);
      cbv; intuition discriminate. }
  destruct Hv as (Hq & Hc & Ht & Hn).
  split; [|split; assumption].
  rewrite (entrypoint_spec_sound data MAX_ENTRYPOINT_LEN (classify v MAX_ENTRYPOINT_LEN)).
  - rewrite Hc; reflexivity.
  - apply (ES_quoted _ _ pre v post Hf Hq).
Qed.

Lemma two_stage_quoting_witness :
  read_entrypoint
    (ReadOk (cs "console=ttyS0,115200 kerf.entrypoint=" ++ DQUOTE :: cs "a b c"
               ++ DQUOTE :: cs " quiet"))
    MAX_ENTRYPOINT_LEN = ((0, Some (cs "a b c")), []) /\
  tokens_of (parse_args (cs "a b c") MAX_ARGS) = [cs "a"; cs "b"; cs "c"] /\
  pa_argc (parse_args (cs "a b c") MAX_ARGS) = 3.
Proof.
  apply (two_stage_quoting _ (cs "console=ttyS0,115200 ") (cs " quiet")
           (cs "a b c") [cs "a"; cs "b"; cs "c"]).
  - left; reflexivity.
  - apply first_at_by_strstr; vm_compute; reflexivity.
Defined.

(** ** Command tokenizer: refinement of the specification's tokenizer *)

Lemma c_str_terminated (tok rest : list ascii) :
  ~ In NUL tok -> c_str (tok ++ NUL :: rest) = tok.
Proof.
  induction tok as [|a tok IH]; intros Hn; simpl; [reflexivity|].
  rewrite eqb_neq_false by (intros ->; apply Hn; left; reflexivity).
  f_equal; apply IH; intros Hi; apply Hn; right; exact Hi.
Qed.

Lemma c_str_clean (tok : list ascii) : ~ In NUL tok -> c_str tok = tok.
Proof.
  induction tok as [|a tok IH]; intros Hn; simpl; [reflexivity|].
  rewrite eqb_neq_false by (intros ->; apply Hn; left; reflexivity).
  f_equal; apply IH; intros Hi; apply Hn; right; exact Hi.
Qed.

Lemma not_in_cons {A} (x a : A) (l : list A) :
  ~ In x (a :: l) -> a <> x /\ ~ In x l.
Proof. intros Hn; split; [intros E | intros Hi]; apply Hn; [left | right]; assumption. Qed.

Lemma find_end_spec (p : cstring) :
  forall (q : bool) (qc : ascii) (done cur : list ascii),
    ~ In NUL p ->
    exists tok q' qc' p',
      ~ In NUL tok /\ ~ In NUL p' /\
      ((find_end q qc done p = (q', qc', done ++ tok ++ [NUL], p') /\
        q' = false /\
        spec_tokens (mode q qc) (Some cur) p
        = (cur ++ tok) :: spec_tokens None None p') \/
       (find_end q qc done p = (q', qc', done ++ tok, p') /\
        p' = [] /\
        spec_tokens (mode q qc) (Some cur) p = [cur ++ tok])).
Proof.
  induction p as [|c p IH]; intros q qc done cur Hn.
  - exists [], q, qc, []; repeat split; try (intros []).
    right; simpl; rewrite !app_nil_r; repeat split.
  - apply not_in_cons in Hn as [Hc Hn].
    destruct q; simpl.
    + destruct (Ascii.eqb c qc) eqn:Eq.
      * destruct (IH false qc done cur Hn) as (tok & q' & qc' & p' & H1 & H2 & H3).
        exists tok, q', qc', p'; repeat split; assumption.
      * destruct (IH true qc (done ++ [c]) (cur ++ [c]) Hn)
          as (tok & q' & qc' & p' & H1 & H2 & H3).
        exists (c :: tok), q', qc', p'; split; [|split; [exact H2|]].
        { intros [E | Hi]; [exact (Hc E) | exact (H1 Hi)]. }
        simpl in H3; rewrite <- !app_assoc in H3; simpl in H3; exact H3.
    + destruct (is_quote c) eqn:Eq.
      * destruct (IH true c done cur Hn) as (tok & q' & qc' & p' & H1 & H2 & H3).
        exists tok, q', qc', p'; repeat split; assumption.
      * destruct (is_blank c) eqn:Eb.
        -- exists [], false, qc, p; repeat split; try (intros []); [exact Hn|].
           left; simpl; rewrite app_nil_r; repeat split.
        -- destruct (IH false qc (done ++ [c]) (cur ++ [c]) Hn)
             as (tok & q' & qc' & p' & H1 & H2 & H3).
           exists (c :: tok), q', qc', p'; split; [|split; [exact H2|]].
           { intros [E | Hi]; [exact (Hc E) | exact (H1 Hi)]. }
           simpl in H3; rewrite <- !app_assoc in H3; simpl in H3; exact H3.
Qed.

Lemma skip_blanks_spec (p : cstring) :
  forall done, ~ In NUL p ->
    exists bl p',
      skip_blanks done p = (done ++ bl, p') /\ ~ In NUL p' /\
      spec_tokens None None p = spec_tokens None None p' /\
      (p' = [] \/ is_blank (deref p') = false).
Proof.
  induction p as [|c p IH]; intros done Hn.
  - exists [], []; simpl; rewrite app_nil_r; repeat split; try (intros []).
    left; reflexivity.
  - apply not_in_cons in Hn as [Hc Hn]; simpl.
    destruct (is_blank c) eqn:Eb.
    + destruct (IH (done ++ [c]) Hn) as (bl & p' & H1 & H2 & H3 & H4).
      exists (c :: bl), p'; rewrite <- app_assoc in H1; simpl in H1.
      assert (Eq : is_quote c = false).
      { unfold is_blank in Eb; unfold is_quote.
        apply orb_prop in Eb as [E | E]; apply Ascii.eqb_eq in E; subst c;
          reflexivity. }
      rewrite Eq; repeat split; assumption.
    + exists [], (c :: p); rewrite app_nil_r; repeat split.
      * intros [E | Hi]; [exact (Hc E) | exact (Hn Hi)].
      * simpl; rewrite Eb; reflexivity.
      * right; exact Eb.
Qed.

Lemma spec_tokens_begin (c : ascii) (s : cstring) :
  is_blank c = false ->
  spec_tokens None None (c :: s) = spec_tokens None (Some []) (c :: s).
Proof. intros Eb; simpl; rewrite Eb; reflexivity. Qed.

Lemma parse_loop_done (slots : nat) (t : tokenizer) :
  tk_p t = [] -> parse_loop slots t = t.
Proof. intros E; destruct slots; simpl; [reflexivity | rewrite E; reflexivity]. Qed.

Lemma parse_loop_spec (slots : nat) :
  forall t : tokenizer,
    tk_in_quote t = false -> ~ In NUL (tk_p t) ->
    exists offs ext,
      tk_argv (parse_loop slots t) = tk_argv t ++ offs /\
      tk_done (parse_loop slots t) ++ tk_p (parse_loop slots t) = tk_done t ++ ext /\
      strings_at (tk_done t ++ ext) offs
      = firstn slots (spec_tokens None None (tk_p t)).
Proof.
  induction slots as [|slots IH]; intros t Hq Hn.
  - exists [], (tk_p t); simpl; rewrite app_nil_r; repeat split.
  - simpl.
    destruct (tk_p t) as [|c0 p0] eqn:Ep.
    { exists [], []; simpl; rewrite Ep, app_nil_r; repeat split. }
    rewrite <- Ep in *.
    destruct (skip_blanks_spec (tk_p t) (tk_done t) Hn)
      as (bl & p' & Es & Hn' & Et & Hb).
    rewrite Es, Et.
    destruct p' as [|c p'].
    { exists [], bl; simpl; rewrite !app_nil_r; repeat split. }
    destruct Hb as [Hb | Hb]; [discriminate|]; simpl in Hb.
    rewrite (spec_tokens_begin _ _ Hb), Hq.
    destruct (find_end_spec (c :: p') false (tk_quote_char t) (tk_done t ++ bl) [] Hn')
      as (tok & q' & qc' & p'' & Htok & Hp'' & [(Ef & Hq' & Est) | (Ef & Hp & Est)]).
    + simpl mode in Est; rewrite Ef, Est.
      destruct (IH {| tk_done := (tk_done t ++ bl) ++ tok ++ [NUL]; tk_p := p'';
                      tk_argv := tk_argv t ++ [length (tk_done t ++ bl)];
                      tk_in_quote := q'; tk_quote_char := qc' |} Hq' Hp'')
        as (offs & ext & Ha & Hd & Hs).
      simpl in Ha, Hd, Hs.
      exists (length (tk_done t ++ bl) :: offs), (bl ++ tok ++ [NUL] ++ ext).
      rewrite Ha, Hd, <- !app_assoc; simpl; repeat split.
      f_equal.
      * replace (tk_done t ++ bl ++ tok ++ NUL :: ext)
          with ((tk_done t ++ bl) ++ tok ++ NUL :: ext)
          by (rewrite <- app_assoc; reflexivity).
        rewrite skipn_prefix; apply c_str_terminated; exact Htok.
      * rewrite <- Hs; unfold strings_at; rewrite <- !app_assoc; reflexivity.
    + simpl mode in Est; rewrite Ef, Est; subst p''.
      rewrite parse_loop_done by reflexivity; simpl.
      exists [length (tk_done t ++ bl)], (bl ++ tok).
      rewrite app_nil_r, <- !app_assoc; repeat split.
      simpl; rewrite firstn_nil; f_equal.
      replace (tk_done t ++ bl ++ tok) with ((tk_done t ++ bl) ++ tok)
        by (rewrite <- app_assoc; reflexivity).
      rewrite skipn_prefix; apply c_str_clean; exact Htok.
Qed.

Lemma argv_strings_sentinel (buf : list ascii) (offs : list nat) :
  argv_strings buf (map Some offs ++ [None]) = strings_at buf offs.
Proof. induction offs; simpl; [reflexivity | f_equal; assumption]. Qed.

(** [parse_args] produces the tokens of the specification's tokenizer. *)
Lemma parse_args_tokens (s : cstring) (max_args : Z) :
  ~ In NUL s ->
  tokens_of (parse_args s max_args) = tokenize s max_args /\
  pa_argc (parse_args s max_args) = Z.of_nat (length (tokenize s max_args)) /\
  exists offs,
    pa_argv (parse_args s max_args) = map Some offs ++ [None] /\
    length offs = length (tokenize s max_args).
Proof.
  intros Hn.
  destruct (parse_loop_spec (Z.to_nat (max_args - 1))
              {| tk_done := []; tk_p := s; tk_argv := [];
                 tk_in_quote := false; tk_quote_char := NUL |} eq_refl Hn)
    as (offs & ext & Ha & Hd & Hs).
  simpl in Ha, Hd, Hs.
  assert (Hl : length offs = length (tokenize s max_args)).
  { unfold tokenize; rewrite <- Hs; unfold strings_at; rewrite length_map; reflexivity. }
  unfold tokens_of, parse_args; simpl; rewrite Ha, Hd.
  rewrite argv_strings_sentinel, Hl; repeat split.
  - exact Hs.
  - exists offs; split; [reflexivity | exact Hl].
Qed.

Lemma spec_tokens_plain (s : cstring) :
  (forall c, In c s -> is_quote c = false) ->
  forall cur, (forall t, cur = Some t -> t <> []) ->
    spec_tokens None cur s = split_blanks (cur_text cur) s.
Proof.
  induction s as [|c s IH]; intros Hq cur Hcur.
  - destruct cur as [[|a t]|]; simpl; try reflexivity.
    exfalso; apply (Hcur [] eq_refl); reflexivity.
  - simpl; rewrite (Hq c) by (left; reflexivity).
    assert (Hq' : forall c', In c' s -> is_quote c' = false)
      by (intros c' Hi; apply Hq; right; exact Hi).
    destruct (is_blank c).
    + rewrite (IH Hq' None) by discriminate.
      destruct cur as [[|a t]|]; simpl; try reflexivity.
      exfalso; apply (Hcur [] eq_refl); reflexivity.
    + rewrite (IH Hq' (Some (cur_text cur ++ [c]))); [reflexivity|].
      intros t E; injection E as <-.
      destruct (cur_text cur); discriminate.
Qed.

(** C8.  For every input string [parse_args] yields the tokens of the
    specification's tokenizer, cut after [max_args - 1] of them: tokens are
    separated by runs of spaces and tabs (for an input without quote
    characters they are exactly the maximal runs of other characters), what
    follows the last token kept is ignored, the entry of the argument vector
    right after the last token is NULL and the entries before it are not,
    and the value returned is the number of tokens, zero included. *)
Theorem tokenizer_shape (s : cstring) (max_args : Z) :
  ~ In NUL s ->
  let r := parse_args s max_args in
  tokens_of r = tokenize s max_args /\
  ((forall c, In c s -> is_quote c = false) ->
   tokens_of r = firstn (Z.to_nat (max_args - 1)) (split_blanks [] s)) /\
  pa_argc r = Z.of_nat (length (tokens_of r)) /\
  0 <= pa_argc r <= Z.max 0 (max_args - 1) /\
  nth_error (pa_argv r) (length (tokens_of r)) = Some None /\
  (forall i, (i < length (tokens_of r))%nat ->
             exists off, nth_error (pa_argv r) i = Some (Some off)) /\
  length (pa_argv r) = S (length (tokens_of r)) /\
  (tokenize s max_args = [] -> pa_argc r = 0 /\ pa_argv r = [None]).
Proof.
  intros Hn r.
  destruct (parse_args_tokens s max_args Hn) as (Ht & Hc & offs & Ha & Hl).
  fold r in Ht, Hc, Ha.
  rewrite Ht, <- Hl.
  split; [reflexivity | split; [|split; [|split; [|split; [|split; [|split]]]]]].
  - intros Hq; unfold tokenize.
    rewrite (spec_tokens_plain s Hq None) by discriminate; reflexivity.
  - rewrite Hc, Hl; reflexivity.
  - rewrite Hc; unfold tokenize.
    pose proof (firstn_le_length (Z.to_nat (max_args - 1)) (spec_tokens None None s)) as H1.
    assert (H2 : (length (firstn (Z.to_nat (max_args - 1)) (spec_tokens None None s))
                  <= Z.to_nat (max_args - 1))%nat).
    { rewrite length_firstn; lia. }
    lia.
  - rewrite Ha, nth_error_app2; rewrite length_map; [|lia].
    rewrite Nat.sub_diag; reflexivity.
  - intros i Hi.
    destruct (nth_error offs i) as [off|] eqn:E.
    + exists off; rewrite Ha, nth_error_app1 by (rewrite length_map; exact Hi).
      rewrite nth_error_map, E; reflexivity.
    + apply nth_error_None in E; lia.
  - rewrite Ha, length_app, length_map; simpl; lia.
  - intros E; rewrite E in Hl; destruct offs; [|discriminate].
    rewrite Hc, E, Ha; split; reflexivity.
Qed.

Lemma tokenizer_shape_witness :
  ~ In NUL (cs " a  b' c' d") /\
  tokens_of (parse_args (cs " a  b' c' d") 3) = tokenize (cs " a  b' c' d") 3 /\
  pa_argc (parse_args (cs " a  b' c' d") 3)
  = Z.of_nat (length (tokens_of (parse_args (cs " a  b' c' d") 3))) /\
  nth_error (pa_argv (parse_args (cs " a  b' c' d") 3))
    (length (tokens_of (parse_args (cs " a  b' c' d") 3)))
  = Some None.
Proof.
  assert (Hn : ~ In NUL (cs " a  b' c' d")) by (vm_compute; intuition discriminate).
  split; [exact Hn|].
  destruct (tokenizer_shape (cs " a  b' c' d") 3 Hn) as (Ht & _ & Hc & _ & Hs & _).
  split; [exact Ht | split; [exact Hc | exact Hs]].
Defined.

(** ** The log monad *)

Lemma value_bind {A B} (m : Logged A) (k : A -> Logged B) :
  value (bind m k) = value (k (value m)).
Proof. destruct m as [a l]; unfold bind, value; simpl; destruct (k a); reflexivity. Qed.

Lemma logs_bind {A B} (m : Logged A) (k : A -> Logged B) :
  logs (bind m k) = logs m ++ logs (k (value m)).
Proof. destruct m as [a l]; unfold bind, value, logs; simpl; destruct (k a); reflexivity. Qed.

(** ** Filesystem bootstrapper *)

Section BootstrapFacts.
Context {K : Type} `{Kernel K}.

Lemma do_mount_value (source target fstype : cstring) (flags : Z) (k : K) :
  value (do_mount source target fstype flags k)
  = (if benign EBUSY (fst (sys_mount source target fstype flags k)) then 0 else -1,
     snd (sys_mount source target fstype flags k)).
Proof.
  unfold do_mount.
  destruct (sys_mount source target fstype flags k) as [[|e] k']; simpl;
    [reflexivity|].
  destruct (e =? EBUSY); reflexivity.
Qed.

Lemma do_mkdir_value (path : cstring) (mode : Z) (k : K) :
  value (do_mkdir path mode k)
  = (if benign EEXIST (fst (sys_mkdir path mode k)) then 0 else -1,
     snd (sys_mkdir path mode k)).
Proof.
  unfold do_mkdir.
  destruct (sys_mkdir path mode k) as [[|e] k']; simpl; [reflexivity|].
  destruct (e =? EEXIST); reflexivity.
Qed.

(** [mount_filesystems] without the log: the five steps in order, each
    run only if the ones before it returned 0. *)
Lemma mount_filesystems_value (k : K) :
  value (mount_filesystems k) =
  let r1 := value (do_mount (cs "proc") (cs "/proc") (cs "proc")
                     (Z.lor MS_NOSUID (Z.lor MS_NODEV MS_NOEXEC)) k) in
  if fst r1 <? 0 then (-1, snd r1) else
  let r2 := value (do_mount (cs "sysfs") (cs "/sys") (cs "sysfs")
                     (Z.lor MS_NOSUID (Z.lor MS_NODEV MS_NOEXEC)) (snd r1)) in
  if fst r2 <? 0 then (-1, snd r2) else
  let r3 := value (do_mount (cs "devtmpfs") (cs "/dev") (cs "devtmpfs")
                     MS_NOSUID (snd r2)) in
  if fst r3 <? 0 then (-1, snd r3) else
  let r4 := value (do_mkdir (cs "/dev/pts") 493 (snd r3)) in
  if fst r4 <? 0 then (-1, snd r4) else
  let r5 := value (do_mount (cs "devpts") (cs "/dev/pts") (cs "devpts")
                     (Z.lor MS_NOSUID MS_NOEXEC) (snd r4)) in
  if fst r5 <? 0 then (-1, snd r5) else (0, snd r5).
Proof.
  unfold mount_filesystems; cbv zeta.
  repeat (rewrite value_bind;
          match goal with
          | |- context [if ?c then _ else _] => destruct c; [reflexivity|]
          end).
  reflexivity.
Qed.

End BootstrapFacts.

Lemma scripted_bootstrap (r1 r2 r3 r4 r5 : sysret) (k : script) :
  fst (value (mount_filesystems (r1 :: r2 :: r3 :: r4 :: r5 :: k)))
  = if benign EBUSY r1 && benign EBUSY r2 && benign EBUSY r3
       && benign EEXIST r4 && benign EBUSY r5
    then 0 else -1.
Proof.
  rewrite mount_filesystems_value; cbv zeta.
  repeat rewrite do_mount_value; repeat rewrite do_mkdir_value; simpl.
  destruct (benign EBUSY r1); simpl; [|reflexivity].
  destruct (benign EBUSY r2); simpl; [|reflexivity].
  destruct (benign EBUSY r3); simpl; [|reflexivity].
  destruct (benign EEXIST r4); simpl; [|reflexivity].
  destruct (benign EBUSY r5); reflexivity.
Qed.

(** The reference kernel. *)

Lemma vfs_le_refl (k : vfs) : vfs_le k k.
Proof. split; auto. Qed.

Lemma vfs_le_trans (a b c : vfs) : vfs_le a b -> vfs_le b c -> vfs_le a c.
Proof. intros [H1 H2] [H3 H4]; split; auto. Qed.

Lemma cstring_eqb_refl (a : cstring) : cstring_eqb a a = true.
Proof. unfold cstring_eqb; destruct (list_eq_dec ascii_dec a a); congruence. Qed.

Lemma vfs_mount_ok (source target fstype : cstring) (flags : Z) (k : vfs) :
  benign EBUSY (fst (vfs_mount source target fstype flags k)) = true ->
  let k' := snd (vfs_mount source target fstype flags k) in
  vfs_le k k' /\ has_dir target k' = true /\ has_mount target fstype k' = true.
Proof.
  unfold vfs_mount.
  destruct (has_dir target k) eqn:Ed; simpl; [|discriminate].
  destruct (has_mount target fstype k) eqn:Em; simpl; intros _.
  - split; [apply vfs_le_refl | split; assumption].
  - split; [|split].
    + split; [auto|].
      intros t f Hm; unfold has_mount in *; simpl; rewrite Hm; apply orb_true_r.
    + exact Ed.
    + unfold has_mount; simpl; rewrite !cstring_eqb_refl; reflexivity.
Qed.

Lemma vfs_mkdir_ok (path : cstring) (mode : Z) (k : vfs) :
  let k' := snd (vfs_mkdir path mode k) in
  benign EEXIST (fst (vfs_mkdir path mode k)) = true /\
  vfs_le k k' /\ has_dir path k' = true.
Proof.
  unfold vfs_mkdir.
  destruct (has_dir path k) eqn:Ed; simpl.
  - split; [reflexivity | split; [apply vfs_le_refl | exact Ed]].
  - split; [reflexivity | split; [split; [|auto]|]].
    + intros p Hp; unfold has_dir in *; simpl; rewrite Hp; apply orb_true_r.
    + unfold has_dir; simpl; rewrite cstring_eqb_refl; reflexivity.
Qed.

Lemma vfs_mount_again (source target fstype : cstring) (flags : Z) (k : vfs) :
  has_dir target k = true -> has_mount target fstype k = true ->
  do_mount source target fstype flags k = ((0, k), []).
Proof.
  intros Hd Hm; unfold do_mount; simpl; unfold vfs_mount.
  rewrite Hd, Hm; reflexivity.
Qed.

Lemma vfs_mkdir_again (path : cstring) (mode : Z) (k : vfs) :
  has_dir path k = true -> do_mkdir path mode k = ((0, k), []).
Proof.
  intros Hd; unfold do_mkdir; simpl; unfold vfs_mkdir.
  rewrite Hd; reflexivity.
Qed.

Lemma do_mount_vfs (source target fstype : cstring) (flags : Z) (k : vfs) :
  fst (value (do_mount source target fstype flags k)) = -1 \/
  (fst (value (do_mount source target fstype flags k)) = 0 /\
   let k' := snd (value (do_mount source target fstype flags k)) in
   vfs_le k k' /\ has_dir target k' = true /\ has_mount target fstype k' = true).
Proof.
  rewrite do_mount_value.
  change (sys_mount source target fstype flags k)
    with (vfs_mount source target fstype flags k).
  simpl fst; simpl snd.
  destruct (benign EBUSY (fst (vfs_mount source target fstype flags k))) eqn:E;
    [right | left; reflexivity].
  split; [reflexivity | apply vfs_mount_ok; exact E].
Qed.

Lemma do_mkdir_vfs (path : cstring) (mode : Z) (k : vfs) :
  fst (value (do_mkdir path mode k)) = 0 /\
  let k' := snd (value (do_mkdir path mode k)) in
  vfs_le k k' /\ has_dir path k' = true.
Proof.
  rewrite do_mkdir_value.
  change (sys_mkdir path mode k) with (vfs_mkdir path mode k).
  simpl fst; simpl snd.
  destruct (vfs_mkdir_ok path mode k) as (E & L & D).
  rewrite E; split; [reflexivity | split; assumption].
Qed.

Lemma bootstrap_establishes (k k' : vfs) :
  value (mount_filesystems k) = (0, k') -> bootstrapped k'.
Proof.
  rewrite mount_filesystems_value.
  set (r1 := value (do_mount (cs "proc") (cs "/proc") (cs "proc")
                      (Z.lor MS_NOSUID (Z.lor MS_NODEV MS_NOEXEC)) k)).
  destruct (do_mount_vfs (cs "proc") (cs "/proc") (cs "proc")
              (Z.lor MS_NOSUID (Z.lor MS_NODEV MS_NOEXEC)) k)
    as [E1 | (E1 & L1 & D1 & M1)]; fold r1 in E1; cbv zeta; rewrite E1;
    [discriminate|]; change (0 <? 0) with false; cbv iota; fold r1 in L1, D1, M1.
  set (r2 := value (do_mount (cs "sysfs") (cs "/sys") (cs "sysfs")
                      (Z.lor MS_NOSUID (Z.lor MS_NODEV MS_NOEXEC)) (snd r1))).
  destruct (do_mount_vfs (cs "sysfs") (cs "/sys") (cs "sysfs")
              (Z.lor MS_NOSUID (Z.lor MS_NODEV MS_NOEXEC)) (snd r1))
    as [E2 | (E2 & L2 & D2 & M2)]; fold r2 in E2; cbv beta iota zeta; rewrite E2;
    [discriminate|]; change (0 <? 0) with false; cbv iota; fold r2 in L2, D2, M2.
  set (r3 := value (do_mount (cs "devtmpfs") (cs "/dev") (cs "devtmpfs")
                      MS_NOSUID (snd r2))).
  destruct (do_mount_vfs (cs "devtmpfs") (cs "/dev") (cs "devtmpfs")
              MS_NOSUID (snd r2))
    as [E3 | (E3 & L3 & D3 & M3)]; fold r3 in E3; cbv beta iota zeta; rewrite E3;
    [discriminate|]; change (0 <? 0) with false; cbv iota; fold r3 in L3, D3, M3.
  set (r4 := value (do_mkdir (cs "/dev/pts") 493 (snd r3))).
  destruct (do_mkdir_vfs (cs "/dev/pts") 493 (snd r3)) as (E4 & L4 & D4);
    fold r4 in E4, L4, D4; cbv beta iota zeta; rewrite E4;
    change (0 <? 0) with false; cbv iota.
  set (r5 := value (do_mount (cs "devpts") (cs "/dev/pts") (cs "devpts")
                      (Z.lor MS_NOSUID MS_NOEXEC) (snd r4))).
  destruct (do_mount_vfs (cs "devpts") (cs "/dev/pts") (cs "devpts")
              (Z.lor MS_NOSUID MS_NOEXEC) (snd r4))
    as [E5 | (E5 & L5 & D5 & M5)]; fold r5 in E5; cbv beta iota zeta; rewrite E5;
    [discriminate|]; change (0 <? 0) with false; cbv iota; fold r5 in L5, D5, M5.
  intros E.
  assert (Ek : snd r5 = k') by exact (f_equal snd E).
  rewrite <- Ek; clear E Ek.
  cbv zeta in L1, D1, M1, L2, D2, M2, L3, D3, M3, L4, D4, L5, D5, M5.
  pose proof (vfs_le_trans _ _ _ L2 (vfs_le_trans _ _ _ L3 (vfs_le_trans _ _ _ L4 L5))) as [A1 B1].
  pose proof (vfs_le_trans _ _ _ L3 (vfs_le_trans _ _ _ L4 L5)) as [A2 B2].
  pose proof (vfs_le_trans _ _ _ L4 L5) as [A3 B3].
  destruct L5 as [A4 B4].
  unfold bootstrapped; repeat split; auto.
Qed.

Lemma bind_pure {A B} (a : A) (k : A -> Logged B) : bind (a, []) k = k a.
Proof. unfold bind; destruct (k a); reflexivity. Qed.

Lemma bootstrap_again (k : vfs) :
  bootstrapped k -> mount_filesystems k = ((0, k), []).
Proof.
  intros (D1 & M1 & D2 & M2 & D3 & M3 & D4 & M4).
  unfold mount_filesystems.
  rewrite vfs_mount_again, bind_pure by assumption; cbv beta.
  change (fst (0, k) <? 0) with false; cbv iota; change (snd (0, k)) with k.
  rewrite vfs_mount_again, bind_pure by assumption; cbv beta.
  change (fst (0, k) <? 0) with false; cbv iota; change (snd (0, k)) with k.
  rewrite vfs_mount_again, bind_pure by assumption; cbv beta.
  change (fst (0, k) <? 0) with false; cbv iota; change (snd (0, k)) with k.
  rewrite vfs_mkdir_again, bind_pure by assumption; cbv beta.
  change (fst (0, k) <? 0) with false; cbv iota; change (snd (0, k)) with k.
  rewrite vfs_mount_again, bind_pure by assumption; cbv beta.
  reflexivity.
Qed.

(** C7.  Mount idempotence.  [do_mount] returns 0 exactly when [mount]
    succeeded or failed with EBUSY, [do_mkdir] exactly when [mkdir] succeeded
    or failed with EEXIST, and both return -1 on every other error;
    [mount_filesystems] returns 0 exactly when each of its five steps did,
    and -1 otherwise.  On the reference kernel a run that follows a
    successful run succeeds again, and leaves the kernel as it was. *)
Theorem mount_idempotent :
  (forall (K : Type) (H : Kernel K) (source target fstype : cstring) (flags : Z) (k : K),
      fst (value (do_mount source target fstype flags k))
      = if benign EBUSY (fst (sys_mount source target fstype flags k))
        then 0 else -1) /\
  (forall (K : Type) (H : Kernel K) (path : cstring) (mode : Z) (k : K),
      fst (value (do_mkdir path mode k))
      = if benign EEXIST (fst (sys_mkdir path mode k)) then 0 else -1) /\
  (forall (r1 r2 r3 r4 r5 : sysret) (k : script),
      fst (value (mount_filesystems (r1 :: r2 :: r3 :: r4 :: r5 :: k)))
      = if benign EBUSY r1 && benign EBUSY r2 && benign EBUSY r3
           && benign EEXIST r4 && benign EBUSY r5
        then 0 else -1) /\
  (forall k k' : vfs,
      value (mount_filesystems k) = (0, k') ->
      mount_filesystems k' = ((0, k'), [])) /\
  fst (value (mount_filesystems initial_vfs)) = 0.
Proof.
  split; [|split; [|split; [|split]]].
  - intros; rewrite do_mount_value; reflexivity.
  - intros; rewrite do_mkdir_value; reflexivity.
  - exact scripted_bootstrap.
  - intros k k' E; apply bootstrap_again, (bootstrap_establishes k k' E).
  - reflexivity.
Qed.

Lemma mount_idempotent_witness :
  value (mount_filesystems initial_vfs)
  = (0, snd (value (mount_filesystems initial_vfs))) /\
  mount_filesystems (snd (value (mount_filesystems initial_vfs)))
  = ((0, snd (value (mount_filesystems initial_vfs))), []).
Proof.
  assert (E : value (mount_filesystems initial_vfs)
              = (0, snd (value (mount_filesystems initial_vfs)))) by reflexivity.
  split; [exact E|].
  exact (proj1 (proj2 (proj2 (proj2 mount_idempotent))) initial_vfs _ E).
Defined.

(** ** Signals *)

Lemma setup_signals_handlers (tbl : sigtable) :
  sa_handler (setup_signals tbl SIGTERM) = ForwardSignal /\
  sa_handler (setup_signals tbl SIGINT) = ForwardSignal /\
  sa_handler (setup_signals tbl SIGHUP) = ForwardSignal /\
  sa_handler (setup_signals tbl SIGCHLD) = SigchldHandler.
Proof. repeat split. Qed.

(** C5.  Signal relay.  Once [setup_signals] has run, the handler the kernel
    runs for SIGTERM, SIGINT and SIGHUP is [forward_signal]; delivered one of
    them, the supervisor calls [kill] once, with the recorded child pid and
    the same signal number, if the recorded pid is greater than zero, and
    calls nothing otherwise; its own state is left as it was. *)
Theorem signal_relay (tbl : sigtable) (sig : Z) (reaped : list (Z * Z))
    (st : supervisor) :
  In sig [SIGTERM; SIGINT; SIGHUP] ->
  sa_handler (setup_signals tbl sig) = ForwardSignal /\
  deliver (setup_signals tbl) {| a_sig := sig; a_reaped := reaped |} st
  = (st, if child_pid st >? 0
         then [{| k_pid := child_pid st; k_sig := sig |}] else []) /\
  (child_pid st > 0 <->
   snd (deliver (setup_signals tbl) {| a_sig := sig; a_reaped := reaped |} st)
   = [{| k_pid := child_pid st; k_sig := sig |}]) /\
  (child_pid st <= 0 ->
   snd (deliver (setup_signals tbl) {| a_sig := sig; a_reaped := reaped |} st) = []).
Proof.
  intros Hs.
  assert (Hh : sa_handler (setup_signals tbl sig) = ForwardSignal).
  { destruct Hs as [<- | [<- | [<- | []]]]; reflexivity. }
  assert (Hd : deliver (setup_signals tbl) {| a_sig := sig; a_reaped := reaped |} st
               = (st, if child_pid st >? 0
                      then [{| k_pid := child_pid st; k_sig := sig |}] else [])).
  { unfold deliver; simpl a_sig; rewrite Hh; reflexivity. }
  split; [exact Hh | split; [exact Hd | rewrite Hd; simpl snd; split]].
  - destruct (child_pid st >? 0) eqn:E; split; intros Hp;
      try reflexivity; try discriminate; lia.
  - intros Hle; destruct (child_pid st >? 0) eqn:E; [lia | reflexivity].
Qed.

Lemma signal_relay_witness :
  deliver (setup_signals default_sigtable) {| a_sig := SIGTERM; a_reaped := [] |}
    {| child_pid := 42; child_exited := 0; child_exit_status := 0 |}
  = ({| child_pid := 42; child_exited := 0; child_exit_status := 0 |},
     [{| k_pid := 42; k_sig := SIGTERM |}]).
Proof.
  apply (signal_relay default_sigtable SIGTERM []
           {| child_pid := 42; child_exited := 0; child_exit_status := 0 |}).
  left; reflexivity.
Defined.

(** ** Reaping *)

Lemma byte_range (P : Z -> bool) (lo n : nat) :
  forallb P (map Z.of_nat (seq lo n)) = true ->
  forall z, Z.of_nat lo <= z < Z.of_nat (lo + n) -> P z = true.
Proof.
  intros Hall z Hz.
  rewrite forallb_forall in Hall; apply Hall.
  apply in_map_iff; exists (Z.to_nat z); split; [lia|].
  apply in_seq; lia.
Qed.

Lemma exit_status_decoded (code : Z) :
  0 <= code <= 255 ->
  WIFEXITED (wait_status (Exited code)) = true /\
  WEXITSTATUS (wait_status (Exited code)) = code.
Proof.
  intros Hc.
  pose proof (byte_range
                (fun c => WIFEXITED (wait_status (Exited c))
                          && (WEXITSTATUS (wait_status (Exited c)) =? c))
                0 256 eq_refl code) as H.
  simpl Z.of_nat in H; specialize (H ltac:(lia)).
  apply andb_prop in H as [H1 H2]; apply Z.eqb_eq in H2; split; assumption.
Qed.

Lemma signal_status_decoded (sig : Z) (core : bool) :
  1 <= sig <= 64 ->
  WIFEXITED (wait_status (Killed sig core)) = false /\
  WIFSIGNALED (wait_status (Killed sig core)) = true /\
  WTERMSIG (wait_status (Killed sig core)) = sig.
Proof.
  intros Hs.
  pose proof (byte_range
                (fun s => forallb
                            (fun c => negb (WIFEXITED (wait_status (Killed s c)))
                                      && WIFSIGNALED (wait_status (Killed s c))
                                      && (WTERMSIG (wait_status (Killed s c)) =? s))
                            [true; false])
                1 64 eq_refl sig) as H.
  simpl Z.of_nat in H; specialize (H ltac:(lia)).
  rewrite forallb_forall in H.
  assert (Hin : In core [true; false]) by (destruct core; simpl; auto).
  specialize (H core Hin).
  apply andb_prop in H as [H12 H3]; apply andb_prop in H12 as [H1 H2].
  apply Z.eqb_eq in H3; apply negb_true_iff in H1; repeat split; assumption.
Qed.

(** What the handler records for the child, by the way the child ended. *)
Lemma status_recorded (t : termination) (old : Z) :
  well_formed t ->
  (if WIFEXITED (wait_status t) then WEXITSTATUS (wait_status t)
   else if WIFSIGNALED (wait_status t) then 128 + WTERMSIG (wait_status t)
   else old) = convention t.
Proof.
  destruct t as [code | sig core]; intros Hw.
  - destruct (exit_status_decoded code Hw) as [-> ->]; reflexivity.
  - destruct (signal_status_decoded sig core Hw) as (-> & -> & ->); reflexivity.
Qed.

Lemma sigchld_handler_others (q rest : list (Z * Z)) (st : supervisor) :
  Forall (fun r => fst r > 0 /\ fst r <> child_pid st) q ->
  sigchld_handler (q ++ rest) st = sigchld_handler rest st.
Proof.
  induction q as [|[pid status] q IH]; intros Hq; [reflexivity|].
  inversion Hq as [|? ? [Hpos Hne] Hq']; subst; simpl in Hpos, Hne |- *.
  destruct (pid >? 0) eqn:E1; [|lia].
  destruct (pid =? child_pid st) eqn:E2; [lia|].
  apply IH; exact Hq'.
Qed.

Lemma sigchld_handler_child (before after : list (Z * Z)) (st : supervisor)
    (t : termination) :
  child_pid st > 0 -> well_formed t ->
  Forall (fun r => fst r > 0 /\ fst r <> child_pid st) (before ++ after) ->
  sigchld_handler (before ++ (child_pid st, wait_status t) :: after) st
  = {| child_pid := child_pid st; child_exited := 1;
       child_exit_status := convention t |}.
Proof.
  intros Hp Hw Hq.
  apply Forall_app in Hq as [Hb Ha].
  rewrite (sigchld_handler_others before _ st Hb); simpl.
  destruct (child_pid st >? 0) eqn:E1; [|lia].
  rewrite Z.eqb_refl, (status_recorded t _ Hw).
  rewrite <- (app_nil_r after).
  apply (sigchld_handler_others after []); exact Ha.
Qed.

Lemma exit_line_fits (n : Z) :
  0 <= n <= 255 ->
  snprintf 64 (cs "child exited with status " ++ fmt_d n)
  = cs "child exited with status " ++ fmt_d n.
Proof.
  intros Hn.
  pose proof (byte_range
                (fun n => if list_eq_dec ascii_dec
                               (snprintf 64 (cs "child exited with status " ++ fmt_d n))
                               (cs "child exited with status " ++ fmt_d n)
                          then true else false)
                0 256 eq_refl n) as H.
  simpl Z.of_nat in H; specialize (H ltac:(lia)).
  cbv beta in H.
  match type of H with
  | (if ?d then _ else _) = _ => destruct d as [E|]; [exact E | discriminate]
  end.
Qed.

Lemma convention_range (t : termination) : well_formed t -> 0 <= convention t <= 255.
Proof. destruct t; unfold well_formed, convention; intros; lia. Qed.

(** ** main *)

Section MainFacts.
Context {K : Type} `{Kernel K}.

(** How far main gets, without the log. *)
Lemma main_value (k : K) (e : env) :
  value (main k e) =
  if fst (value (mount_filesystems k)) <? 0 then Returned 1 else
  let r := value (read_entrypoint (e_entrypoint_io e) MAX_ENTRYPOINT_LEN) in
  if fst r <? 0 then Returned 1 else
  let c := read_console (e_console_io e) MAX_CONSOLE_LEN in
  let console_device := if fst c =? 0 then stored [] (snd c) else [] in
  let ep := parse_args (stored [] (snd r)) MAX_ARGS in
  if pa_argc ep =? 0 then Returned 1 else
  if e_fork e <? 0 then Returned 1 else
  if e_fork e =? 0 then
    match e_execv e with
    | None =>
        ChildExecs (tokens_of ep) console_device
          (if negb (Ascii.eqb (deref console_device) NUL)
           then value (setup_console console_device (e_tty e))
           else no_console)
    | Some _ => ChildExits 127
    end
  else Supervising (setup_signals default_sigtable) console_device
         {| child_pid := e_fork e; child_exited := 0; child_exit_status := 0 |}.
Proof.
  unfold main; cbv zeta.
  rewrite !value_bind.
  destruct (fst (value (mount_filesystems k)) <? 0); [reflexivity|].
  rewrite !value_bind.
  destruct (fst (value (read_entrypoint (e_entrypoint_io e) MAX_ENTRYPOINT_LEN)) <? 0);
    [reflexivity|].
  rewrite !value_bind.
  set (c := read_console (e_console_io e) MAX_CONSOLE_LEN).
  assert (Ec : value (if fst c =? 0
                      then log_msg (snprintf 128 (cs "console: " ++ stored [] (snd c))) ;;;
                           ret (stored [] (snd c))
                      else ret [])
               = if fst c =? 0 then stored [] (snd c) else []).
  { destruct (fst c =? 0); reflexivity. }
  rewrite Ec; clear Ec.
  set (dev := if fst c =? 0 then stored [] (snd c) else []).
  destruct (pa_argc _ =? 0); [reflexivity|].
  rewrite !value_bind; simpl child_pid.
  destruct (e_fork e <? 0); [reflexivity|].
  destruct (e_fork e =? 0); [|reflexivity].
  rewrite !value_bind.
  destruct (e_execv e); [reflexivity|].
  destruct (negb (Ascii.eqb (deref dev) NUL)); reflexivity.
Qed.
End MainFacts.

Section MainOutcomes.
Context {K : Type} `{Kernel K}.

Lemma main_returns_one (k : K) (e : env) (status : Z) :
  value (main k e) = Returned status -> status = 1.
Proof.
  rewrite main_value; cbv zeta.
  repeat match goal with
         | |- context [if ?c then _ else _] => destruct c
         | |- context [match e_execv e with _ => _ end] => destruct (e_execv e)
         end;
    intros E; try discriminate; injection E as <-; reflexivity.
Qed.

Lemma main_returns_iff (k : K) (e : env) :
  (exists status, value (main k e) = Returned status) <-> prefork_failure k e.
Proof.
  rewrite main_value; cbv zeta.
  unfold prefork_failure, mount_failure, zero_tokens, entrypoint_failure,
    fork_failure, entrypoint_of.
  destruct (fst (value (mount_filesystems k)) <? 0) eqn:E1.
  { apply Z.ltb_lt in E1; split; [auto | intros _; eexists; reflexivity]. }
  apply Z.ltb_ge in E1.
  destruct (fst (value (read_entrypoint (e_entrypoint_io e) MAX_ENTRYPOINT_LEN)) <? 0)
    eqn:E2.
  { apply Z.ltb_lt in E2; split; [auto | intros _; eexists; reflexivity]. }
  apply Z.ltb_ge in E2.
  destruct (pa_argc _ =? 0) eqn:E3.
  { apply Z.eqb_eq in E3; split; [intros _ | intros _; eexists; reflexivity].
    right; right; left; split; [lia | exact E3]. }
  apply Z.eqb_neq in E3.
  destruct (e_fork e <? 0) eqn:E4.
  { apply Z.ltb_lt in E4; split; [auto | intros _; eexists; reflexivity]. }
  apply Z.ltb_ge in E4.
  split.
  - intros [status Hs]; exfalso.
    destruct (e_fork e =? 0); [destruct (e_execv e)|]; discriminate.
  - intros [Hf | [Hf | [[_ Hf] | Hf]]]; try lia; contradiction.
Qed.

Lemma main_supervises (k : K) (e : env) :
  ~ prefork_failure k e -> e_fork e > 0 ->
  value (main k e)
  = Supervising (setup_signals default_sigtable) (recorded_console e)
      {| child_pid := e_fork e; child_exited := 0; child_exit_status := 0 |}.
Proof.
  intros Hnf Hpos.
  destruct (value (main k e)) eqn:Em.
  - exfalso; apply Hnf, main_returns_iff; eexists; exact Em.
  - revert Em; rewrite main_value; cbv zeta. 
    repeat match goal with
           | |- context [if ?c then _ else _] => destruct c eqn:?
           | |- context [match e_execv e with _ => _ end] => destruct (e_execv e)
           end; intros Em; try discriminate; lia.
  - revert Em; rewrite main_value; cbv zeta.
    repeat match goal with
           | |- context [if ?c then _ else _] => destruct c eqn:?
           | |- context [match e_execv e with _ => _ end] => destruct (e_execv e)
           end; intros Em; try discriminate; lia.
  - revert Em; rewrite main_value; cbv zeta.
    fold (recorded_console e).
    repeat match goal with
           | |- context [if ?c then _ else _] => destruct c eqn:?
           | |- context [match e_execv e with _ => _ end] => destruct (e_execv e)
           end; intros Em; try discriminate; symmetry; exact Em.
Qed.
End MainOutcomes.

Lemma run_supervising (turns : list (list arrival)) :
  forall (tbl : sigtable) (dev : cstring) (st : supervisor),
  exists st', fst (value (run turns (Supervising tbl dev st))) = Supervising tbl dev st'.
Proof.
  induction turns as [|arrivals turns IH]; intros tbl dev st.
  - exists st; reflexivity.
  - simpl; rewrite !value_bind.
    destruct (IH tbl dev (fst (value (loop_body tbl arrivals st)))) as [st' E].
    exists st'; exact E.
Qed.

(** C4.  Exit characterization.  main returns only with status 1, and it
    returns exactly when mounting fails, reading the entrypoint fails,
    tokenization yields no token, or fork fails.  When none of these happens
    and fork returns a child pid, the parent enters its loop, and it is still
    in the loop after any number of turns, whatever signals arrive. *)
Theorem exit_characterization {K : Type} `{Kernel K} (k : K) (e : env) :
  (forall status, value (main k e) = Returned status -> status = 1) /\
  (value (main k e) = Returned 1 <-> prefork_failure k e) /\
  (~ prefork_failure k e -> e_fork e > 0 ->
   exists tbl dev st,
     value (main k e) = Supervising tbl dev st /\ child_pid st = e_fork e) /\
  (forall tbl dev st turns,
      value (main k e) = Supervising tbl dev st ->
      exists st',
        fst (value (run turns (value (main k e)))) = Supervising tbl dev st' /\
        forall status,
          fst (value (run turns (value (main k e)))) <> Returned status).
Proof.
  split; [|split; [|split]].
  - intros status; apply main_returns_one.
  - split.
    + intros E; apply main_returns_iff; exists 1; exact E.
    + intros Hf; apply main_returns_iff in Hf as [status E].
      rewrite E; f_equal; apply (main_returns_one k e); exact E.
  - intros Hnf Hpos; rewrite (main_supervises k e Hnf Hpos).
    do 3 eexists; split; reflexivity.
  - intros tbl dev st turns E; rewrite E.
    destruct (run_supervising turns tbl dev st) as [st' E'].
    exists st'; split; [exact E'|].
    intros status; rewrite E'; discriminate.
Qed.

Lemma exit_characterization_witness :
  exists st',
    fst (value (run [[{| a_sig := SIGTERM; a_reaped := [] |}];
                     [{| a_sig := SIGCHLD; a_reaped := [(7, 0)] |}]]
                  (value (main ([] : script) (good_env 7)))))
    = Supervising (setup_signals default_sigtable) (cs "/dev/ttyS0") st'.
Proof.
  destruct (proj2 (proj2 (proj2 (@exit_characterization script scripted_kernel [] (good_env 7))))
              (setup_signals default_sigtable) (cs "/dev/ttyS0")
              {| child_pid := 7; child_exited := 0; child_exit_status := 0 |}
              [[{| a_sig := SIGTERM; a_reaped := [] |}];
               [{| a_sig := SIGCHLD; a_reaped := [(7, 0)] |}]]
              ltac:(vm_compute; reflexivity)) as [st' [E _]].
  exists st'; exact E.
Defined.

(** The exit status when the SIGCHLD arrives inside [pause()] with the
    child's pid recorded: the status recorded is the child's exit status (0
    to 255) if it exited and 128 plus the signal number if a signal ended
    it, and the flag is set; the turn of the loop logs that status once and
    resets the flag, and a later turn with nothing to reap logs nothing.  A
    child whose exec fails exits with status 127. *)
Lemma reaping (tbl : sigtable) (st : supervisor) (t : termination)
    (before after : list (Z * Z)) :
  child_pid st > 0 -> well_formed t ->
  Forall (fun r => fst r > 0 /\ fst r <> child_pid st) (before ++ after) ->
  let reaped := before ++ (child_pid st, wait_status t) :: after in
  let sigchld := {| a_sig := SIGCHLD; a_reaped := reaped |} in
  let waiting := {| child_pid := child_pid st; child_exited := 0;
                    child_exit_status := convention t |} in
  sigchld_handler reaped st
  = {| child_pid := child_pid st; child_exited := 1;
       child_exit_status := convention t |} /\
  deliver (setup_signals tbl) sigchld st = (sigchld_handler reaped st, []) /\
  loop_body (setup_signals tbl) [sigchld] st
  = ((waiting, []),
     [Line (cs "child exited with status " ++ fmt_d (convention t))]) /\
  loop_body (setup_signals tbl) [] waiting = ((waiting, []), []) /\
  convention (Exited 127) = 127 /\
  (forall (K : Type) (H : Kernel K) (k : K) (e : env) (status : Z),
      value (main k e) = ChildExits status ->
      status = 127 /\ e_execv e <> None /\ e_fork e = 0) /\
  (forall (K : Type) (H : Kernel K) (k : K) (e : env) (errno : Z),
      ~ prefork_failure k e -> e_fork e = 0 -> e_execv e = Some errno ->
      value (main k e) = ChildExits 127).
Proof.
  intros Hp Hw Hq reaped sigchld waiting.
  pose proof (sigchld_handler_child before after st t Hp Hw Hq) as Hh.
  fold reaped in Hh.
  assert (Hd : deliver (setup_signals tbl) sigchld st = (sigchld_handler reaped st, []))
    by reflexivity.
  split; [exact Hh | split; [exact Hd | split; [|split; [|split; [|split]]]]].
  - unfold loop_body, deliver_all; rewrite Hd, Hh; simpl child_exited.
    change (negb (1 =? 0)) with true; cbv iota.
    simpl child_exit_status; simpl child_pid.
    rewrite (exit_line_fits _ (convention_range t Hw)); reflexivity.
  - reflexivity.
  - reflexivity.
  - intros K0 H0 k e status; rewrite main_value; cbv zeta.
    repeat match goal with
           | |- context [if ?c then _ else _] => destruct c eqn:?
           end; try discriminate.
    destruct (e_execv e); intros E; [|discriminate].
    injection E as <-; repeat split; [discriminate | lia].
  - intros K0 H0 k e errno Hnf Hf He'.
    destruct (value (main k e)) eqn:Em.
    + exfalso; apply Hnf, main_returns_iff; eexists; exact Em.
    + revert Em; rewrite main_value; cbv zeta; rewrite He'.
      repeat match goal with
             | |- context [if ?c then _ else _] => destruct c eqn:?
             end; discriminate.
    + f_equal; symmetry.
      revert Em; rewrite main_value; cbv zeta; rewrite He'.
      repeat match goal with
             | |- context [if ?c then _ else _] => destruct c eqn:?
             end; intros Em; try discriminate; injection Em as <-; reflexivity.
    + revert Em; rewrite main_value; cbv zeta; rewrite He'.
      repeat match goal with
             | |- context [if ?c then _ else _] => destruct c eqn:?
             end; intros Em; try discriminate; lia.
Qed.

(** ** Console *)

Lemma scan_console_stops (v post : cstring) :
  ~ In SPACE v -> ~ In COMMA v -> ~ In NEWLINE v -> ends_console post ->
  scan_console (v ++ post) = post.
Proof.
  induction v as [|a v IH]; intros Hs Hc Hn He; simpl.
  - destruct post as [|b post]; [reflexivity|]; simpl.
    destruct He as [He | [He | [He | He]]]; [discriminate| | |];
      simpl in He; subst b; reflexivity.
  - apply not_in_cons in Hs as [Hs1 Hs], Hc as [Hc1 Hc], Hn as [Hn1 Hn].
    rewrite (eqb_neq_false a SPACE Hs1), (eqb_neq_false a COMMA Hc1),
      (eqb_neq_false a NEWLINE Hn1); simpl.
    apply IH; assumption.
Qed.

(** A console value that is delimited and fits is stored behind /dev/. *)
Lemma read_console_value (data : list ascii) (pre v post : cstring) (bufsize : N) :
  first_at CONSOLE_KEY (load_cmdline data) pre (v ++ post) ->
  v <> [] -> ~ In SPACE v -> ~ In COMMA v -> ~ In NEWLINE v -> ends_console post ->
  (N.of_nat (length v) + 5 < bufsize)%N ->
  read_console (ReadOk data) bufsize = (0, Some (cs "/dev/" ++ v)).
Proof.
  intros Hf Hne Hs Hc Hn He Hb; unfold read_console.
  rewrite (strstr_first _ _ _ _ Hf); unfold strlen; rewrite skipn_prefix.
  cbv zeta; rewrite (scan_console_stops v post Hs Hc Hn He).
  rewrite ptr_diff_app; unfold precision; rewrite firstn_prefix.
  replace (length v =? 0)%nat with false
    by (symmetry; apply Nat.eqb_neq; destruct v; [congruence | discriminate]).
  replace (bufsize <=? N.of_nat (length v))%N with false
    by (symmetry; apply N.leb_gt; lia).
  replace (bufsize <=? N.of_nat (length v) + 5)%N with false
    by (symmetry; apply N.leb_gt; lia).
  cbv iota; simpl orb; cbv iota.
  unfold snprintf; rewrite firstn_all2; [reflexivity|].
  rewrite length_app; change (length (cs "/dev/")) with 5%nat; lia.
Qed.

Lemma read_console_ttyS0 (data : list ascii) (pre post : cstring) (bufsize : N) :
  (10 < bufsize)%N ->
  first_at CONSOLE_KEY (load_cmdline data) pre (cs "ttyS0,115200" ++ post) ->
  read_console (ReadOk data) bufsize = (0, Some (cs "/dev/ttyS0")).
Proof.
  intros Hb Hf.
  apply (read_console_value data pre (cs "ttyS0") (cs ",115200" ++ post) bufsize).
  - exact Hf.
  - discriminate.
  - cbv; intuition discriminate.
  - cbv; intuition discriminate.
  - cbv; intuition discriminate.
  - right; right; left; reflexivity.
  - change (N.of_nat (length (cs "ttyS0"))) with 5%N; lia.
Qed.

Section ConsoleFacts.
Context {K : Type} `{Kernel K}.

Lemma main_value_console (k : K) (e : env) :
  value (main k e) =
  if fst (value (mount_filesystems k)) <? 0 then Returned 1 else
  if fst (value (read_entrypoint (e_entrypoint_io e) MAX_ENTRYPOINT_LEN)) <? 0
  then Returned 1 else
  if pa_argc (parse_args (entrypoint_of e) MAX_ARGS) =? 0 then Returned 1 else
  if e_fork e <? 0 then Returned 1 else
  if e_fork e =? 0 then
    match e_execv e with
    | None =>
        ChildExecs (tokens_of (parse_args (entrypoint_of e) MAX_ARGS))
          (recorded_console e)
          (if negb (Ascii.eqb (deref (recorded_console e)) NUL)
           then value (setup_console (recorded_console e) (e_tty e))
           else no_console)
    | Some _ => ChildExits 127
    end
  else Supervising (setup_signals default_sigtable) (recorded_console e)
         {| child_pid := e_fork e; child_exited := 0; child_exit_status := 0 |}.
Proof. rewrite main_value; reflexivity. Qed.

Lemma main_console (k : K) (e : env) (dev : cstring) :
  console_of (value (main k e)) = Some dev -> dev = recorded_console e.
Proof.
  rewrite main_value_console.
  generalize (recorded_console e); intros rc.
  repeat match goal with
         | |- context [if ?c then _ else _] => destruct c
         | |- context [match e_execv e with _ => _ end] => destruct (e_execv e)
         end; simpl; intros E; try discriminate; injection E as <-; reflexivity.
Qed.

Lemma main_no_console (k : K) (e : env) (argv : list cstring) (dev : cstring)
    (con : console_state) :
  recorded_console e = [] ->
  value (main k e) = ChildExecs argv dev con -> con = no_console.
Proof.
  intros Hr; rewrite main_value_console, Hr.
  change (negb (Ascii.eqb (deref []) NUL)) with false; cbv iota.
  repeat match goal with
         | |- context [if ?c then _ else _] => destruct c
         | |- context [match e_execv e with _ => _ end] => destruct (e_execv e)
         end; intros E; try discriminate; injection E as _ _ <-; reflexivity.
Qed.
End ConsoleFacts.

(** C6.  Console extraction.  A console value runs to the next space, comma
    or newline, or to the end, and is stored behind the prefix /dev/ when it
    is not empty and fits.  When the first [console=] of the command line is
    followed by [ttyS0,115200], [read_console] returns 0 and stores
    /dev/ttyS0 (for any buffer of more than 10 bytes, the 64 of main among
    them), and that is the device main records.  When [read_console] fails,
    main records the empty device, the child attaches no console, and main
    returns only for the fatal failures, which do not include this one. *)
Theorem console_extraction {K : Type} `{Kernel K} (k : K) (e : env) :
  (forall data pre v post bufsize,
      first_at CONSOLE_KEY (load_cmdline data) pre (v ++ post) ->
      v <> [] -> ~ In SPACE v -> ~ In COMMA v -> ~ In NEWLINE v ->
      ends_console post -> (N.of_nat (length v) + 5 < bufsize)%N ->
      read_console (ReadOk data) bufsize = (0, Some (cs "/dev/" ++ v))) /\
  (forall data pre post bufsize,
      (10 < bufsize)%N ->
      first_at CONSOLE_KEY (load_cmdline data) pre (cs "ttyS0,115200" ++ post) ->
      read_console (ReadOk data) bufsize = (0, Some (cs "/dev/ttyS0")) /\
      (e_console_io e = ReadOk data ->
       forall dev, console_of (value (main k e)) = Some dev ->
                   dev = cs "/dev/ttyS0")) /\
  (fst (read_console (e_console_io e) MAX_CONSOLE_LEN) <> 0 ->
   (forall dev, console_of (value (main k e)) = Some dev -> dev = []) /\
   (forall argv dev con, value (main k e) = ChildExecs argv dev con ->
                         con = no_console) /\
   (value (main k e) = Returned 1 <-> prefork_failure k e) /\
   (~ prefork_failure k e -> e_fork e > 0 ->
    exists tbl st, value (main k e) = Supervising tbl [] st)).
Proof.
  split; [exact read_console_value | split].
  - intros data pre post bufsize Hb Hf.
    split; [apply (read_console_ttyS0 data pre post bufsize Hb Hf)|].
    intros Eio dev Hdev; apply main_console in Hdev; subst dev.
    unfold recorded_console; rewrite Eio.
    rewrite (read_console_ttyS0 data pre post MAX_CONSOLE_LEN); [reflexivity | | exact Hf].
    unfold MAX_CONSOLE_LEN; lia.
  - intros Hfail.
    assert (Hr : recorded_console e = []).
    { unfold recorded_console; cbv zeta.
      destruct (fst (read_console (e_console_io e) MAX_CONSOLE_LEN) =? 0) eqn:E;
        [apply Z.eqb_eq in E; contradiction | reflexivity]. }
    split; [|split; [|split]].
    + intros dev Hdev; apply main_console in Hdev; rewrite Hdev; exact Hr.
    + intros argv dev con; apply main_no_console; exact Hr.
    + split.
      * intros E; apply main_returns_iff; exists 1; exact E.
      * intros Hf; apply main_returns_iff in Hf as [status E].
        rewrite E; f_equal; apply (main_returns_one k e); exact E.
    + intros Hnf Hpos; rewrite (main_supervises k e Hnf Hpos), Hr.
      do 2 eexists; reflexivity.
Qed.

Lemma console_extraction_witness :
  read_console (ReadOk (cs "console=ttyS0,115200 kerf.entrypoint=/bin/sh"))
    MAX_CONSOLE_LEN = (0, Some (cs "/dev/ttyS0")) /\
  (forall dev,
      console_of (value (main ([] : script)
                           {| e_now := None;
                              e_entrypoint_io := ReadOk (cs "kerf.entrypoint=/bin/sh");
                              e_console_io := OpenFails ENOENT;
                              e_fork := 7; e_fork_errno := 0;
                              e_tty := {| tty_open := SysOk; tty_getattr := true |};
                              e_execv := None |})) = Some dev ->
      dev = []).
Proof.
  split.
  - apply (proj1 (proj2 (@console_extraction script scripted_kernel [] (good_env 7)))
             (cs "console=ttyS0,115200 kerf.entrypoint=/bin/sh") [] (cs " kerf.entrypoint=/bin/sh")
             MAX_CONSOLE_LEN).
    + reflexivity.
    + apply first_at_by_strstr; vm_compute; reflexivity.
  - apply (proj2 (proj2 (@console_extraction script scripted_kernel []
                    {| e_now := None;
                       e_entrypoint_io := ReadOk (cs "kerf.entrypoint=/bin/sh");
                       e_console_io := OpenFails ENOENT;
                       e_fork := 7; e_fork_errno := 0;
                       e_tty := {| tty_open := SysOk; tty_getattr := true |};
                       e_execv := None |}))).
    simpl; discriminate.
Defined.

(** ** Unterminated quotes *)

Lemma quote_not_blank (q : ascii) : is_quote q = true -> is_blank q = false.
Proof.
  unfold is_quote; intros Hq.
  apply orb_prop in Hq as [E | E]; apply Ascii.eqb_eq in E; subst q; reflexivity.
Qed.

Lemma find_end_in_quote (tail done : list ascii) (q : ascii) :
  ~ In q tail -> find_end true q done tail = (true, q, done ++ tail, []).
Proof.
  revert done; induction tail as [|c tail IH]; intros done Hn; simpl.
  - rewrite app_nil_r; reflexivity.
  - apply not_in_cons in Hn as [Hc Hn].
    rewrite (eqb_neq_false c q Hc), IH by exact Hn.
    rewrite <- app_assoc; reflexivity.
Qed.

Lemma parse_loop_token (slots : nat) (t : tokenizer) (done p : list ascii) :
  tk_p t <> [] -> skip_blanks (tk_done t) (tk_p t) = (done, p) -> p <> [] ->
  parse_loop (S slots) t
  = match find_end (tk_in_quote t) (tk_quote_char t) done p with
    | (q, qc, done', p') =>
        parse_loop slots {| tk_done := done'; tk_p := p';
                            tk_argv := tk_argv t ++ [length done];
                            tk_in_quote := q; tk_quote_char := qc |}
    end.
Proof.
  intros Hp Hs Hp'; simpl.
  destruct (tk_p t) as [|c0 p0] eqn:Ep; [congruence|].
  rewrite Hs; destruct p; [congruence | reflexivity].
Qed.

Lemma plain_no_nul (w : list ascii) : plain w -> ~ In NUL w.
Proof. intros Hw Hin; destruct (Hw NUL Hin) as (_ & _ & Hn); apply Hn; reflexivity. Qed.

Lemma plain_by_check (w : list ascii) :
  forallb (fun c => negb (is_blank c) && negb (is_quote c) && negb (Ascii.eqb c NUL)) w
  = true -> plain w.
Proof.
  intros Hall c Hc; rewrite forallb_forall in Hall; specialize (Hall c Hc).
  apply andb_prop in Hall as [H12 H3]; apply andb_prop in H12 as [H1 H2].
  apply negb_true_iff in H1, H2, H3; apply Ascii.eqb_neq in H3.
  repeat split; assumption.
Qed.

Lemma blanks_by_check (b : list ascii) : forallb is_blank b = true -> blanks b.
Proof. intros Hall c Hc; rewrite forallb_forall in Hall; exact (Hall c Hc). Qed.

Lemma skip_blanks_split (p : list ascii) :
  forall done, exists bl p', skip_blanks done p = (done ++ bl, p') /\ p = bl ++ p'.
Proof.
  induction p as [|c p IH]; intros done.
  - exists [], []; simpl; rewrite app_nil_r; split; reflexivity.
  - simpl; destruct (is_blank c).
    + destruct (IH (done ++ [c])) as (bl & p' & E & ->).
      exists (c :: bl), p'; rewrite <- app_assoc in E; split; [exact E | reflexivity].
    + exists [], (c :: p); rewrite app_nil_r; split; reflexivity.
Qed.

Lemma quote_after_app (a b : cstring) :
  forall m, quote_after m (a ++ b) = quote_after (quote_after m a) b.
Proof.
  induction a as [|c a IH]; intros m; [reflexivity|].
  destruct m as [q'|]; simpl.
  - destruct (Ascii.eqb c q'); apply IH.
  - destruct (is_quote c); apply IH.
Qed.

Lemma quote_after_blanks (bl : cstring) :
  blanks bl -> quote_after None bl = None.
Proof.
  induction bl as [|c bl IH]; intros Hb; [reflexivity|]; simpl.
  assert (Hq : is_quote c = false).
  { destruct (is_quote c) eqn:E; [|reflexivity].
    apply quote_not_blank in E; rewrite (Hb c (or_introl eq_refl)) in E; discriminate. }
  rewrite Hq; apply IH; intros c' Hc'; apply Hb; right; exact Hc'.
Qed.

Lemma strip_blanks (bl rest : cstring) :
  blanks bl -> strip None (bl ++ rest) = bl ++ strip None rest.
Proof.
  induction bl as [|c bl IH]; intros Hb; [reflexivity|]; simpl.
  assert (Hq : is_quote c = false).
  { destruct (is_quote c) eqn:E; [|reflexivity].
    apply quote_not_blank in E; rewrite (Hb c (or_introl eq_refl)) in E; discriminate. }
  rewrite Hq, IH; [reflexivity|].
  intros c' Hc'; apply Hb; right; exact Hc'.
Qed.

Lemma strip_length (s : cstring) :
  forall m, (length (strip m s) <= length s)%nat.
Proof.
  induction s as [|c s IH]; intros m; simpl; [lia|].
  destruct m as [q'|].
  - destruct (Ascii.eqb c q'); simpl; [specialize (IH None) | specialize (IH (Some q'))]; lia.
  - destruct (is_quote c); simpl; [specialize (IH (Some c)) | specialize (IH None)]; lia.
Qed.

Lemma strip_no_quotes (s : cstring) :
  (forall c, In c s -> is_quote c = false) -> strip None s = s.
Proof.
  induction s as [|c s IH]; intros Hq; [reflexivity|]; simpl.
  rewrite (Hq c (or_introl eq_refl)), IH; [reflexivity|].
  intros c' Hc'; apply Hq; right; exact Hc'.
Qed.

Lemma strip_no_nul (s : cstring) :
  forall m, ~ In NUL s -> ~ In NUL (strip m s).
Proof.
  induction s as [|c s IH]; intros m Hn; simpl; [intros []|].
  apply not_in_cons in Hn as [Hc Hn].
  destruct m as [q'|].
  - destruct (Ascii.eqb c q'); [apply IH; exact Hn|].
    intros [E | Hi]; [exact (Hc E) | exact (IH _ Hn Hi)].
  - destruct (is_quote c); [apply IH; exact Hn|].
    intros [E | Hi]; [exact (Hc E) | exact (IH _ Hn Hi)].
Qed.

(** The inner loop on a text that ends outside a quotation and is followed
    by a quote that is never closed: either the word ends at a blank of the
    text, or it runs to the end of the string. *)
Lemma find_end_open (tail : cstring) (q : ascii) (pre : cstring) :
  is_quote q = true -> ~ In q tail ->
  forall (q0 : bool) (qc : ascii) (done : list ascii),
    (q0 = true -> is_quote qc = true) ->
    quote_after (mode q0 qc) pre = None ->
    (exists u c pre' qc',
        pre = u ++ c :: pre' /\ is_blank c = true /\
        quote_after None pre' = None /\
        strip (mode q0 qc) pre = strip (mode q0 qc) u ++ c :: strip None pre' /\
        find_end q0 qc done (pre ++ q :: tail)
        = (false, qc', done ++ strip (mode q0 qc) u ++ [NUL], pre' ++ q :: tail)) \/
    find_end q0 qc done (pre ++ q :: tail)
    = (true, q, done ++ strip (mode q0 qc) pre ++ tail, []).
Proof.
  intros Hq Hn.
  induction pre as [|c pre IH]; intros q0 qc done Hqc Hbal.
  - right; destruct q0; [discriminate|]; simpl.
    rewrite Hq; apply find_end_in_quote; exact Hn.
  - destruct q0; simpl in Hbal |- *.
    + destruct (Ascii.eqb c qc) eqn:E.
      * destruct (IH false qc done ltac:(discriminate) Hbal)
          as [(u & b & pre' & qc' & Ep & Hb & Hbal' & Es & Ef) | Ef].
        -- left; exists (c :: u), b, pre', qc'; simpl; rewrite E.
           repeat split; try assumption; rewrite Ep; reflexivity.
        -- right; exact Ef.
      * destruct (IH true qc (done ++ [c]) Hqc Hbal)
          as [(u & b & pre' & qc' & Ep & Hb & Hbal' & Es & Ef) | Ef].
        -- left; exists (c :: u), b, pre', qc'; simpl; rewrite E.
           rewrite <- app_assoc in Ef; simpl in Es.
           repeat split; try assumption; [rewrite Ep; reflexivity|].
           simpl; rewrite Es; reflexivity.
        -- right; rewrite <- app_assoc in Ef; exact Ef.
    + destruct (is_quote c) eqn:E.
      * destruct (IH true c done (fun _ => E) Hbal)
          as [(u & b & pre' & qc' & Ep & Hb & Hbal' & Es & Ef) | Ef].
        -- left; exists (c :: u), b, pre', qc'; simpl; rewrite E.
           repeat split; try assumption; rewrite Ep; reflexivity.
        -- right; exact Ef.
      * destruct (is_blank c) eqn:Eb.
        -- left; exists [], c, pre, qc; simpl.
           repeat split; try assumption; rewrite app_nil_r; reflexivity.
        -- destruct (IH false qc (done ++ [c]) ltac:(discriminate) Hbal)
             as [(u & b & pre' & qc' & Ep & Hb & Hbal' & Es & Ef) | Ef].
           ++ left; exists (c :: u), b, pre', qc'; simpl; rewrite E.
              rewrite <- app_assoc in Ef; simpl in Es.
              repeat split; try assumption; [rewrite Ep; reflexivity|].
              simpl; rewrite Es; reflexivity.
           ++ right; rewrite <- app_assoc in Ef; exact Ef.
Qed.

Lemma spec_tokens_unclosed (tail : cstring) (q : ascii) :
  ~ In q tail ->
  forall cur, spec_tokens (Some q) (Some cur) tail = [cur ++ tail].
Proof.
  induction tail as [|c tail IH]; intros Hn cur; simpl.
  - rewrite app_nil_r; reflexivity.
  - apply not_in_cons in Hn as [Hc Hn].
    rewrite (eqb_neq_false c q Hc); simpl.
    rewrite (IH Hn), <- app_assoc; reflexivity.
Qed.

(** The tokens of a text that ends outside a quotation, apart from the word
    that is still open at its end: what follows the text is read as the
    continuation of that word. *)
Lemma spec_tokens_balanced (pre : cstring) :
  forall (m : option ascii) (cur0 : option cstring),
    (forall q', m = Some q' -> is_quote q' = true /\ cur0 <> None) ->
    quote_after m pre = None ->
    exists front cur,
      (forall rest, spec_tokens m cur0 (pre ++ rest) = front ++ spec_tokens None cur rest) /\
      (cur = None <->
       match pre with
       | [] => cur0 = None
       | _ :: _ => is_blank (last pre NUL) = true
       end).
Proof.
  induction pre as [|c pre IH]; intros m cur0 Hm Hbal.
  - simpl in Hbal; subst m.
    exists [], cur0; split; [reflexivity | tauto].
  - assert (Hlast : pre <> [] -> last (c :: pre) NUL = last pre NUL).
    { destruct pre; [congruence | reflexivity]. }
    destruct m as [q'|]; simpl in Hbal.
    + destruct (Hm q' eq_refl) as [Hq' Hcur0].
      destruct (Ascii.eqb c q') eqn:E.
      * destruct (IH None cur0 ltac:(discriminate) Hbal) as (front & cur & Hs & Hc).
        exists front, cur; split.
        { intros rest; simpl; rewrite E; apply Hs. }
        destruct pre as [|c' pre'].
        -- apply Ascii.eqb_eq in E; subst c; simpl.
           rewrite (quote_not_blank q' Hq'); rewrite Hc.
           split; [intros H0; contradiction | discriminate].
        -- rewrite Hlast by discriminate; exact Hc.
      * assert (Hne : pre <> []) by (intros ->; discriminate).
        destruct (IH (Some q') (Some (cur_text cur0 ++ [c]))
                    ltac:(intros q0 E0; injection E0 as <-; split;
                          [exact Hq' | discriminate]) Hbal)
          as (front & cur & Hs & Hc).
        exists front, cur; split.
        { intros rest; simpl; rewrite E; apply Hs. }
        rewrite Hlast by exact Hne.
        destruct pre; [congruence | exact Hc].
    + destruct (is_quote c) eqn:E.
      * assert (Hne : pre <> []) by (intros ->; discriminate).
        destruct (IH (Some c) (Some (cur_text cur0))
                    ltac:(intros q0 E0; injection E0 as <-; split;
                          [exact E | discriminate]) Hbal)
          as (front & cur & Hs & Hc).
        exists front, cur; split.
        { intros rest; simpl; rewrite E; apply Hs. }
        rewrite Hlast by exact Hne.
        destruct pre; [congruence | exact Hc].
      * destruct (is_blank c) eqn:Eb.
        -- destruct (IH None None ltac:(discriminate) Hbal) as (front & cur & Hs & Hc).
           exists (emit cur0 ++ front), cur; split.
           { intros rest; simpl; rewrite E, Eb, Hs, app_assoc; reflexivity. }
           destruct pre as [|c' pre'].
           ++ simpl; rewrite Hc; tauto.
           ++ rewrite Hlast by discriminate; exact Hc.
        -- destruct (IH None (Some (cur_text cur0 ++ [c])) ltac:(discriminate) Hbal)
             as (front & cur & Hs & Hc).
           exists front, cur; split.
           { intros rest; simpl; rewrite E, Eb; apply Hs. }
           destruct pre as [|c' pre'].
           ++ simpl; rewrite Eb, Hc.
              split; [discriminate | discriminate].
           ++ rewrite Hlast by discriminate; exact Hc.
Qed.

(** What the specification's tokenizer yields when a quote is never
    closed. *)
Lemma spec_tokens_open (pre tail : cstring) (q : ascii) :
  quote_after None pre = None -> is_quote q = true -> ~ In q tail ->
  spec_tokens None None (pre ++ q :: tail)
  = front_tokens pre ++ [open_text pre ++ tail].
Proof.
  intros Hbal Hq Hn.
  destruct (spec_tokens_balanced pre None None ltac:(discriminate) Hbal)
    as (front & cur & Hs & Hc).
  rewrite (Hs (q :: tail)).
  pose proof (Hs []) as H0; rewrite app_nil_r in H0; simpl in H0.
  simpl spec_tokens at 1; rewrite Hq, (spec_tokens_unclosed tail q Hn).
  unfold front_tokens, open_text, word_open; rewrite H0.
  destruct cur as [w|].
  - assert (Hopen : match pre with [] => false | _ :: _ => negb (is_blank (last pre NUL)) end
                    = true).
    { destruct pre as [|c pre']; [exfalso; apply proj2 in Hc; discriminate (Hc eq_refl)|].
      destruct (is_blank (last (c :: pre') NUL)) eqn:E; [|reflexivity].
      apply proj2 in Hc; discriminate (Hc eq_refl). }
    rewrite Hopen; simpl emit.
    rewrite removelast_last, last_last; reflexivity.
  - assert (Hopen : match pre with [] => false | _ :: _ => negb (is_blank (last pre NUL)) end
                    = false).
    { destruct pre as [|c pre']; [reflexivity|].
      apply proj1 in Hc; rewrite (Hc eq_refl); reflexivity. }
    rewrite Hopen; simpl emit; rewrite app_nil_r; reflexivity.
Qed.

Lemma blank_prefix_split (bl p' pre rest : cstring) (q : ascii) :
  blanks bl -> is_blank q = false -> bl ++ p' = pre ++ q :: rest ->
  (p' = [] \/ is_blank (deref p') = false) ->
  exists pre1, pre = bl ++ pre1 /\ p' = pre1 ++ q :: rest.
Proof.
  revert pre; induction bl as [|c bl IH]; intros pre Hb Hq E Hp.
  - exists pre; split; [reflexivity | exact E].
  - destruct pre as [|c' pre'].
    + simpl in E; injection E as -> _.
      rewrite (Hb q (or_introl eq_refl)) in Hq; discriminate.
    + simpl in E; injection E as <- E.
      destruct (IH pre' ltac:(intros x Hx; apply Hb; right; exact Hx) Hq E Hp)
        as (pre1 & -> & ->).
      exists pre1; split; reflexivity.
Qed.

(** The outer loop on a text that ends outside a quotation and is followed
    by a quote that is never closed, when there is room for every token:
    the scan reaches the end of the string inside the quotation; the last
    entry stored points at the word the quote is part of, which runs to the
    end of the buffer, and the buffer holds the text minus its quote
    characters, then what followed the quote. *)
Lemma parse_loop_open (tail : cstring) (q : ascii) (slots : nat) :
  is_quote q = true -> ~ In q tail -> ~ In NUL tail ->
  forall (pre : cstring) (t : tokenizer),
    tk_p t = pre ++ q :: tail -> tk_in_quote t = false -> ~ In NUL pre ->
    quote_after None pre = None ->
    (length (spec_tokens None None (pre ++ q :: tail)) <= slots)%nat ->
    exists b offs w,
      parse_loop slots t
      = {| tk_done := tk_done t ++ b ++ w ++ tail; tk_p := [];
           tk_argv := tk_argv t ++ offs ++ [length (tk_done t ++ b)];
           tk_in_quote := true; tk_quote_char := q |} /\
      length (b ++ w) = length (strip None pre) /\ ~ In NUL w.
Proof.
  intros Hq Hn Hnt.
  assert (Hqb : is_blank q = false) by (apply quote_not_blank; exact Hq).
  induction slots as [|slots IH]; intros pre t Ep Hm Hnp Hbal Hroom.
  - exfalso.
    rewrite (spec_tokens_open pre tail q Hbal Hq Hn), length_app in Hroom.
    simpl in Hroom; lia.
  - assert (Hnul : ~ In NUL (tk_p t)).
    { rewrite Ep; intros Hi; apply in_app_or in Hi as [Hi | [Hi | Hi]];
        [exact (Hnp Hi) | subst q; discriminate | exact (Hnt Hi)]. }
    destruct (skip_blanks_split (tk_p t) (tk_done t)) as (bl & p' & Es & Esplit).
    destruct (skip_blanks_spec (tk_p t) (tk_done t) Hnul)
      as (bl0 & p0 & Es0 & Hn0 & Et0 & Hb0).
    rewrite Es in Es0; injection Es0 as Ebl <-.
    apply app_inv_head in Ebl; subst bl0.
    assert (Hbl : blanks bl).
    { clear - Es. revert Es; generalize (tk_done t); generalize (tk_p t).
      intros p; revert bl p'; induction p as [|c p IHp]; intros bl p' done E.
      - simpl in E; injection E as E _.
        rewrite <- (app_nil_r done) in E at 1; apply app_inv_head in E; subst bl.
        intros x [].
      - simpl in E; destruct (is_blank c) eqn:Ec.
        + destruct (skip_blanks_split p (done ++ [c])) as (bl1 & p1 & E1 & _).
          pose proof (IHp bl1 p1 (done ++ [c]) E1) as Hb1.
          rewrite E1 in E; injection E as E _.
          rewrite <- app_assoc in E; apply app_inv_head in E; subst bl.
          intros x [<- | Hx]; [exact Ec | exact (Hb1 x Hx)].
        + injection E as E _.
          rewrite <- (app_nil_r done) in E at 1; apply app_inv_head in E; subst bl.
          intros x []. }
    rewrite Ep in Esplit; symmetry in Esplit.
    destruct (blank_prefix_split bl p' pre tail q Hbl Hqb Esplit Hb0)
      as (pre1 & -> & ->).
    assert (Hbal1 : quote_after None pre1 = None).
    { rewrite quote_after_app, (quote_after_blanks bl Hbl) in Hbal; exact Hbal. }
    assert (Hnp1 : ~ In NUL pre1).
    { intros Hi; apply Hnp; apply in_or_app; right; exact Hi. }
    rewrite (parse_loop_token slots t (tk_done t ++ bl) (pre1 ++ q :: tail));
      [ | rewrite Ep; intros E0; apply (f_equal (@length ascii)) in E0;
          rewrite !length_app in E0; simpl in E0; lia
        | exact Es
        | intros E0; apply (f_equal (@length ascii)) in E0;
          rewrite length_app in E0; simpl in E0; lia ].
    rewrite Hm.
    rewrite strip_blanks by exact Hbl.
    rewrite Ep in Et0.
    destruct (find_end_open tail q pre1 Hq Hn false (tk_quote_char t) (tk_done t ++ bl)
                ltac:(discriminate) Hbal1)
      as [(u & c & pre' & qc' & Epre & Hc & Hbal' & Estrip & Ef) | Ef];
      cbn [mode] in *.
    + rewrite Ef; cbv beta iota.
      assert (Hnp' : ~ In NUL pre').
      { intros Hi; apply Hnp1; rewrite Epre; apply in_or_app; right; right; exact Hi. }
      assert (Hroom' : (length (spec_tokens None None (pre' ++ q :: tail)) <= slots)%nat).
      { destruct Hb0 as [Hb0 | Hb0]; [destruct pre1; discriminate|].
        destruct (find_end_spec (pre1 ++ q :: tail) false (tk_quote_char t)
                    (tk_done t ++ bl) [] Hn0)
          as (tok & q' & qc'' & p'' & _ & _ & [(Ef' & _ & Est) | (Ef' & Hp'' & _)]).
        - rewrite Ef in Ef'; injection Ef' as _ _ _ <-.
          assert (Eh : spec_tokens None None (pre1 ++ q :: tail)
                       = spec_tokens None (Some []) (pre1 ++ q :: tail)).
          { destruct (pre1 ++ q :: tail) as [|c0 s0] eqn:E0; [destruct pre1; discriminate|].
            apply spec_tokens_begin; exact Hb0. }
          cbn [mode] in Est; rewrite Et0, Eh, Est in Hroom; simpl in Hroom; lia.
        - rewrite Ef in Ef'; injection Ef' as _ _ _ E0.
          rewrite Hp'' in E0; destruct pre'; discriminate. }
      destruct (IH pre' {| tk_done := (tk_done t ++ bl) ++ strip None u ++ [NUL];
                           tk_p := pre' ++ q :: tail;
                           tk_argv := tk_argv t ++ [length (tk_done t ++ bl)];
                           tk_in_quote := false; tk_quote_char := qc' |}
                  eq_refl eq_refl Hnp' Hbal' Hroom')
        as (b & offs & w & Eloop & Hlen & Hw).
      cbn [tk_done tk_argv] in Eloop.
      exists (bl ++ strip None u ++ [NUL] ++ b), (length (tk_done t ++ bl) :: offs), w.
      split; [|split; [|exact Hw]].
      * rewrite Eloop; f_equal.
        -- rewrite <- !app_assoc; reflexivity.
        -- rewrite <- !app_assoc; reflexivity.
      * rewrite Estrip; repeat rewrite length_app in *; simpl in *; lia.
    + rewrite Ef; cbv beta iota; rewrite parse_loop_done by reflexivity.
      exists bl, [], (strip None pre1).
      split; [|split].
      * rewrite <- !app_assoc; reflexivity.
      * reflexivity.
      * apply strip_no_nul; exact Hnp1.
Qed.

(** Every string that ends inside a quotation has the form the theorem
    below is about. *)
Lemma unterminated_form (s : cstring) (q : ascii) :
  forall m,
    (forall q', m = Some q' -> is_quote q' = true) ->
    quote_after m s = Some q ->
    (m = Some q /\ ~ In q s) \/
    (exists pre tail,
        s = pre ++ q :: tail /\ quote_after m pre = None /\
        is_quote q = true /\ ~ In q tail).
Proof.
  induction s as [|c s IH]; intros m Hm Hend.
  - left; simpl in Hend; split; [exact Hend | intros []].
  - destruct m as [q'|]; simpl in Hend.
    + destruct (Ascii.eqb c q') eqn:E.
      * destruct (IH None ltac:(discriminate) Hend)
          as [[E0 _] | (pre & tail & -> & Hb & Hq & Hn)]; [discriminate|].
        right; exists (c :: pre), tail; simpl; rewrite E.
        repeat split; assumption.
      * destruct (IH (Some q') Hm Hend)
          as [[E0 Hn] | (pre & tail & -> & Hb & Hq & Hn)].
        -- left; split; [exact E0|].
           injection E0 as <-.
           intros [Ec | Hi]; [|exact (Hn Hi)].
           subst c; rewrite Ascii.eqb_refl in E; discriminate.
        -- right; exists (c :: pre), tail; simpl; rewrite E.
           repeat split; assumption.
    + destruct (is_quote c) eqn:E.
      * destruct (IH (Some c) ltac:(intros q0 E0; injection E0 as <-; exact E) Hend)
          as [[E0 Hn] | (pre & tail & -> & Hb & Hq & Hn)].
        -- injection E0 as ->.
           right; exists [], s; repeat split; assumption.
        -- right; exists (c :: pre), tail; simpl; rewrite E.
           repeat split; assumption.
      * destruct (IH None ltac:(discriminate) Hend)
          as [[E0 _] | (pre & tail & -> & Hb & Hq & Hn)]; [discriminate|].
        right; exists (c :: pre), tail; simpl; rewrite E.
        repeat split; assumption.
Qed.

(** What [parse_args] does with a quote that is never closed, given the
    text before it and the text after it. *)
Lemma open_quote_parse (pre tail : cstring) (q : ascii) (max_args : Z) :
  ~ In NUL pre -> ~ In NUL tail ->
  quote_after None pre = None -> is_quote q = true -> ~ In q tail ->
  Z.of_nat (length (front_tokens pre)) + 1 <= max_args - 1 ->
  let s := pre ++ q :: tail in
  let r := parse_args s max_args in
  tokens_of r = front_tokens pre ++ [open_text pre ++ tail] /\
  tokens_of r = tokenize s max_args /\
  pa_argc r = Z.of_nat (length (front_tokens pre)) + 1 /\
  (exists start,
      nth_error (pa_argv r) (length (front_tokens pre)) = Some (Some start) /\
      (start + length (open_text pre) = length (strip None pre))%nat /\
      skipn start (pa_buf r) = open_text pre ++ tail) /\
  nth_error (pa_argv r) (S (length (front_tokens pre))) = Some None /\
  (exists b, pa_buf r = b ++ tail /\ length b = length (strip None pre)) /\
  (length (pa_buf r) < length s)%nat /\
  ((forall c, In c pre -> is_quote c = false) -> S (length (pa_buf r)) = length s) /\
  (forall data before rest bufsize,
      first_at ENTRYPOINT_KEY (load_cmdline data) before (DQUOTE :: rest) ->
      ~ In DQUOTE rest ->
      read_entrypoint (ReadOk data) bufsize
      = ((-1, None), [Line (cs "unterminated quote in kerf.entrypoint")])).
Proof.
  intros Hnp Hnt Hbal Hq Hn Hmax s r.
  assert (Hns : ~ In NUL s).
  { unfold s; intros Hi; apply in_app_or in Hi as [Hi | [Hi | Hi]];
      [exact (Hnp Hi) | subst q; discriminate | exact (Hnt Hi)]. }
  pose proof (spec_tokens_open pre tail q Hbal Hq Hn) as Hspec; fold s in Hspec.
  assert (Htok : tokenize s max_args = front_tokens pre ++ [open_text pre ++ tail]).
  { unfold tokenize; rewrite Hspec; apply firstn_all2.
    rewrite length_app; simpl; lia. }
  destruct (parse_args_tokens s max_args Hns) as (Ht & Hc & _).
  fold r in Ht, Hc.
  destruct (parse_loop_open tail q (Z.to_nat (max_args - 1)) Hq Hn Hnt pre
              {| tk_done := []; tk_p := s; tk_argv := [];
                 tk_in_quote := false; tk_quote_char := NUL |}
              eq_refl eq_refl Hnp Hbal)
    as (b & offs & w & Eloop & Hlen & Hw).
  { fold s; rewrite Hspec, length_app; simpl; lia. }
  cbn [tk_done tk_argv] in Eloop; simpl app in Eloop.
  assert (Hr : r = {| pa_argc := Z.of_nat (length (offs ++ [length b]));
                      pa_argv := map Some (offs ++ [length b]) ++ [None];
                      pa_buf := (b ++ w ++ tail) ++ [] |}).
  { unfold r, parse_args; rewrite Eloop; reflexivity. }
  assert (Hwt : ~ In NUL (w ++ tail)).
  { intros Hi; apply in_app_or in Hi as [Hi | Hi]; [exact (Hw Hi) | exact (Hnt Hi)]. }
  assert (Hlast : strings_at (b ++ w ++ tail) offs = front_tokens pre /\
                  w = open_text pre).
  { rewrite Htok in Ht; rewrite Hr in Ht; unfold tokens_of in Ht.
    cbn [pa_buf pa_argv] in Ht; rewrite app_nil_r, argv_strings_sentinel in Ht.
    unfold strings_at in Ht; rewrite map_app in Ht; simpl map in Ht.
    rewrite skipn_prefix, (c_str_clean _ Hwt) in Ht.
    apply app_inj_tail in Ht as [Hf Hl]; split; [exact Hf|].
    apply app_inv_tail in Hl; exact Hl. }
  destruct Hlast as [Hfront Ew].
  assert (Hoffs : length offs = length (front_tokens pre)).
  { rewrite <- Hfront; unfold strings_at; rewrite length_map; reflexivity. }
  split; [rewrite Ht; exact Htok|].
  split; [exact Ht|].
  split; [rewrite Hc, Htok, length_app; simpl; lia|].
  rewrite Hr; cbn [pa_argv pa_buf]; rewrite app_nil_r.
  split; [|split; [|split; [|split; [|split]]]].
  - exists (length b); split; [|split].
    + rewrite map_app, <- app_assoc, nth_error_app2; rewrite length_map; [|lia].
      rewrite Hoffs, Nat.sub_diag; reflexivity.
    + rewrite <- Ew, <- Hlen, length_app; reflexivity.
    + rewrite skipn_prefix, Ew; reflexivity.
  - rewrite nth_error_app2; rewrite length_map, length_app; simpl length; [|lia].
    replace (S (length (front_tokens pre)) - (length offs + 1))%nat with 0%nat by lia.
    reflexivity.
  - exists (b ++ w); split; [rewrite <- app_assoc; reflexivity | exact Hlen].
  - pose proof (strip_length pre None) as Hs.
    unfold s; rewrite !length_app in *; simpl; lia.
  - intros Hnq; rewrite (strip_no_quotes pre Hnq) in Hlen.
    unfold s; rewrite !length_app in *; simpl; lia.
  - intros data before rest bufsize Hf Hd.
    apply (entrypoint_spec_sound data bufsize (inl Malformed)).
    apply (ES_unterminated _ _ before rest Hf Hd).
Qed.

(** C10.  An unterminated quote is not an error for [parse_args].  Take
    any input without NUL that ends inside a quotation, whatever comes
    before the quote that opens it (closed quotations included).  The input
    is a text that ends outside a quotation, the quote character, and a rest
    in which that character does not occur.  Whatever the size of the
    argument vector, [parse_args] returns the usual count: the tokens are
    those of the specification's tokenizer, cut after [max_args - 1], and
    the value returned is their number.  Uncut, they are the complete tokens
    of the text before the quote, followed by one token that consists of the
    word the quote is part of (what was read of it before the quote) and
    everything after the quote up to the end of the string, blanks
    included.  When the argument vector has room for them all, the entry
    after the last is NULL and the quote character is gone from the buffer:
    the buffer holds the text before the quote minus its quote characters,
    then what followed the quote unchanged, so that it is shorter than the
    input (by one byte if no quotation was closed before), and the last
    token is read where its word began and runs to the end of the buffer.
    [read_entrypoint], in contrast, fails when the value opens with a double
    quote that is never closed. *)
Theorem unterminated_quote (s : cstring) (q : ascii) (max_args : Z) :
  ~ In NUL s -> quote_after None s = Some q ->
  exists pre tail,
    s = pre ++ q :: tail /\ quote_after None pre = None /\
    is_quote q = true /\ ~ In q tail /\
    tokens_of (parse_args s max_args) = tokenize s max_args /\
    pa_argc (parse_args s max_args) = Z.of_nat (length (tokenize s max_args)) /\
    tokenize s max_args
    = firstn (Z.to_nat (max_args - 1)) (front_tokens pre ++ [open_text pre ++ tail]) /\
    (Z.of_nat (length (front_tokens pre)) + 1 <= max_args - 1 ->
     tokens_of (parse_args s max_args) = front_tokens pre ++ [open_text pre ++ tail] /\
     pa_argc (parse_args s max_args) = Z.of_nat (length (front_tokens pre)) + 1 /\
     (exists start,
         nth_error (pa_argv (parse_args s max_args)) (length (front_tokens pre))
         = Some (Some start) /\
         (start + length (open_text pre) = length (strip None pre))%nat /\
         skipn start (pa_buf (parse_args s max_args)) = open_text pre ++ tail) /\
     nth_error (pa_argv (parse_args s max_args)) (S (length (front_tokens pre)))
     = Some None /\
     (exists b, pa_buf (parse_args s max_args) = b ++ tail /\
                length b = length (strip None pre)) /\
     (length (pa_buf (parse_args s max_args)) < length s)%nat /\
     ((forall c, In c pre -> is_quote c = false) ->
      S (length (pa_buf (parse_args s max_args))) = length s)) /\
    (forall data before rest bufsize,
        first_at ENTRYPOINT_KEY (load_cmdline data) before (DQUOTE :: rest) ->
        ~ In DQUOTE rest ->
        read_entrypoint (ReadOk data) bufsize
        = ((-1, None), [Line (cs "unterminated quote in kerf.entrypoint")])).
Proof.
  intros Hns Hend.
  destruct (unterminated_form s q None ltac:(discriminate) Hend)
    as [[E _] | (pre & tail & Es & Hbal & Hq & Hn)]; [discriminate|].
  exists pre, tail.
  split; [exact Es | split; [exact Hbal | split; [exact Hq | split; [exact Hn|]]]].
  assert (Hnp : ~ In NUL pre).
  { intros Hi; apply Hns; rewrite Es; apply in_or_app; left; exact Hi. }
  assert (Hnt : ~ In NUL tail).
  { intros Hi; apply Hns; rewrite Es; apply in_or_app; right; right; exact Hi. }
  destruct (parse_args_tokens s max_args Hns) as (Ht & Hc & _).
  split; [exact Ht | split; [exact Hc|]].
  split.
  { unfold tokenize; rewrite Es, (spec_tokens_open pre tail q Hbal Hq Hn); reflexivity. }
  split.
  - intros Hroom; rewrite Es.
    destruct (open_quote_parse pre tail q max_args Hnp Hnt Hbal Hq Hn Hroom)
      as (H1 & _ & H3 & H4 & H5 & H6 & H7 & H8 & _).
    repeat split; assumption.
  - intros data before rest bufsize Hf Hd.
    apply (entrypoint_spec_sound data bufsize (inl Malformed)).
    apply (ES_unterminated _ _ before rest Hf Hd).
Qed.

Lemma unterminated_quote_witness :
  exists pre tail,
    (cs "sh -c  " ++ DQUOTE :: cs "a b" ++ DQUOTE :: cs "x" ++ SQUOTE :: cs " c  d")
    = pre ++ SQUOTE :: tail /\
    tokens_of (parse_args
                 (cs "sh -c  " ++ DQUOTE :: cs "a b" ++ DQUOTE :: cs "x"
                    ++ SQUOTE :: cs " c  d") MAX_ARGS)
    = tokenize (cs "sh -c  " ++ DQUOTE :: cs "a b" ++ DQUOTE :: cs "x"
                  ++ SQUOTE :: cs " c  d") MAX_ARGS /\
    tokens_of (parse_args
                 (cs "sh -c  " ++ DQUOTE :: cs "a b" ++ DQUOTE :: cs "x"
                    ++ SQUOTE :: cs " c  d") MAX_ARGS)
    = [cs "sh"; cs "-c"; cs "a bx c  d"].
Proof.
  destruct (unterminated_quote
              (cs "sh -c  " ++ DQUOTE :: cs "a b" ++ DQUOTE :: cs "x"
                 ++ SQUOTE :: cs " c  d") SQUOTE MAX_ARGS)
    as (pre & tail & Es & _ & _ & _ & Ht & _).
  - vm_compute; intuition discriminate.
  - reflexivity.
  - exists pre, tail; split; [exact Es | split; [exact Ht | reflexivity]].
Defined.

(** ** The log of main *)

Lemma logs_bind_clean {A B} (m : Logged A) (k : A -> Logged B) (l : log_line) :
  ~ In l (logs m) -> (forall a, ~ In l (logs (k a))) -> ~ In l (logs (bind m k)).
Proof.
  intros Hm Hk; rewrite logs_bind, in_app_iff.
  intros [Hin | Hin]; [exact (Hm Hin) | exact (Hk _ Hin)].
Qed.

Lemma ret_clean {A} (a : A) (l : log_line) : ~ In l (logs (ret a)).
Proof. unfold logs, ret; simpl; intros []. Qed.

Lemma log_msg_clean (a b : ascii) (s t : list ascii) :
  a <> b -> ~ In (Line (b :: t)) (logs (log_msg (a :: s))).
Proof. intros Hab [E | []]; injection E as E _; exact (Hab E). Qed.

Lemma log_error_clean (ctx msg : list ascii) (e : Z) :
  ~ In (Line msg) (logs (log_error ctx e)).
Proof. intros [E | []]; discriminate. Qed.

Lemma executing_msg_head (args : list cstring) :
  forall (off : Z) (c : ascii) (msg : list ascii),
  exists msg', executing_msg off (c :: msg) args = c :: msg'.
Proof.
  induction args as [|a args IH]; intros off c msg; cbn [executing_msg].
  - exists msg; reflexivity.
  - destruct (off <? 512 - 1); [apply (IH _ c) | exists msg; reflexivity].
Qed.

Lemma too_long_never_logged (io : cmdline_io) :
  ~ In too_long_line (logs (read_entrypoint io MAX_ENTRYPOINT_LEN)).
Proof.
  intros Hin; apply too_long_logged in Hin as (data & -> & Hs).
  apply too_long_bound in Hs.
  pose proof (load_cmdline_length data) as Hl.
  change (strlen ENTRYPOINT_KEY) with 16%nat in Hs.
  change (MAX_CMDLINE_LEN - 1)%nat with 4095%nat in Hl.
  change (N.to_nat MAX_ENTRYPOINT_LEN) with 4096%nat in Hs.
  lia.
Qed.

Section MainLog.
Context {K : Type} `{Kernel K}.

Lemma do_mount_logs (source target fstype : cstring) (flags : Z) (k : K) :
  ~ In too_long_line (logs (do_mount source target fstype flags k)).
Proof.
  unfold do_mount.
  destruct (sys_mount source target fstype flags k) as [[|e] k'];
    [apply ret_clean | destruct (negb (e =? EBUSY)); [|apply ret_clean]].
  apply logs_bind_clean; [apply log_error_clean | intros _; apply ret_clean].
Qed.

Lemma do_mkdir_logs (path : cstring) (mode : Z) (k : K) :
  ~ In too_long_line (logs (do_mkdir path mode k)).
Proof.
  unfold do_mkdir.
  destruct (sys_mkdir path mode k) as [[|e] k'];
    [apply ret_clean | destruct (negb (e =? EEXIST)); [|apply ret_clean]].
  apply logs_bind_clean; [apply log_error_clean | intros _; apply ret_clean].
Qed.

Lemma mount_filesystems_logs (k : K) :
  ~ In too_long_line (logs (mount_filesystems k)).
Proof.
  unfold mount_filesystems.
  repeat (apply logs_bind_clean;
          [apply do_mount_logs || apply do_mkdir_logs
          | let r := fresh "r" in
            intros r; destruct (fst r <? 0); [apply ret_clean|]]).
  apply ret_clean.
Qed.

Lemma main_logs (k : K) (e : env) : ~ In too_long_line (logs (main k e)).
Proof.
  unfold main; cbv zeta.
  apply logs_bind_clean.
  { unfold log_starting; destruct (e_now e);
      [apply log_msg_clean | apply log_msg_clean]; discriminate. }
  intros _; apply logs_bind_clean; [apply mount_filesystems_logs|].
  intros m; destruct (fst m <? 0).
  { apply logs_bind_clean; [apply log_msg_clean; discriminate | intros _; apply ret_clean]. }
  apply logs_bind_clean; [apply too_long_never_logged|].
  intros r; destruct (fst r <? 0).
  { apply logs_bind_clean; [apply log_msg_clean; discriminate | intros _; apply ret_clean]. }
  apply logs_bind_clean; [apply log_msg_clean; discriminate|].
  intros _; apply logs_bind_clean.
  { destruct (fst (read_console (e_console_io e) MAX_CONSOLE_LEN) =? 0); [|apply ret_clean].
    apply logs_bind_clean; [apply log_msg_clean; discriminate | intros _; apply ret_clean]. }
  intros dev; destruct (pa_argc _ =? 0).
  { apply logs_bind_clean; [apply log_msg_clean; discriminate | intros _; apply ret_clean]. }
  apply logs_bind_clean.
  { destruct (executing_msg_head (tokens_of (parse_args (stored [] (snd r)) MAX_ARGS))
                10 "e"%char (cs "xecuting:")) as [msg' E].
    change (cs "executing:") with ("e"%char :: cs "xecuting:"); rewrite E.
    apply log_msg_clean; discriminate. }
  intros _; simpl child_pid.
  destruct (e_fork e <? 0).
  { apply logs_bind_clean; [apply log_error_clean | intros _; apply ret_clean]. }
  destruct (e_fork e =? 0); [|apply ret_clean].
  apply logs_bind_clean.
  { destruct (negb (Ascii.eqb (deref dev) NUL)); [|apply ret_clean].
    unfold setup_console; destruct (tty_open (e_tty e)); [apply ret_clean|].
    apply logs_bind_clean; [apply log_error_clean | intros _; apply ret_clean]. }
  intros con; destruct (e_execv e); [|apply ret_clean].
  apply logs_bind_clean; [apply log_error_clean | intros _; apply ret_clean].
Qed.
End MainLog.

(** C9.  The branch that refuses a value as too long needs a buffer at least
    16 bytes (the marker) smaller than the 4095 bytes the command line can
    have.  With the 4096-byte buffer that main passes, the one call of
    [read_entrypoint] never takes it, and main never logs its message; with
    a small buffer the branch is taken. *)
Theorem entrypoint_never_too_long :
  (forall io bufsize,
      In too_long_line (logs (read_entrypoint io bufsize)) ->
      (bufsize + 16 <= 4095)%N) /\
  (forall io,
      ~ In too_long_line (logs (read_entrypoint io MAX_ENTRYPOINT_LEN)) /\
      read_entrypoint io MAX_ENTRYPOINT_LEN <> ep_result (inl TooLong)) /\
  (forall (K : Type) (H : Kernel K) (k : K) (e : env),
      ~ In too_long_line (logs (main k e))) /\
  read_entrypoint (ReadOk (cs "kerf.entrypoint=/bin/sh")) 7
  = ep_result (inl TooLong).
Proof.
  split; [|split; [|split]].
  - intros io bufsize Hin.
    apply too_long_logged in Hin as (data & -> & Hs).
    apply too_long_bound in Hs.
    pose proof (load_cmdline_length data) as Hl.
    change (strlen ENTRYPOINT_KEY) with 16%nat in Hs.
    change (MAX_CMDLINE_LEN - 1)%nat with 4095%nat in Hl.
    lia.
  - intros io; split; [apply too_long_never_logged|].
    intros E; apply (too_long_never_logged io).
    rewrite E; left; reflexivity.
  - intros K H k e; apply main_logs.
  - reflexivity.
Qed.

(** * Further properties of the code *)

(** ** Boot parameter reader: what a caller can rely on *)

Lemma c_str_no_nul (bytes : list ascii) : ~ In NUL (c_str bytes).
Proof.
  induction bytes as [|c bytes IH]; simpl; [intros []|].
  destruct (Ascii.eqb c NUL) eqn:E; [intros []|].
  apply Ascii.eqb_neq in E.
  intros [Hc | Hin]; [exact (E Hc) | exact (IH Hin)].
Qed.

Lemma no_nul_prefix (a b : list ascii) : ~ In NUL (a ++ b) -> ~ In NUL a /\ ~ In NUL b.
Proof.
  intros Hn; split; intros Hin; apply Hn, in_or_app; [left | right]; exact Hin.
Qed.

Lemma classify_value (v w : list ascii) (bufsize : N) :
  classify v bufsize = inr w ->
  w = v /\ v <> [] /\ (N.of_nat (length v) < bufsize)%N.
Proof.
  unfold classify.
  destruct (length v =? 0)%nat eqn:E0; [discriminate|].
  destruct (bufsize <=? N.of_nat (length v))%N eqn:E1; [discriminate|].
  intros E; injection E as <-.
  apply Nat.eqb_neq in E0; apply N.leb_gt in E1.
  repeat split; [intros ->; apply E0; reflexivity | exact E1].
Qed.

(** X1.  [read_entrypoint] returns 0 or -1 and nothing else.  When it
    returns 0 it has logged nothing and stored a value that is not empty,
    has no NUL, fits in the buffer with its terminator, is at most 4079
    characters long, and stands in the command line right behind the first
    marker (after the opening quote, if the value is quoted).  When it
    returns -1 it has stored nothing and logged exactly one line. *)
Theorem read_entrypoint_contract (io : cmdline_io) (bufsize : N) :
  (value (read_entrypoint io bufsize) = (-1, None) /\
   length (logs (read_entrypoint io bufsize)) = 1%nat) \/
  (exists v,
      read_entrypoint io bufsize = ((0, Some v), []) /\
      v <> [] /\ ~ In NUL v /\
      (N.of_nat (length v) < bufsize)%N /\ (length v <= 4079)%nat /\
      exists data pre post,
        io = ReadOk data /\
        first_at ENTRYPOINT_KEY (load_cmdline data) pre post /\
        (firstn (length v) post = v \/
         firstn (S (length v)) post = DQUOTE :: v)).
Proof.
  destruct io as [e | e | data]; [left; split; reflexivity .. |].
  destruct (entrypoint_spec_total (load_cmdline data) bufsize) as [o Ho].
  rewrite (entrypoint_spec_sound data bufsize o Ho).
  destruct o as [err | v]; [left; destruct err; split; reflexivity | right].
  exists v; split; [reflexivity|].
  pose proof (c_str_no_nul (firstn (MAX_CMDLINE_LEN - 1) data)) as Hnul.
  fold (load_cmdline data) in Hnul.
  pose proof (load_cmdline_length data) as Hlen.
  change (MAX_CMDLINE_LEN - 1)%nat with 4095%nat in Hlen.
  remember (inr v) as o eqn:Eo.
  destruct Ho as [Habs | pre rest Hf Hn | pre w post Hf Hn
                 | pre w post Hf Hq Hs Hn He]; try discriminate;
    apply classify_value in Eo as (-> & Hne & Hb);
    pose proof Hf as [Eh _]; rewrite Eh in Hnul, Hlen;
    apply no_nul_prefix in Hnul as [_ Hnul];
    apply no_nul_prefix in Hnul as [_ Hnul];
    repeat rewrite length_app in Hlen;
    change (length ENTRYPOINT_KEY) with 16%nat in Hlen.
  - simpl in Hlen; rewrite length_app in Hlen.
    assert (Hw : ~ In NUL w).
    { intros Hin; apply Hnul; right; apply in_or_app; left; exact Hin. }
    repeat split; try assumption; [lia|].
    exists data, pre, (DQUOTE :: w ++ DQUOTE :: post); repeat split;
      [apply Hf | apply Hf | right].
    simpl; rewrite firstn_prefix; reflexivity.
  - apply no_nul_prefix in Hnul as [Hw _].
    repeat split; try assumption; [lia|].
    exists data, pre, (w ++ post); repeat split; [apply Hf | apply Hf | left].
    apply firstn_prefix.
Qed.

Lemma scan_console_cases (s : list ascii) :
  exists v, s = v ++ scan_console s /\ ~ In SPACE v /\ ~ In COMMA v /\
            ~ In NEWLINE v /\ ends_console (scan_console s).
Proof.
  induction s as [|a s (v & Es & Hs & Hc & Hn & He)]; simpl.
  - exists []; repeat split; try (intros []); left; reflexivity.
  - destruct (Ascii.eqb a SPACE) eqn:E1; simpl.
    { apply Ascii.eqb_eq in E1; subst a.
      exists []; repeat split; try (intros []); right; left; reflexivity. }
    destruct (Ascii.eqb a COMMA) eqn:E2; simpl.
    { apply Ascii.eqb_eq in E2; subst a.
      exists []; repeat split; try (intros []); right; right; left; reflexivity. }
    destruct (Ascii.eqb a NEWLINE) eqn:E3.
    { apply Ascii.eqb_eq in E3; subst a.
      exists []; repeat split; try (intros []); right; right; right; reflexivity. }
    apply Ascii.eqb_neq in E1, E2, E3.
    exists (a :: v); repeat split; [simpl; rewrite <- Es; reflexivity | | | | exact He].
    + intros [Ha | Hi]; [exact (E1 Ha) | exact (Hs Hi)].
    + intros [Ha | Hi]; [exact (E2 Ha) | exact (Hc Hi)].
    + intros [Ha | Hi]; [exact (E3 Ha) | exact (Hn Hi)].
Qed.

(** What [read_console] does with the value behind the first marker. *)
Lemma read_console_delimited (data : list ascii) (pre v post : list ascii)
    (bufsize : N) :
  first_at CONSOLE_KEY (load_cmdline data) pre (v ++ post) ->
  ~ In SPACE v -> ~ In COMMA v -> ~ In NEWLINE v -> ends_console post ->
  read_console (ReadOk data) bufsize
  = if (length v =? 0)%nat || (bufsize <=? N.of_nat (length v) + 5)%N
    then (-1, None) else (0, Some (cs "/dev/" ++ v)).
Proof.
  intros Hf Hs Hc Hn He; unfold read_console.
  rewrite (strstr_first _ _ _ _ Hf); unfold strlen; rewrite skipn_prefix.
  cbv zeta; rewrite (scan_console_stops v post Hs Hc Hn He).
  rewrite ptr_diff_app; unfold precision; rewrite firstn_prefix.
  destruct (length v =? 0)%nat; [reflexivity|]; simpl orb.
  destruct (bufsize <=? N.of_nat (length v) + 5)%N eqn:E5.
  - destruct (bufsize <=? N.of_nat (length v))%N; reflexivity.
  - apply N.leb_gt in E5.
    replace (bufsize <=? N.of_nat (length v))%N with false
      by (symmetry; apply N.leb_gt; lia).
    unfold snprintf; rewrite firstn_all2; [reflexivity|].
    rewrite length_app; change (length (cs "/dev/")) with 5%nat; lia.
Qed.

(** X2.  [read_console] fails, storing nothing, when /proc/cmdline cannot be
    opened or read or holds no [console=].  Otherwise the device name is
    what stands behind the first [console=] up to the next space, comma,
    newline or the end; the call fails when the name is empty or when the
    name and the five characters of /dev/ do not leave room for the
    terminator, and else stores /dev/ followed by the name, untruncated.
    With the 64-byte buffer of main, names of 1 to 58 characters pass. *)
Theorem read_console_contract (io : cmdline_io) (bufsize : N) :
  match io with
  | OpenFails _ | ReadFails _ => read_console io bufsize = (-1, None)
  | ReadOk data =>
      (~ occurs CONSOLE_KEY (load_cmdline data) /\
       read_console io bufsize = (-1, None)) \/
      (exists pre v post,
          first_at CONSOLE_KEY (load_cmdline data) pre (v ++ post) /\
          ~ In SPACE v /\ ~ In COMMA v /\ ~ In NEWLINE v /\ ~ In NUL v /\
          ends_console post /\
          read_console io bufsize
          = (if (length v =? 0)%nat || (bufsize <=? N.of_nat (length v) + 5)%N
             then (-1, None) else (0, Some (cs "/dev/" ++ v))) /\
          (read_console io MAX_CONSOLE_LEN = (0, Some (cs "/dev/" ++ v)) <->
           (1 <= length v <= 58)%nat))
  end.
Proof.
  destruct io as [e | e | data]; try reflexivity.
  destruct (strstr (load_cmdline data) CONSOLE_KEY) as [s|] eqn:Es.
  - right.
    apply strstr_found in Es as (pre & post & Hf & _).
    destruct (scan_console_cases post) as (v & Ep & Hs & Hc & Hn & He).
    rewrite Ep in Hf.
    exists pre, v, (scan_console post).
    assert (Hnul : ~ In NUL v).
    { pose proof (c_str_no_nul (firstn (MAX_CMDLINE_LEN - 1) data)) as Hnul.
      fold (load_cmdline data) in Hnul.
      destruct Hf as [Eh _]; rewrite Eh in Hnul.
      apply no_nul_prefix in Hnul as [_ Hnul].
      apply no_nul_prefix in Hnul as [_ Hnul].
      apply no_nul_prefix in Hnul as [Hnul _]; exact Hnul. }
    split; [exact Hf|].
    do 5 (split; [assumption|]).
    split; [apply (read_console_delimited data pre v _ bufsize Hf Hs Hc Hn He) | split].
    + rewrite (read_console_delimited data pre v _ MAX_CONSOLE_LEN Hf Hs Hc Hn He).
      destruct (length v =? 0)%nat eqn:E0; simpl orb; [discriminate|].
      destruct (MAX_CONSOLE_LEN <=? N.of_nat (length v) + 5)%N eqn:E5;
        [discriminate|].
      intros _; apply Nat.eqb_neq in E0; apply N.leb_gt in E5.
      unfold MAX_CONSOLE_LEN in E5; lia.
    + rewrite (read_console_delimited data pre v _ MAX_CONSOLE_LEN Hf Hs Hc Hn He).
      intros [H1 H58].
      replace (length v =? 0)%nat with false
        by (symmetry; apply Nat.eqb_neq; lia).
      replace (MAX_CONSOLE_LEN <=? N.of_nat (length v) + 5)%N with false
        by (symmetry; apply N.leb_gt; unfold MAX_CONSOLE_LEN; lia).
      reflexivity.
  - left; split; [apply strstr_absent; exact Es|].
    unfold read_console; rewrite Es; reflexivity.
Qed.

(** ** Filesystem bootstrapper: the calls it makes *)

Lemma do_mount_recorded (source target fstype : list ascii) (flags : Z)
    (r : sysret) (script : list sysret) (calls : list syscall) :
  do_mount source target fstype flags
    {| rec_script := r :: script; rec_calls := calls |}
  = ((if benign EBUSY r then 0 else -1,
      {| rec_script := script;
         rec_calls := calls ++ [Mount source target fstype flags] |}),
     if benign EBUSY r then [] else [ErrorLine target (errno_of r)]).
Proof.
  unfold do_mount; simpl.
  destruct r as [|e]; [reflexivity|]; simpl.
  destruct (e =? EBUSY); reflexivity.
Qed.

Lemma do_mkdir_recorded (path : list ascii) (mode : Z)
    (r : sysret) (script : list sysret) (calls : list syscall) :
  do_mkdir path mode {| rec_script := r :: script; rec_calls := calls |}
  = ((if benign EEXIST r then 0 else -1,
      {| rec_script := script; rec_calls := calls ++ [Mkdir path mode] |}),
     if benign EEXIST r then [] else [ErrorLine path (errno_of r)]).
Proof.
  unfold do_mkdir; simpl.
  destruct r as [|e]; [reflexivity|]; simpl.
  destruct (e =? EEXIST); reflexivity.
Qed.

Lemma kmsg_one (opens : nat -> bool) (l : log_line) :
  kmsg opens [l] = if opens 0%nat then [l] else [].
Proof. unfold kmsg; simpl; destruct (opens 0%nat); reflexivity. Qed.

(** X3.  [mount_filesystems] makes its calls in one fixed order and with
    fixed arguments: proc on /proc, sysfs on /sys (both nosuid, nodev,
    noexec), devtmpfs on /dev (nosuid), mkdir /dev/pts with mode 0755,
    devpts on /dev/pts (nosuid, noexec).  It stops at the first call whose
    answer is neither success nor the harmless error, making no further
    call, and returns -1; when no call fails that way it makes all five and
    returns 0.  The failure is reported by one call of [log_error] with the
    path of the failed call and its errno; that line reaches the kernel log
    only if /dev/kmsg can be opened at that moment, so that -1 can be
    returned with nothing written.  Nothing else is ever written. *)
Theorem bootstrap_calls (r1 r2 r3 r4 r5 : sysret) (rest : list sysret) :
  let answers := r1 :: r2 :: r3 :: r4 :: r5 :: rest in
  let res := mount_filesystems {| rec_script := answers; rec_calls := [] |} in
  rec_calls (snd (value res)) = calls_made bootstrap_plan answers /\
  (exists n, rec_calls (snd (value res)) = firstn n bootstrap_plan) /\
  (fst (value res) = 0 \/ fst (value res) = -1) /\
  (fst (value res) = 0 <->
   rec_calls (snd (value res)) = bootstrap_plan /\
   failure_log bootstrap_plan answers = []) /\
  (fst (value res) = -1 <-> length (failure_log bootstrap_plan answers) = 1%nat) /\
  logs res = failure_log bootstrap_plan answers /\
  (forall opens,
      kmsg opens (logs res)
      = if opens 0%nat then failure_log bootstrap_plan answers else []).
Proof.
  intros answers res; unfold res, answers, mount_filesystems, bootstrap_plan.
  rewrite do_mount_recorded; cbn [calls_made failure_log call_done_before call_path].
  destruct (benign EBUSY r1);
    [rewrite bind_pure; cbv beta; cbn [fst snd] |
     repeat split; try (exists 1%nat; reflexivity); try (right; reflexivity);
     try (intros opens; apply kmsg_one); easy].
  change (0 <? 0) with false; cbv iota.
  rewrite do_mount_recorded.
  destruct (benign EBUSY r2);
    [rewrite bind_pure; cbv beta; cbn [fst snd] |
     repeat split; try (exists 2%nat; reflexivity); try (right; reflexivity);
     try (intros opens; apply kmsg_one); easy].
  change (0 <? 0) with false; cbv iota.
  rewrite do_mount_recorded.
  destruct (benign EBUSY r3);
    [rewrite bind_pure; cbv beta; cbn [fst snd] |
     repeat split; try (exists 3%nat; reflexivity); try (right; reflexivity);
     try (intros opens; apply kmsg_one); easy].
  change (0 <? 0) with false; cbv iota.
  rewrite do_mkdir_recorded.
  destruct (benign EEXIST r4);
    [rewrite bind_pure; cbv beta; cbn [fst snd] |
     repeat split; try (exists 4%nat; reflexivity); try (right; reflexivity);
     try (intros opens; apply kmsg_one); easy].
  change (0 <? 0) with false; cbv iota.
  rewrite do_mount_recorded.
  destruct (benign EBUSY r5);
    repeat split; try (exists 5%nat; reflexivity);
    try (left; reflexivity); try (right; reflexivity);
    try (intros opens; first [apply kmsg_one | destruct (opens 0%nat); reflexivity]);
    easy.
Qed.

(** ** Command tokenizer: well-quoted input *)

Lemma spec_tokens_skip (bl s : list ascii) :
  blanks bl -> spec_tokens None None (bl ++ s) = spec_tokens None None s.
Proof.
  induction bl as [|c bl IH]; intros Hb; [reflexivity|]; simpl.
  assert (Hc : is_blank c = true) by (apply Hb; left; reflexivity).
  assert (Hq : is_quote c = false).
  { destruct (is_quote c) eqn:E; [|reflexivity].
    apply quote_not_blank in E; congruence. }
  rewrite Hq, Hc; apply IH.
  intros c' Hc'; apply Hb; right; exact Hc'.
Qed.

Lemma spec_tokens_bare (w rest cur : list ascii) :
  plain w ->
  spec_tokens None (Some cur) (w ++ rest) = spec_tokens None (Some (cur ++ w)) rest.
Proof.
  revert cur; induction w as [|c w IH]; intros cur Hw; simpl.
  - rewrite app_nil_r; reflexivity.
  - destruct (Hw c (or_introl eq_refl)) as (Hb & Hq & _).
    rewrite Hq, Hb, IH; [rewrite <- app_assoc; reflexivity|].
    intros c' Hc'; apply Hw; right; exact Hc'.
Qed.

Lemma spec_tokens_inside (q : ascii) (t rest cur : list ascii) :
  ~ In q t ->
  spec_tokens (Some q) (Some cur) (t ++ q :: rest)
  = spec_tokens None (Some (cur ++ t)) rest.
Proof.
  revert cur; induction t as [|c t IH]; intros cur Hn; simpl.
  - rewrite Ascii.eqb_refl, app_nil_r; reflexivity.
  - apply not_in_cons in Hn as [Hc Hn].
    rewrite (eqb_neq_false c q Hc), IH by exact Hn.
    rewrite <- app_assoc; reflexivity.
Qed.

Lemma spec_tokens_piece (p : piece) (rest cur : list ascii) :
  piece_ok p ->
  spec_tokens None (Some cur) (piece_text p ++ rest)
  = spec_tokens None (Some (cur ++ piece_value p)) rest.
Proof.
  destruct p as [w | q t]; simpl piece_ok; simpl piece_text; simpl piece_value.
  - apply spec_tokens_bare.
  - intros (Hq & Hn & _); simpl; rewrite Hq, <- app_assoc; simpl.
    apply spec_tokens_inside; exact Hn.
Qed.

Lemma spec_tokens_arg (a : list piece) (rest cur : list ascii) :
  Forall piece_ok a ->
  spec_tokens None (Some cur) (arg_text a ++ rest)
  = spec_tokens None (Some (cur ++ arg_value a)) rest.
Proof.
  revert cur; induction a as [|p a IH]; intros cur Hok.
  - simpl; rewrite app_nil_r; reflexivity.
  - inversion Hok as [|? ? Hp Ha]; subst.
    unfold arg_text, arg_value; simpl; fold (arg_text a); fold (arg_value a).
    rewrite <- app_assoc, (spec_tokens_piece p _ cur Hp), (IH _ Ha), <- app_assoc.
    reflexivity.
Qed.

Lemma arg_text_head (a : list piece) :
  Forall piece_ok a -> arg_text a <> [] -> is_blank (deref (arg_text a)) = false.
Proof.
  induction a as [|p a IH]; intros Hok Hne; [exfalso; apply Hne; reflexivity|].
  inversion Hok as [|? ? Hp Ha]; subst.
  unfold arg_text in *; simpl in *.
  destruct p as [[|c w] | q t]; simpl in *.
  - apply IH; assumption.
  - apply (Hp c); left; reflexivity.
  - apply quote_not_blank, Hp.
Qed.

Lemma arg_text_no_nul (a : list piece) : Forall piece_ok a -> ~ In NUL (arg_text a).
Proof.
  induction a as [|p a IH]; intros Hok; [intros []|].
  inversion Hok as [|? ? Hp Ha]; subst.
  unfold arg_text in *; simpl; intros Hin.
  apply in_app_or in Hin as [Hin | Hin]; [|exact (IH Ha Hin)].
  destruct p as [w | q t]; simpl in Hp, Hin.
  - exact (plain_no_nul w Hp Hin).
  - destruct Hp as (Hq & _ & Hn).
    assert (Hqn : q <> NUL) by (intros ->; discriminate).
    destruct Hin as [E | Hin]; [exact (Hqn E)|].
    apply in_app_or in Hin as [Hin | [E | []]]; [exact (Hn Hin) | exact (Hqn E)].
Qed.

Lemma blanks_no_nul (bl : list ascii) : blanks bl -> ~ In NUL bl.
Proof. intros Hb Hin; specialize (Hb NUL Hin); discriminate. Qed.

Lemma spec_tokens_line (args : list (list piece * list ascii)) :
  line_ok args ->
  spec_tokens None None (line_text args) = map (fun x => arg_value (fst x)) args.
Proof.
  induction args as [|[a sep] args IH]; intros Hok; [reflexivity|].
  destruct Hok as ((Hps & Hne) & Hsep & Hlast & Hok).
  simpl line_text; simpl map.
  pose proof (arg_text_head a Hps Hne) as Hhead.
  destruct (arg_text a) as [|c s] eqn:Ea; [congruence|].
  simpl in Hhead; simpl app; rewrite (spec_tokens_begin c _ Hhead).
  change (c :: s ++ sep ++ line_text args) with ((c :: s) ++ sep ++ line_text args).
  rewrite <- Ea, (spec_tokens_arg a _ [] Hps); simpl app.
  destruct sep as [|b sep].
  - rewrite (Hlast eq_refl); reflexivity.
  - simpl.
    assert (Hb : is_blank b = true) by (apply Hsep; left; reflexivity).
    assert (Hq : is_quote b = false).
    { destruct (is_quote b) eqn:E; [|reflexivity].
      apply quote_not_blank in E; congruence. }
    rewrite Hq, Hb; simpl; f_equal.
    rewrite spec_tokens_skip; [apply IH; exact Hok|].
    intros c' Hc'; apply Hsep; right; exact Hc'.
Qed.

Lemma line_text_no_nul (args : list (list piece * list ascii)) :
  line_ok args -> ~ In NUL (line_text args).
Proof.
  induction args as [|[a sep] args IH]; intros Hok; [intros []|].
  destruct Hok as ((Hps & _) & Hsep & _ & Hok); simpl; intros Hin.
  apply in_app_or in Hin as [Hin | Hin]; [exact (arg_text_no_nul a Hps Hin)|].
  apply in_app_or in Hin as [Hin | Hin];
    [exact (blanks_no_nul sep Hsep Hin) | exact (IH Hok Hin)].
Qed.

(** X4.  Well-quoted input is tokenized into what it says.  When the input
    is a run of blanks followed by arguments separated by runs of blanks,
    each argument a sequence of bare pieces and of pieces between a pair of
    like quotes, [parse_args] yields, for each of the first [max_args - 1]
    arguments, the concatenation of its pieces with the quotes removed:
    quoted blanks and the other kind of quote are kept, and an argument
    such as two quotes with nothing between them gives an empty token. *)
Theorem well_quoted_tokens (lead : cstring)
    (args : list (list piece * cstring)) (max_args : Z) :
  blanks lead -> line_ok args ->
  tokens_of (parse_args (lead ++ line_text args) max_args)
  = firstn (Z.to_nat (max_args - 1)) (map (fun x => arg_value (fst x)) args) /\
  (Z.of_nat (length args) <= max_args - 1 ->
   tokens_of (parse_args (lead ++ line_text args) max_args)
   = map (fun x => arg_value (fst x)) args /\
   pa_argc (parse_args (lead ++ line_text args) max_args) = Z.of_nat (length args)).
Proof.
  intros Hlead Hok.
  assert (Hn : ~ In NUL (lead ++ line_text args)).
  { intros Hin; apply in_app_or in Hin as [Hin | Hin];
      [exact (blanks_no_nul lead Hlead Hin) | exact (line_text_no_nul args Hok Hin)]. }
  destruct (parse_args_tokens _ max_args Hn) as (Ht & Hc & _).
  assert (Hs : tokenize (lead ++ line_text args) max_args
               = firstn (Z.to_nat (max_args - 1))
                   (map (fun x => arg_value (fst x)) args)).
  { unfold tokenize; rewrite (spec_tokens_skip lead _ Hlead), (spec_tokens_line args Hok).
    reflexivity. }
  rewrite Ht, Hc, Hs; split; [reflexivity|].
  intros Hlen.
  rewrite firstn_all2 by (rewrite length_map; lia).
  rewrite length_map; split; reflexivity.
Qed.

Lemma occurs_in_false (c : ascii) (s : list ascii) :
  occurs_in c s = false -> ~ In c s.
Proof.
  unfold occurs_in; intros E Hin.
  assert (Ht : existsb (Ascii.eqb c) s = true).
  { apply existsb_exists; exists c; split; [exact Hin | apply Ascii.eqb_refl]. }
  congruence.
Qed.

Lemma piece_by_check (p : piece) : piece_check p = true -> piece_ok p.
Proof.
  destruct p as [w | q t]; simpl; [apply plain_by_check|].
  intros E; apply andb_prop in E as [E12 E3]; apply andb_prop in E12 as [E1 E2].
  apply negb_true_iff in E2, E3.
  split; [exact E1 | split; apply occurs_in_false; assumption].
Qed.

Lemma line_by_check (args : list (list piece * list ascii)) :
  line_check args = true -> line_ok args.
Proof.
  induction args as [|[a sep] args IH]; simpl; [trivial|].
  intros E.
  apply andb_prop in E as [E E5]; apply andb_prop in E as [E E4].
  apply andb_prop in E as [E E3]; apply andb_prop in E as [E1 E2].
  split; [split|split; [|split]].
  - apply Forall_forall; intros p Hp; apply piece_by_check.
    rewrite forallb_forall in E1; exact (E1 p Hp).
  - intros Ea; rewrite Ea in E2; discriminate.
  - apply blanks_by_check; exact E3.
  - intros ->; simpl in E4.
    destruct args; [reflexivity | discriminate].
  - apply IH; exact E5.
Qed.

Lemma well_quoted_tokens_witness :
  tokens_of (parse_args (cs "  /bin/sh -c  'echo " ++ DQUOTE :: cs "a  b" ++ DQUOTE :: cs "'x ''") MAX_ARGS)
  = [cs "/bin/sh"; cs "-c"; cs "echo " ++ DQUOTE :: cs "a  b" ++ DQUOTE :: cs "x"; []].
Proof.
  apply (proj2 (well_quoted_tokens (cs "  ")
                  [ ([Bare (cs "/bin/sh")], cs " ");
                    ([Bare (cs "-c")], cs "  ");
                    ([Quoted SQUOTE (cs "echo " ++ DQUOTE :: cs "a  b" ++ [DQUOTE]);
                      Bare (cs "x")], cs " ");
                    ([Quoted SQUOTE []], []) ] MAX_ARGS
                  ltac:(apply blanks_by_check; reflexivity)
                  ltac:(apply line_by_check; reflexivity))).
  vm_compute; discriminate.
Defined.

(** ** Command tokenizer: when there is no token *)

Lemma spec_tokens_started (s : list ascii) :
  forall (q : option ascii) (cur : list ascii), spec_tokens q (Some cur) s <> [].
Proof.
  induction s as [|c s IH]; intros q cur; simpl; [discriminate|].
  destruct q as [q|].
  - destruct (Ascii.eqb c q); apply IH.
  - destruct (is_quote c); [apply IH|].
    destruct (is_blank c); [discriminate | apply IH].
Qed.

Lemma spec_tokens_none (s : list ascii) :
  spec_tokens None None s = [] <-> blanks s.
Proof.
  split.
  - induction s as [|c s IH]; intros E; [intros c []|].
    simpl in E.
    destruct (is_quote c); [exfalso; exact (spec_tokens_started _ _ _ E)|].
    destruct (is_blank c) eqn:Eb; [|exfalso; exact (spec_tokens_started _ _ _ E)].
    simpl in E; intros c' [<- | Hin]; [exact Eb | apply (IH E); exact Hin].
  - intros Hb; rewrite <- (app_nil_r s); rewrite spec_tokens_skip; [reflexivity | exact Hb].
Qed.

(** X5.  [parse_args] returns 0 exactly when there is no room for a token
    ([max_args] at most 1) or the string consists of spaces and tabs only,
    the empty string included; with the 64 entries main provides, exactly
    when the string is blank.  A quote character alone already makes a
    token. *)
Theorem no_token_iff_blank (s : cstring) (max_args : Z) :
  ~ In NUL s ->
  (pa_argc (parse_args s max_args) = 0 <-> max_args <= 1 \/ blanks s) /\
  (pa_argc (parse_args s MAX_ARGS) = 0 <-> blanks s) /\
  (pa_argc (parse_args s max_args) = 0 ->
   pa_argv (parse_args s max_args) = [None]).
Proof.
  intros Hn.
  assert (Hz : forall m, pa_argc (parse_args s m) = 0 <-> m <= 1 \/ blanks s).
  { intros m.
    destruct (parse_args_tokens s m Hn) as (_ & Hc & _).
    rewrite Hc; unfold tokenize; rewrite length_firstn.
    rewrite <- spec_tokens_none.
    destruct (spec_tokens None None s) as [|t toks]; simpl length.
    - split; [right; reflexivity | lia].
    - split; [intros E; left; lia | intros [E | E]; [lia | discriminate]]. }
  split; [apply Hz | split].
  - rewrite Hz; unfold MAX_ARGS; split; [intros [E | E]; [lia | exact E] | auto].
  - intros E.
    destruct (parse_args_tokens s max_args Hn) as (_ & Hc & offs & Ha & Hl).
    rewrite Hc in E; rewrite Ha.
    destruct offs; [reflexivity | simpl in Hl; lia].
Qed.

Lemma no_token_iff_blank_witness :
  pa_argc (parse_args [SPACE; TAB; SPACE] MAX_ARGS) = 0 /\
  pa_argc (parse_args [SQUOTE] MAX_ARGS) <> 0.
Proof.
  assert (H1 : ~ In NUL [SPACE; TAB; SPACE]) by (vm_compute; intuition discriminate).
  assert (H2 : ~ In NUL [SQUOTE]) by (vm_compute; intuition discriminate).
  split.
  - apply (proj1 (proj2 (no_token_iff_blank [SPACE; TAB; SPACE] MAX_ARGS H1))).
    apply blanks_by_check; reflexivity.
  - intros E.
    apply (proj1 (proj2 (no_token_iff_blank [SQUOTE] MAX_ARGS H2))) in E.
    specialize (E SQUOTE (or_introl eq_refl)); discriminate.
Defined.

(** ** Command tokenizer: the layout of the tokens *)

Lemma find_end_length (p : list ascii) :
  forall (q : bool) (qc : ascii) (done : list ascii) q' qc' done' p',
    find_end q qc done p = (q', qc', done', p') ->
    (length done' + length p' <= length done + length p)%nat.
Proof.
  induction p as [|c p IH]; intros q qc done q' qc' done' p' E; simpl in E.
  - injection E as _ _ <- <-; simpl; lia.
  - destruct q; simpl in E.
    + destruct (Ascii.eqb c qc);
        apply IH in E; try rewrite length_app in E; simpl in *; lia.
    + destruct (is_quote c); [apply IH in E; simpl; lia|].
      destruct (is_blank c).
      * injection E as _ _ <- <-; rewrite length_app; simpl; lia.
      * apply IH in E; rewrite length_app in E; simpl in *; lia.
Qed.

Lemma in_order_weaken (offs : list nat) :
  forall (toks : list (list ascii)) (lo lo' hi : nat),
    (lo' <= lo)%nat -> in_order lo offs toks hi -> in_order lo' offs toks hi.
Proof.
  destruct offs as [|o offs]; intros [|t toks] lo lo' hi Hle H; simpl in *;
    try exact H.
  destruct H as (H1 & H2 & H3); repeat split; [lia | exact H2 | exact H3].
Qed.

Ltac list_lengths :=
  repeat first [ rewrite length_app in * | progress cbn [length] in * ].

Lemma parse_loop_blank (slots : nat) (t : tokenizer) (done : list ascii) :
  tk_p t <> [] -> skip_blanks (tk_done t) (tk_p t) = (done, []) ->
  parse_loop (S slots) t
  = {| tk_done := done; tk_p := []; tk_argv := tk_argv t;
       tk_in_quote := tk_in_quote t; tk_quote_char := tk_quote_char t |}.
Proof.
  intros Hp Hs; simpl.
  destruct (tk_p t) as [|c0 p0] eqn:Ep; [congruence|].
  rewrite Hs; reflexivity.
Qed.

Lemma parse_loop_layout (slots : nat) :
  forall t : tokenizer,
    tk_in_quote t = false -> ~ In NUL (tk_p t) ->
    exists offs ext,
      tk_argv (parse_loop slots t) = tk_argv t ++ offs /\
      tk_done (parse_loop slots t) ++ tk_p (parse_loop slots t) = tk_done t ++ ext /\
      (length ext <= length (tk_p t))%nat /\
      in_order (length (tk_done t)) offs (strings_at (tk_done t ++ ext) offs)
        (length (tk_done t ++ ext)).
Proof.
  induction slots as [|slots IH]; intros t Hq Hn.
  - exists [], (tk_p t); simpl; rewrite app_nil_r; repeat split; lia.
  - destruct (tk_p t) as [|c0 p0] eqn:Ep.
    { exists [], []; rewrite (parse_loop_done (S slots) t Ep), Ep, !app_nil_r.
      repeat split; simpl; lia. }
    assert (Hne : tk_p t <> []) by (rewrite Ep; discriminate).
    rewrite <- Ep in *; clear Ep c0 p0.
    destruct (skip_blanks_split (tk_p t) (tk_done t)) as (bl & p' & Es & Esplit).
    assert (Hn' : ~ In NUL p').
    { rewrite Esplit in Hn; apply no_nul_prefix in Hn as [_ Hn]; exact Hn. }
    destruct p' as [|c p'].
    { exists [], bl; rewrite (parse_loop_blank slots t _ Hne Es); simpl.
      rewrite !app_nil_r.
      repeat split; rewrite Esplit, app_nil_r; lia. }
    rewrite (parse_loop_token slots t (tk_done t ++ bl) (c :: p') Hne Es)
      by discriminate.
    rewrite Hq.
    destruct (find_end_spec (c :: p') false (tk_quote_char t) (tk_done t ++ bl) [] Hn')
      as (tok & q' & qc' & p'' & Htok & Hp'' & [(Ef & Hq' & _) | (Ef & Hp & _)]).
    + pose proof (find_end_length _ _ _ _ _ _ _ _ Ef) as Hlen.
      rewrite Ef.
      destruct (IH {| tk_done := (tk_done t ++ bl) ++ tok ++ [NUL]; tk_p := p'';
                      tk_argv := tk_argv t ++ [length (tk_done t ++ bl)];
                      tk_in_quote := q'; tk_quote_char := qc' |} Hq' Hp'')
        as (offs & ext & Ha & Hd & Hl & Ho).
      simpl in Ha, Hd, Hl, Ho.
      exists (length (tk_done t ++ bl) :: offs), (bl ++ tok ++ [NUL] ++ ext).
      rewrite Ha, Hd, <- !app_assoc; simpl app.
      replace (((tk_done t ++ bl) ++ tok ++ [NUL]) ++ ext)
        with (tk_done t ++ bl ++ tok ++ NUL :: ext) in Ho
        by (repeat (rewrite <- app_assoc; simpl); reflexivity).
      split; [reflexivity | split; [reflexivity | split]].
      * rewrite Esplit; list_lengths; lia.
      * simpl strings_at.
        replace (c_str (skipn (length (tk_done t ++ bl))
                          (tk_done t ++ bl ++ tok ++ NUL :: ext))) with tok.
        2:{ replace (tk_done t ++ bl ++ tok ++ NUL :: ext)
              with ((tk_done t ++ bl) ++ tok ++ NUL :: ext)
              by (rewrite <- app_assoc; reflexivity).
            rewrite skipn_prefix; symmetry; apply c_str_terminated; exact Htok. }
        simpl in_order; split; [rewrite length_app; lia | split].
        -- repeat (rewrite length_app; simpl); lia.
        -- replace (length (tk_done t ++ bl) + length tok + 1)%nat
             with (length ((tk_done t ++ bl) ++ tok ++ [NUL]))
             by (repeat (rewrite length_app; simpl); lia).
           exact Ho.
    + rewrite Ef; subst p''.
      rewrite parse_loop_done by reflexivity; simpl.
      exists [length (tk_done t ++ bl)], (bl ++ tok).
      pose proof (find_end_length _ _ _ _ _ _ _ _ Ef) as Hlen.
      rewrite app_nil_r, <- !app_assoc.
      split; [reflexivity | split; [reflexivity | split]].
      * rewrite Esplit; list_lengths; lia.
      * simpl strings_at.
        replace (c_str (skipn (length (tk_done t ++ bl)) (tk_done t ++ bl ++ tok)))
          with tok.
        2:{ replace (tk_done t ++ bl ++ tok) with ((tk_done t ++ bl) ++ tok)
              by (rewrite <- app_assoc; reflexivity).
            rewrite skipn_prefix; symmetry; apply c_str_clean; exact Htok. }
        simpl; repeat split; repeat (rewrite length_app; simpl); lia.
Qed.

Lemma in_order_total (offs : list nat) :
  forall (toks : list (list ascii)) (lo hi : nat),
    in_order lo offs toks hi ->
    (lo + list_sum (map (fun t => length t + 1) toks) <= hi + 1)%nat
    \/ toks = [].
Proof.
  induction offs as [|o offs IH]; intros [|t toks] lo hi H; simpl in H;
    try contradiction; [right; reflexivity | left].
  destruct H as (H1 & H2 & H3); simpl.
  destruct (IH _ _ _ H3) as [Hs | ->]; simpl; lia.
Qed.

(** X6.  The tokens are separate stretches of the buffer.  The entries of
    the argument vector point into the buffer in increasing order; each
    token ends inside the buffer and at least one byte lies between its end
    and the start of the next.  The buffer's contents never grow, so the
    tokens with one terminator each take at most one byte more than the
    input string, and no token contains a NUL. *)
Theorem token_layout (s : cstring) (max_args : Z) :
  ~ In NUL s ->
  exists offs,
    pa_argv (parse_args s max_args) = map Some offs ++ [None] /\
    in_order 0 offs (tokens_of (parse_args s max_args))
      (length (pa_buf (parse_args s max_args))) /\
    (length (pa_buf (parse_args s max_args)) <= length s)%nat /\
    (list_sum (map (fun t => length t + 1) (tokens_of (parse_args s max_args)))
     <= length s + 1)%nat /\
    Forall (fun t => ~ In NUL t) (tokens_of (parse_args s max_args)).
Proof.
  intros Hn.
  destruct (parse_loop_layout (Z.to_nat (max_args - 1))
              {| tk_done := []; tk_p := s; tk_argv := [];
                 tk_in_quote := false; tk_quote_char := NUL |} eq_refl Hn)
    as (offs & ext & Ha & Hd & Hl & Ho).
  simpl in Ha, Hd, Hl, Ho.
  exists offs; unfold tokens_of, parse_args; simpl pa_argv; simpl pa_buf.
  rewrite Ha, Hd, argv_strings_sentinel.
  split; [reflexivity | split; [exact Ho | split; [exact Hl | split]]].
  - destruct (in_order_total _ _ _ _ Ho) as [Hs | ->]; simpl; lia.
  - unfold strings_at; apply Forall_forall; intros t Ht.
    apply in_map_iff in Ht as (o & <- & _); apply c_str_no_nul.
Qed.

Lemma token_layout_witness :
  exists offs,
    pa_argv (parse_args (cs "a 'b c'  d") MAX_ARGS) = map Some offs ++ [None] /\
    in_order 0 offs (tokens_of (parse_args (cs "a 'b c'  d") MAX_ARGS))
      (length (pa_buf (parse_args (cs "a 'b c'  d") MAX_ARGS))).
Proof.
  assert (Hn : ~ In NUL (cs "a 'b c'  d")) by (vm_compute; intuition discriminate).
  destruct (token_layout (cs "a 'b c'  d") MAX_ARGS Hn) as (offs & Ha & Ho & _).
  exists offs; split; assumption.
Defined.

(** ** Supervisor: what the handlers keep *)

(** X7.  The SIGCHLD handler never changes the recorded child pid and never
    clears the exit flag.  It leaves the whole state as it was when the
    recorded pid is not among the children it reaps, and in particular as
    long as no positive pid has been recorded (after a failed fork, or
    before the result of fork is stored): children reaped then are not
    reported, whatever their status. *)
Theorem sigchld_handler_keeps (reaped : list (Z * Z)) (st : supervisor) :
  child_pid (sigchld_handler reaped st) = child_pid st /\
  (child_exited (sigchld_handler reaped st) = child_exited st \/
   child_exited (sigchld_handler reaped st) = 1) /\
  (child_exited st = 1 -> child_exited (sigchld_handler reaped st) = 1) /\
  (~ In (child_pid st) (map fst reaped) -> sigchld_handler reaped st = st) /\
  (child_pid st <= 0 -> sigchld_handler reaped st = st).
Proof.
  revert st; induction reaped as [|[pid status] reaped IH]; intros st.
  - simpl; repeat split; auto.
  - simpl.
    destruct (pid >? 0) eqn:Epos; [|repeat split; auto].
    destruct (pid =? child_pid st) eqn:Eeq.
    + apply Z.eqb_eq in Eeq.
      match goal with
      | |- context [sigchld_handler reaped ?s] =>
          destruct (IH s) as (H1 & H2 & H3 & H4 & H5)
      end.
      simpl in H1, H2, H3, H4, H5.
      split; [exact H1 | split; [|split; [|split]]].
      * right; apply H3; reflexivity.
      * intros _; apply H3; reflexivity.
      * intros Hn; exfalso; apply Hn; left; simpl; exact Eeq.
      * intros Hle; lia.
    + destruct (IH st) as (H1 & H2 & H3 & H4 & H5).
      split; [exact H1 | split; [exact H2 | split; [exact H3 | split; [|exact H5]]]].
      intros Hn; apply H4; intros Hin; apply Hn; right; exact Hin.
Qed.

Lemma sigchld_handler_keeps_witness :
  sigchld_handler [(7, wait_status (Exited 127))] initial_supervisor
  = initial_supervisor.
Proof.
  apply (proj2 (proj2 (proj2 (proj2
           (sigchld_handler_keeps [(7, wait_status (Exited 127))] initial_supervisor))))).
  simpl; lia.
Defined.

(** ** Supervisor: what is relayed *)

Lemma sigchld_handler_pid (reaped : list (Z * Z)) :
  forall st, child_pid (sigchld_handler reaped st) = child_pid st.
Proof.
  induction reaped as [|[pid status] reaped IH]; intros st; simpl; [reflexivity|].
  destruct (pid >? 0); [|reflexivity].
  destruct (pid =? child_pid st); rewrite IH; reflexivity.
Qed.

Lemma deliver_installed (a : arrival) (st : supervisor) :
  child_pid (fst (deliver (setup_signals default_sigtable) a st)) = child_pid st /\
  snd (deliver (setup_signals default_sigtable) a st)
  = if is_forwarded (a_sig a) then forward_signal (a_sig a) st else [].
Proof.
  unfold deliver, setup_signals, sigaction, default_sigtable, is_forwarded.
  unfold SIGHUP, SIGINT, SIGTERM, SIGCHLD.
  destruct (a_sig a =? 1) eqn:E1; [rewrite !orb_true_r; split; reflexivity|].
  destruct (a_sig a =? 2) eqn:E2; [rewrite orb_true_r; split; reflexivity|].
  destruct (a_sig a =? 15) eqn:E15; [split; reflexivity|].
  destruct (a_sig a =? 17) eqn:E17; [|split; reflexivity].
  simpl; split; [apply sigchld_handler_pid | reflexivity].
Qed.

Lemma relayed_app (pid : Z) (a b : list arrival) :
  relayed pid (a ++ b) = relayed pid a ++ relayed pid b.
Proof. unfold relayed; rewrite filter_app, map_app; reflexivity. Qed.

Lemma deliver_all_installed (arrivals : list arrival) :
  forall st,
    child_pid (fst (deliver_all (setup_signals default_sigtable) arrivals st))
    = child_pid st /\
    snd (deliver_all (setup_signals default_sigtable) arrivals st)
    = if child_pid st >? 0 then relayed (child_pid st) arrivals else [].
Proof.
  induction arrivals as [|a arrivals IH]; intros st; simpl.
  - split; [reflexivity | destruct (child_pid st >? 0); reflexivity].
  - destruct (deliver_installed a st) as [Hp Hk].
    destruct (deliver (setup_signals default_sigtable) a st) as [st1 k1].
    simpl in Hp, Hk.
    destruct (IH st1) as [Hp' Hk'].
    destruct (deliver_all (setup_signals default_sigtable) arrivals st1) as [st2 k2].
    simpl in Hp', Hk' |- *.
    split; [congruence|].
    rewrite Hk, Hk', Hp; unfold relayed, forward_signal; simpl.
    destruct (child_pid st >? 0); destruct (is_forwarded (a_sig a)); reflexivity.
Qed.

Lemma loop_body_installed (arrivals : list arrival) (st : supervisor) :
  child_pid (fst (value (loop_body (setup_signals default_sigtable) arrivals st)))
  = child_pid st /\
  snd (value (loop_body (setup_signals default_sigtable) arrivals st))
  = if child_pid st >? 0 then relayed (child_pid st) arrivals else [].
Proof.
  unfold loop_body.
  destruct (deliver_all_installed arrivals st) as [Hp Hk].
  destruct (deliver_all (setup_signals default_sigtable) arrivals st) as [st1 k1].
  simpl in Hp, Hk.
  destruct (negb (child_exited st1 =? 0)); simpl; split; assumption.
Qed.

(** X8.  All the supervisor ever signals is its child.  Over any number of
    turns of the loop the recorded child pid stays what fork returned, and
    the calls of [kill] made are exactly one per SIGTERM, SIGINT or SIGHUP
    that arrived, in order of arrival, each with the recorded pid and the
    signal that arrived; no other signal leads to a call.  Whether the child
    has exited in the meantime makes no difference: the pid is not cleared,
    so signals are still sent to it afterwards. *)
Theorem relay_is_exact (turns : list (list arrival)) (dev : cstring)
    (st : supervisor) :
  child_pid st > 0 ->
  exists st',
    value (run turns (Supervising (setup_signals default_sigtable) dev st))
    = (Supervising (setup_signals default_sigtable) dev st',
       relayed (child_pid st) (concat turns)) /\
    child_pid st' = child_pid st.
Proof.
  revert st; induction turns as [|arrivals turns IH]; intros st Hp.
  - exists st; split; reflexivity.
  - simpl run; rewrite !value_bind.
    destruct (loop_body_installed arrivals st) as [Hp1 Hk1].
    set (r := value (loop_body (setup_signals default_sigtable) arrivals st)) in *.
    assert (Hpos : child_pid (fst r) > 0) by lia.
    destruct (IH (fst r) Hpos) as (st' & Hv & Hp').
    exists st'; rewrite Hv; simpl; split; [|congruence].
    rewrite Hk1, Hp1, relayed_app.
    destruct (child_pid st >? 0) eqn:E; [reflexivity | lia].
Qed.

Lemma relay_is_exact_witness :
  exists st',
    value (run [ [ {| a_sig := SIGCHLD; a_reaped := [(7, 0)] |} ];
                 [ {| a_sig := SIGTERM; a_reaped := [] |};
                   {| a_sig := 10; a_reaped := [] |} ] ]
             (Supervising (setup_signals default_sigtable) []
                {| child_pid := 7; child_exited := 0; child_exit_status := 0 |}))
    = (Supervising (setup_signals default_sigtable) [] st',
       [ {| k_pid := 7; k_sig := SIGTERM |} ]) /\
    child_pid st' = 7.
Proof.
  apply (relay_is_exact
           [ [ {| a_sig := SIGCHLD; a_reaped := [(7, 0)] |} ];
             [ {| a_sig := SIGTERM; a_reaped := [] |};
               {| a_sig := 10; a_reaped := [] |} ] ] []
           {| child_pid := 7; child_exited := 0; child_exit_status := 0 |}).
  simpl; lia.
Defined.

(** ** Supervisor step by step: how runs go *)

Lemma sigchld_handler_quiet (reaped : list (Z * Z)) (st : supervisor) :
  ~ In (child_pid st) (map fst reaped) -> sigchld_handler reaped st = st.
Proof.
  revert st; induction reaped as [|[pid status] reaped IH]; intros st Hn;
    [reflexivity|]; simpl.
  destruct (pid >? 0); [|reflexivity].
  destruct (pid =? child_pid st) eqn:E.
  - apply Z.eqb_eq in E; exfalso; apply Hn; left; exact E.
  - apply IH; intros Hin; apply Hn; right; exact Hin.
Qed.

Lemma deliver_quiet (a : arrival) (st : supervisor) :
  quiet (child_pid st) a ->
  fst (deliver (setup_signals default_sigtable) a st) = st.
Proof.
  intros Hq; unfold deliver.
  destruct (sa_handler (setup_signals default_sigtable (a_sig a)));
    try reflexivity.
  simpl; apply sigchld_handler_quiet; exact Hq.
Qed.

Lemma logs_ret {A} (a : A) : logs (ret a) = [].
Proof. reflexivity. Qed.

Lemma exec_logs_cons (ev : event) (evs : list event) (m : machine) :
  logs (exec (setup_signals default_sigtable) (ev :: evs) m)
  = logs (step (setup_signals default_sigtable) ev m)
    ++ logs (exec (setup_signals default_sigtable) evs
               (fst (value (step (setup_signals default_sigtable) ev m)))).
Proof. cbn [exec]; rewrite !logs_bind, logs_ret, app_nil_r; reflexivity. Qed.

Lemma exec_state_cons (ev : event) (evs : list event) (m : machine) :
  fst (value (exec (setup_signals default_sigtable) (ev :: evs) m))
  = fst (value (exec (setup_signals default_sigtable) evs
                  (fst (value (step (setup_signals default_sigtable) ev m))))).
Proof. cbn [exec]; rewrite !value_bind; reflexivity. Qed.

Lemma exec_app (evs1 evs2 : list event) :
  forall m,
    logs (exec (setup_signals default_sigtable) (evs1 ++ evs2) m)
    = logs (exec (setup_signals default_sigtable) evs1 m)
      ++ logs (exec (setup_signals default_sigtable) evs2
                 (fst (value (exec (setup_signals default_sigtable) evs1 m)))) /\
    fst (value (exec (setup_signals default_sigtable) (evs1 ++ evs2) m))
    = fst (value (exec (setup_signals default_sigtable) evs2
                    (fst (value (exec (setup_signals default_sigtable) evs1 m))))).
Proof.
  induction evs1 as [|ev evs1 IH]; intros m; [split; reflexivity|].
  rewrite <- app_comm_cons, !exec_logs_cons, !exec_state_cons.
  destruct (IH (fst (value (step (setup_signals default_sigtable) ev m)))) as [Hl Hs].
  rewrite Hl, Hs, app_assoc; split; reflexivity.
Qed.

Lemma step_sig (a : arrival) (m : machine) :
  at_place m <> Elsewhere ->
  logs (step (setup_signals default_sigtable) (Sig a) m) = [] /\
  fst (value (step (setup_signals default_sigtable) (Sig a) m))
  = {| at_place := match at_place m with
                      | Blocked => if caught (setup_signals default_sigtable) a
                                   then Woken else Blocked
                      | p => p
                      end;
       vars := fst (deliver (setup_signals default_sigtable) a (vars m)) |}.
Proof.
  intros Hp; unfold step.
  destruct (at_place m); try congruence;
    destruct (deliver (setup_signals default_sigtable) a (vars m));
    split; reflexivity.
Qed.

Lemma step_sig_calm (a : arrival) (m : machine) :
  at_place m <> Elsewhere -> quiet (child_pid (vars m)) a ->
  logs (step (setup_signals default_sigtable) (Sig a) m) = [] /\
  fst (value (step (setup_signals default_sigtable) (Sig a) m))
  = {| at_place := match at_place m with
                      | Blocked => if caught (setup_signals default_sigtable) a
                                   then Woken else Blocked
                      | p => p
                      end;
       vars := vars m |}.
Proof.
  intros Hp Hq; destruct (step_sig a m Hp) as [Hl Hs].
  rewrite Hs, (deliver_quiet a (vars m) Hq); split; [exact Hl | reflexivity].
Qed.

(** While the flag is clear and the child is not reaped, the loop only
    waits. *)
Lemma exec_idle (evs : list event) :
  forall m,
    idle (at_place m) = true -> child_exited (vars m) = 0 ->
    Forall (calm (child_pid (vars m))) evs ->
    logs (exec (setup_signals default_sigtable) evs m) = [] /\
    vars (fst (value (exec (setup_signals default_sigtable) evs m))) = vars m /\
    idle (at_place (fst (value (exec (setup_signals default_sigtable) evs m)))) = true.
Proof.
  induction evs as [|ev evs IH]; intros m Hi Hf Hc.
  - repeat split; exact Hi.
  - rewrite exec_logs_cons, exec_state_cons.
    apply Forall_cons_iff in Hc as [Hev Hc].
    destruct ev as [a|].
    + destruct (step_sig_calm a m) as [Hl Hs];
        [intros E; rewrite E in Hi; discriminate | exact Hev |].
      rewrite Hl, Hs.
      destruct (IH {| at_place := match at_place m with
                      | Blocked => if caught (setup_signals default_sigtable) a
                                   then Woken else Blocked
                      | p => p
                      end;
                      vars := vars m |}) as (H1 & H2 & H3);
        [destruct (at_place m); try discriminate; try reflexivity;
         cbn [at_place]; destruct (caught _ a); reflexivity
        | exact Hf | exact Hc |].
      repeat split; assumption.
    + destruct m as [p st]; cbn [at_place vars] in *.
      destruct p; try discriminate; cbn [step at_place vars].
      * rewrite logs_ret; cbn [value fst ret].
        destruct (IH {| at_place := Blocked; vars := st |} eq_refl Hf Hc)
          as (H1 & H2 & H3).
        repeat split; assumption.
      * rewrite logs_ret; cbn [value fst ret].
        destruct (IH {| at_place := Blocked; vars := st |} eq_refl Hf Hc)
          as (H1 & H2 & H3).
        repeat split; assumption.
      * rewrite logs_ret, Hf; cbn [value fst ret].
        change (negb (0 =? 0)) with false; cbv iota.
        destruct (IH {| at_place := Pausing; vars := st |} eq_refl Hf Hc)
          as (H1 & H2 & H3).
        repeat split; assumption.
Qed.

(** Once the line is logged nothing more is, and the flag is cleared by
    the next step. *)
Lemma exec_cleared (evs : list event) :
  forall m,
    at_place m = Clearing -> Forall (calm (child_pid (vars m))) evs ->
    logs (exec (setup_signals default_sigtable) evs m) = [] /\
    child_pid (vars (fst (value (exec (setup_signals default_sigtable) evs m))))
    = child_pid (vars m) /\
    child_exit_status (vars (fst (value (exec (setup_signals default_sigtable) evs m))))
    = child_exit_status (vars m) /\
    ((1 <= go_count evs)%nat ->
     child_exited (vars (fst (value (exec (setup_signals default_sigtable) evs m)))) = 0).
Proof.
  induction evs as [|ev evs IH]; intros m Hp Hc.
  - repeat split; simpl; lia.
  - rewrite exec_logs_cons, exec_state_cons.
    apply Forall_cons_iff in Hc as [Hev Hc].
    destruct ev as [a|].
    + destruct (step_sig_calm a m) as [Hl Hs];
        [rewrite Hp; discriminate | exact Hev |].
      rewrite Hl, Hs, Hp.
      destruct (IH {| at_place := Clearing; vars := vars m |} eq_refl Hc)
        as (H1 & H2 & H3 & H4).
      repeat split; assumption.
    + destruct m as [p st]; cbn [at_place vars] in *; subst p.
      cbn [step at_place vars]; rewrite logs_ret; cbn [value fst ret].
      destruct (exec_idle evs {| at_place := Pausing;
                                 vars := {| child_pid := child_pid st;
                                            child_exited := 0;
                                            child_exit_status := child_exit_status st |} |}
                  eq_refl eq_refl Hc) as (H1 & H2 & _).
      rewrite H1, H2; repeat split.
Qed.

(** A parent that has an exit to report logs it at most once, and with
    the status recorded. *)
Lemma exec_pending (c : Z) (evs : list event) :
  0 <= c <= 255 ->
  forall m,
    pending c (at_place m) -> child_exited (vars m) = 1 ->
    child_exit_status (vars m) = c ->
    Forall (calm (child_pid (vars m))) evs ->
    child_pid (vars (fst (value (exec (setup_signals default_sigtable) evs m))))
    = child_pid (vars m) /\
    child_exit_status (vars (fst (value (exec (setup_signals default_sigtable) evs m))))
    = c /\
    ((logs (exec (setup_signals default_sigtable) evs m) = [] /\
      child_exited (vars (fst (value (exec (setup_signals default_sigtable) evs m)))) = 1) \/
     logs (exec (setup_signals default_sigtable) evs m) = [exit_line c]).
Proof.
  intros Hc0.
  induction evs as [|ev evs IH]; intros m Hp Hf Hs Hc.
  - split; [reflexivity | split; [exact Hs | left; split; [reflexivity | exact Hf]]].
  - rewrite exec_logs_cons, exec_state_cons.
    apply Forall_cons_iff in Hc as [Hev Hc].
    destruct ev as [a|].
    + destruct (step_sig_calm a m) as [Hl Hst];
        [intros E; rewrite E in Hp; exact Hp | exact Hev |].
      rewrite Hl, Hst.
      apply (IH {| at_place := match at_place m with
                      | Blocked => if caught (setup_signals default_sigtable) a
                                   then Woken else Blocked
                      | p => p
                      end;
                   vars := vars m |}); try assumption.
      destruct (at_place m); try exact Hp; cbn [at_place];
        destruct (caught _ a); exact I.
    + destruct m as [p st]; cbn [at_place vars] in *.
      destruct p; try contradiction; cbn [step at_place vars].
      * rewrite logs_ret; cbn [value fst ret].
        apply (IH {| at_place := Blocked; vars := st |}); try assumption; exact I.
      * rewrite logs_ret; cbn [value fst ret].
        apply (IH {| at_place := Blocked; vars := st |}); try assumption; exact I.
      * rewrite logs_ret, Hf; cbn [value fst ret].
        change (negb (1 =? 0)) with true; cbv iota.
        apply (IH {| at_place := Reporting; vars := st |}); try assumption; exact I.
      * rewrite logs_ret, Hs, (exit_line_fits c Hc0); cbn [value fst ret].
        apply (IH {| at_place := Logging (cs "child exited with status " ++ fmt_d c);
                     vars := st |}); try assumption; reflexivity.
      * cbn [pending] in Hp; subst msg.
        rewrite logs_bind, logs_ret, app_nil_r, value_bind; cbn [value fst ret].
        destruct (exec_cleared evs {| at_place := Clearing; vars := st |} eq_refl Hc)
          as (H1 & H2 & H3 & _).
        cbn [vars] in H2, H3.
        rewrite H1, H2, H3, Hs.
        split; [reflexivity | split; [reflexivity | right; reflexivity]].
Qed.

(** A parent that is awake with an exit to report logs it within three
    steps of its own and clears the flag with the fourth. *)
Lemma exec_wake (c : Z) (evs : list event) :
  0 <= c <= 255 ->
  forall m n,
    pending c (at_place m) -> steps_to_report (at_place m) = Some n ->
    child_exited (vars m) = 1 -> child_exit_status (vars m) = c ->
    Forall (calm (child_pid (vars m))) evs ->
    (n <= go_count evs)%nat ->
    logs (exec (setup_signals default_sigtable) evs m) = [exit_line c] /\
    ((S n <= go_count evs)%nat ->
     child_exited (vars (fst (value (exec (setup_signals default_sigtable) evs m)))) = 0).
Proof.
  intros Hc0.
  induction evs as [|ev evs IH]; intros m n Hp Hn Hf Hs Hc Hgo.
  - destruct (at_place m); try discriminate; injection Hn as <-; simpl in Hgo; lia.
  - rewrite exec_logs_cons, exec_state_cons.
    apply Forall_cons_iff in Hc as [Hev Hc].
    destruct ev as [a|].
    + destruct (step_sig_calm a m) as [Hl Hst];
        [intros E; rewrite E in Hp; exact Hp | exact Hev |].
      rewrite Hl, Hst.
      assert (Eplace : match at_place m with
                      | Blocked => if caught (setup_signals default_sigtable) a
                                   then Woken else Blocked
                      | p => p
                      end = at_place m)
        by (destruct (at_place m); try discriminate; reflexivity).
      rewrite Eplace.
      apply (IH {| at_place := at_place m; vars := vars m |} n); assumption.
    + destruct m as [p st]; cbn [at_place vars] in *.
      destruct p; try discriminate; injection Hn as <-;
        cbn [step at_place vars]; cbn [go_count] in Hgo.
      * rewrite logs_ret, Hf; cbn [value fst ret].
        change (negb (1 =? 0)) with true; cbv iota.
        destruct (IH {| at_place := Reporting; vars := st |} 2%nat I eq_refl Hf Hs Hc
                    ltac:(lia)) as [H1 H2].
        split; [exact H1 | intros H; apply H2; cbn [go_count] in H; lia].
      * rewrite logs_ret, Hs, (exit_line_fits c Hc0); cbn [value fst ret].
        destruct (IH {| at_place := Logging (cs "child exited with status " ++ fmt_d c);
                        vars := st |} 1%nat eq_refl eq_refl Hf Hs Hc ltac:(lia))
          as [H1 H2].
        split; [exact H1 | intros H; apply H2; cbn [go_count] in H; lia].
      * cbn [pending] in Hp; subst msg.
        rewrite logs_bind, logs_ret, app_nil_r, value_bind; cbn [value fst ret].
        destruct (exec_cleared evs {| at_place := Clearing; vars := st |} eq_refl Hc)
          as (H1 & _ & _ & H4).
        rewrite H1; split; [reflexivity|].
        intros H; apply H4; cbn [go_count] in H; lia.
Qed.

(** A parent that has entered or is about to enter [pause()] stays there
    as long as no signal arrives, whatever the flag says. *)
Lemma exec_asleep (evs : list event) :
  forall m,
    at_place m = Pausing \/ at_place m = Blocked ->
    Forall (fun ev => ev = Go) evs ->
    logs (exec (setup_signals default_sigtable) evs m) = [] /\
    vars (fst (value (exec (setup_signals default_sigtable) evs m))) = vars m /\
    (at_place (fst (value (exec (setup_signals default_sigtable) evs m))) = Pausing \/
     at_place (fst (value (exec (setup_signals default_sigtable) evs m))) = Blocked).
Proof.
  induction evs as [|ev evs IH]; intros m Hp Hgo.
  - repeat split; exact Hp.
  - rewrite exec_logs_cons, exec_state_cons.
    apply Forall_cons_iff in Hgo as [-> Hgo].
    destruct m as [p st]; cbn [at_place vars] in *.
    destruct Hp as [-> | ->]; cbn [step at_place vars];
      rewrite logs_ret; cbn [value fst ret];
      apply (IH {| at_place := Blocked; vars := st |}); try assumption;
      right; reflexivity.
Qed.

(** ** Supervisor step by step: the turns of the loop

    A turn of the loop as [loop_body] has it is the run in which [pause()]
    is entered, every signal of the turn arrives while it blocks, and the
    program then goes on to the top of the loop. *)

Lemma exec_kills_cons (tbl : sigtable) (ev : event) (evs : list event) (m : machine) :
  snd (value (exec tbl (ev :: evs) m))
  = snd (value (step tbl ev m))
    ++ snd (value (exec tbl evs (fst (value (step tbl ev m))))).
Proof. cbn [exec]; rewrite !value_bind; reflexivity. Qed.

Lemma exec_cons (tbl : sigtable) (ev : event) (evs : list event) (m : machine) :
  exec tbl (ev :: evs) m
  = ((fst (value (exec tbl evs (fst (value (step tbl ev m))))),
      snd (value (step tbl ev m))
      ++ snd (value (exec tbl evs (fst (value (step tbl ev m)))))),
     logs (step tbl ev m) ++ logs (exec tbl evs (fst (value (step tbl ev m))))).
Proof.
  cbn [exec]; unfold bind, value, logs, ret.
  destruct (step tbl ev m) as [[m1 k1] l1]; cbn [fst snd].
  destruct (exec tbl evs m1) as [[m2 k2] l2]; cbn [fst snd].
  rewrite app_nil_r; reflexivity.
Qed.

Lemma exec_sigs (tbl : sigtable) (arrivals : list arrival) (rest : list event) :
  forall (p : place) (st : supervisor),
    p = Blocked \/ p = Woken -> arrivals <> [] ->
    Forall (fun a => caught tbl a = true) arrivals ->
    exec tbl (map Sig arrivals ++ rest) {| at_place := p; vars := st |}
    = ((fst (value (exec tbl rest {| at_place := Woken;
                                     vars := fst (deliver_all tbl arrivals st) |})),
        snd (deliver_all tbl arrivals st)
        ++ snd (value (exec tbl rest {| at_place := Woken;
                                        vars := fst (deliver_all tbl arrivals st) |}))),
       logs (exec tbl rest {| at_place := Woken;
                              vars := fst (deliver_all tbl arrivals st) |})).
Proof.
  induction arrivals as [|a arrivals IH]; intros p st Hp Hne Hall; [congruence|].
  apply Forall_cons_iff in Hall as [Ha Hall].
  cbn [map app]; rewrite exec_cons.
  assert (Hstep : step tbl (Sig a) {| at_place := p; vars := st |}
                  = (({| at_place := Woken; vars := fst (deliver tbl a st) |},
                      snd (deliver tbl a st)), [])).
  { unfold step; cbn [at_place vars].
    destruct Hp as [-> | ->]; destruct (deliver tbl a st); rewrite ?Ha; reflexivity. }
  rewrite Hstep; cbn [value logs fst snd]; cbn [deliver_all].
  destruct (deliver tbl a st) as [st1 k1] eqn:Ed; cbn [fst snd].
  destruct arrivals as [|a' arrivals].
  - cbn [map app deliver_all]; cbn [fst snd]; rewrite app_nil_r.
    destruct (exec tbl rest {| at_place := Woken; vars := st1 |}) as [[m2 k2] l2];
      reflexivity.
  - rewrite (IH Woken st1 (or_intror eq_refl) ltac:(discriminate) Hall).
    cbn [value logs fst snd].
    destruct (deliver_all tbl (a' :: arrivals) st1) as [st2 k2]; cbn [fst snd].
    rewrite app_assoc; reflexivity.
Qed.

(** A turn of [loop_body] is such a run: every signal of the turn is one
    the program has a handler for, and arrives while [pause()] blocks. *)
Lemma loop_body_steps (tbl : sigtable) (arrivals : list arrival) (st : supervisor) :
  arrivals <> [] -> Forall (fun a => caught tbl a = true) arrivals ->
  exists n,
    exec tbl (Go :: map Sig arrivals ++ repeat Go n) {| at_place := Pausing; vars := st |}
    = (({| at_place := Pausing; vars := fst (value (loop_body tbl arrivals st)) |},
        snd (value (loop_body tbl arrivals st))),
       logs (loop_body tbl arrivals st)).
Proof.
  intros Hne Hall; unfold loop_body.
  destruct (deliver_all tbl arrivals st) as [st1 k1] eqn:Ed.
  destruct (negb (child_exited st1 =? 0)) eqn:Ef.
  - exists 4%nat; rewrite exec_cons; cbn [step at_place vars value logs fst snd ret].
    rewrite (exec_sigs tbl arrivals _ Blocked st (or_introl eq_refl) Hne Hall), Ed.
    cbn [fst snd repeat]; rewrite !exec_cons.
    cbn [step at_place vars value logs fst snd ret exec].
    rewrite Ef; cbn [step at_place vars value logs fst snd ret exec bind log_msg].
    rewrite !app_nil_r; reflexivity.
  - exists 1%nat; rewrite exec_cons; cbn [step at_place vars value logs fst snd ret].
    rewrite (exec_sigs tbl arrivals _ Blocked st (or_introl eq_refl) Hne Hall), Ed.
    cbn [fst snd repeat]; rewrite !exec_cons.
    cbn [step at_place vars value logs fst snd ret exec].
    rewrite Ef; cbn [step at_place vars value logs fst snd ret exec].
    rewrite !app_nil_r; reflexivity.
Qed.

Lemma exec_app_all (tbl : sigtable) (evs1 evs2 : list event) :
  forall m,
    exec tbl (evs1 ++ evs2) m
    = ((fst (value (exec tbl evs2 (fst (value (exec tbl evs1 m))))),
        snd (value (exec tbl evs1 m))
        ++ snd (value (exec tbl evs2 (fst (value (exec tbl evs1 m)))))),
       logs (exec tbl evs1 m)
       ++ logs (exec tbl evs2 (fst (value (exec tbl evs1 m))))).
Proof.
  induction evs1 as [|ev evs1 IH]; intros m.
  - cbn [app exec value logs ret fst snd].
    destruct (exec tbl evs2 m) as [[m2 k2] l2]; reflexivity.
  - rewrite <- app_comm_cons, !exec_cons, IH.
    cbn [value logs fst snd]; rewrite !app_assoc; reflexivity.
Qed.

(** The runs of [run] are such runs, turn after turn. *)
Lemma run_steps (tbl : sigtable) (dev : cstring) (turns : list (list arrival)) :
  forall st,
    Forall (fun arrivals => arrivals <> [] /\
                            Forall (fun a => caught tbl a = true) arrivals) turns ->
    exists evs st',
      fst (value (run turns (Supervising tbl dev st))) = Supervising tbl dev st' /\
      exec tbl evs {| at_place := Pausing; vars := st |}
      = (({| at_place := Pausing; vars := st' |},
          snd (value (run turns (Supervising tbl dev st)))),
         logs (run turns (Supervising tbl dev st))).
Proof.
  induction turns as [|arrivals turns IH]; intros st Hall.
  - exists [], st; split; reflexivity.
  - apply Forall_cons_iff in Hall as [[Hne Hc] Hall].
    destruct (loop_body_steps tbl arrivals st Hne Hc) as [n En].
    destruct (IH (fst (value (loop_body tbl arrivals st))) Hall)
      as (evs & st' & Hv & Ee).
    exists ((Go :: map Sig arrivals ++ repeat Go n) ++ evs), st'.
    cbn [run]; rewrite !value_bind, !logs_bind, logs_ret, app_nil_r.
    cbn [value ret fst snd]; split; [exact Hv|].
    rewrite exec_app_all, En; cbn [value logs fst snd]; rewrite Ee.
    reflexivity.
Qed.

(** Where main hands over to the loop: the state it enters the loop with
    is the one reached when no handler runs before the result of [fork] is
    stored. *)
Lemma main_enters_loop {K : Type} `{Kernel K} (k : K) (e : env) :
  ~ prefork_failure k e -> e_fork e > 0 ->
  exec (setup_signals default_sigtable) [Go] (after_fork (e_fork e))
  = (({| at_place := Pausing;
         vars := {| child_pid := e_fork e; child_exited := 0;
                    child_exit_status := 0 |} |}, []), []) /\
  value (main k e)
  = Supervising (setup_signals default_sigtable) (recorded_console e)
      {| child_pid := e_fork e; child_exited := 0; child_exit_status := 0 |}.
Proof.
  intros Hnf Hpos; split; [|apply main_supervises; assumption].
  cbn [exec step after_fork at_place vars]; unfold bind, ret; cbn [fst snd].
  replace (e_fork e >? 0) with true by (symmetry; apply Z.gtb_lt; lia).
  reflexivity.
Qed.

(** ** Supervisor step by step: the exit of the child *)

Lemma sigchld_handler_unrecorded (reaped : list (Z * Z)) (st : supervisor) :
  child_pid st <= 0 -> sigchld_handler reaped st = st.
Proof.
  intros Hp; revert st Hp.
  induction reaped as [|[p s] reaped IH]; intros st Hp; [reflexivity|].
  cbn [sigchld_handler]; destruct (p >? 0) eqn:E; [|reflexivity].
  replace (p =? child_pid st) with false; [exact (IH st Hp)|].
  symmetry; apply Z.eqb_neq; apply Z.gtb_lt in E; lia.
Qed.

(** C2.  The exit of the child can go unrecorded.  The handlers are
    installed before [fork] is called, and [sigchld_handler] compares the
    pid it reaps with child_pid, which holds -1 until main has stored what
    [fork] returned.  When the child ends, in whatever manner, and its
    SIGCHLD is handled before that store, the handler reaps the child and
    records nothing: whatever happens afterwards (the child cannot be reaped
    a second time), the pid is stored, the status recorded stays 0, the flag
    is never set and nothing is logged, while a later SIGTERM is still
    relayed to the pid of the child that is gone.  For comparison, the same
    SIGCHLD handled inside [pause()] records the status, and the loop logs
    it and clears the flag; handled after the store but before [pause()] is
    entered, it records status and flag, but [pause()] then blocks and the
    flag is not looked at until another signal arrives. *)
Theorem exit_lost (pid : Z) (t : termination) (others : list (Z * Z))
    (evs : list event) :
  pid > 0 -> Forall (calm pid) evs ->
  logs (exec (setup_signals default_sigtable)
          (Sig {| a_sig := SIGCHLD; a_reaped := (pid, wait_status t) :: others |}
           :: Go :: evs)
          (after_fork pid)) = [] /\
  vars (fst (value (exec (setup_signals default_sigtable)
                      (Sig {| a_sig := SIGCHLD;
                              a_reaped := (pid, wait_status t) :: others |}
                       :: Go :: evs)
                      (after_fork pid))))
  = {| child_pid := pid; child_exited := 0; child_exit_status := 0 |} /\
  exec (setup_signals default_sigtable)
    [Sig {| a_sig := SIGCHLD; a_reaped := [(7, wait_status (Exited 3))] |};
     Go; Go; Sig {| a_sig := SIGTERM; a_reaped := [] |}; Go; Go; Go; Go]
    (after_fork 7)
  = (({| at_place := Blocked;
         vars := {| child_pid := 7; child_exited := 0; child_exit_status := 0 |} |},
      [{| k_pid := 7; k_sig := SIGTERM |}]), []) /\
  exec (setup_signals default_sigtable)
    [Go; Go; Sig {| a_sig := SIGCHLD; a_reaped := [(7, wait_status (Exited 3))] |};
     Go; Go; Go; Go]
    (after_fork 7)
  = (({| at_place := Pausing;
         vars := {| child_pid := 7; child_exited := 0; child_exit_status := 3 |} |},
      []), [Line (cs "child exited with status 3")]) /\
  exec (setup_signals default_sigtable)
    [Go; Sig {| a_sig := SIGCHLD; a_reaped := [(7, wait_status (Exited 3))] |};
     Go; Go; Go; Go; Go]
    (after_fork 7)
  = (({| at_place := Blocked;
         vars := {| child_pid := 7; child_exited := 1; child_exit_status := 3 |} |},
      []), []).
Proof.
  intros Hp Hc.
  assert (Hrun :
    logs (exec (setup_signals default_sigtable)
            (Sig {| a_sig := SIGCHLD; a_reaped := (pid, wait_status t) :: others |}
             :: Go :: evs) (after_fork pid)) = [] /\
    vars (fst (value (exec (setup_signals default_sigtable)
                        (Sig {| a_sig := SIGCHLD;
                                a_reaped := (pid, wait_status t) :: others |}
                         :: Go :: evs) (after_fork pid))))
    = {| child_pid := pid; child_exited := 0; child_exit_status := 0 |}).
  { rewrite !exec_logs_cons, !exec_state_cons.
    destruct (step_sig {| a_sig := SIGCHLD; a_reaped := (pid, wait_status t) :: others |}
                (after_fork pid)) as [Hl Hs]; [discriminate|].
    rewrite Hl, Hs.
    assert (Hd : fst (deliver (setup_signals default_sigtable)
                        {| a_sig := SIGCHLD;
                           a_reaped := (pid, wait_status t) :: others |}
                        (vars (after_fork pid)))
                 = initial_supervisor).
    { change (sigchld_handler ((pid, wait_status t) :: others) initial_supervisor
              = initial_supervisor).
      apply sigchld_handler_unrecorded; simpl; lia. }
    rewrite Hd; cbn [step at_place after_fork vars].
    rewrite logs_ret; cbn [value fst ret].
    replace (pid >? 0) with true by (symmetry; apply Z.gtb_lt; lia).
    destruct (exec_idle evs
                {| at_place := Pausing;
                   vars := {| child_pid := pid;
                              child_exited := child_exited initial_supervisor;
                              child_exit_status := child_exit_status initial_supervisor |} |}
                eq_refl eq_refl Hc) as (H1 & H2 & _).
    rewrite H1, H2; split; reflexivity. }
  destruct Hrun as [Hl Hv].
  split; [exact Hl | split; [exact Hv|]].
  split; [reflexivity | split; reflexivity].
Qed.

Lemma exit_lost_witness :
  logs (exec (setup_signals default_sigtable)
          (Sig {| a_sig := SIGCHLD; a_reaped := (7, wait_status (Exited 3)) :: [] |}
           :: Go :: [Go; Sig {| a_sig := SIGTERM; a_reaped := [] |}; Go; Go; Go; Go])
          (after_fork 7)) = [] /\
  vars (fst (value (exec (setup_signals default_sigtable)
                      (Sig {| a_sig := SIGCHLD;
                              a_reaped := (7, wait_status (Exited 3)) :: [] |}
                       :: Go :: [Go; Sig {| a_sig := SIGTERM; a_reaped := [] |};
                                 Go; Go; Go; Go])
                      (after_fork 7))))
  = {| child_pid := 7; child_exited := 0; child_exit_status := 0 |}.
Proof.
  destruct (exit_lost 7 (Exited 3) []
              [Go; Sig {| a_sig := SIGTERM; a_reaped := [] |}; Go; Go; Go; Go])
    as (H1 & H2 & _).
  - lia.
  - repeat constructor; unfold calm, quiet; simpl; lia.
  - split; [exact H1 | exact H2].
Defined.

(** X9.  The exit of the child is reported at most once, and never with a
    wrong status.  Follow the parent step by step from the top of its loop,
    with the child's pid recorded and the flag clear, handlers running
    between any two steps.  If the child is reaped by one SIGCHLD (among
    whatever other children) and by no other arrival, then nothing is logged
    before that; afterwards the status recorded is the child's, under the
    exit-status convention, the pid stays recorded, and the log holds either
    nothing or the one line with that status; the flag is never cleared
    without the line having been logged.  If the SIGCHLD arrives while the
    parent is inside [pause()], the line is logged within three steps of the
    program and the flag is clear after four.  If it arrives just before
    [pause()] is entered and no signal follows, nothing is ever logged: the
    report waits for the next signal. *)
Theorem exit_report (evs1 evs2 : list event) (before after : list (Z * Z))
    (st : supervisor) (t : termination) :
  child_pid st > 0 -> child_exited st = 0 -> well_formed t ->
  Forall (calm (child_pid st)) (evs1 ++ evs2) ->
  Forall (fun r => fst r > 0 /\ fst r <> child_pid st) (before ++ after) ->
  let a := {| a_sig := SIGCHLD;
              a_reaped := before ++ (child_pid st, wait_status t) :: after |} in
  let m0 := {| at_place := Pausing; vars := st |} in
  let r1 := exec (setup_signals default_sigtable) evs1 m0 in
  let r := exec (setup_signals default_sigtable) (evs1 ++ Sig a :: evs2) m0 in
  logs r1 = [] /\
  (logs r = [] \/ logs r = [exit_line (convention t)]) /\
  child_pid (vars (fst (value r))) = child_pid st /\
  child_exit_status (vars (fst (value r))) = convention t /\
  (child_exited (vars (fst (value r))) = 0 -> logs r = [exit_line (convention t)]) /\
  (at_place (fst (value r1)) = Blocked -> (3 <= go_count evs2)%nat ->
   logs r = [exit_line (convention t)]) /\
  (at_place (fst (value r1)) = Blocked -> (4 <= go_count evs2)%nat ->
   child_exited (vars (fst (value r))) = 0) /\
  (at_place (fst (value r1)) = Pausing -> Forall (fun ev => ev = Go) evs2 ->
   logs r = [] /\ child_exited (vars (fst (value r))) = 1).
Proof.
  intros Hp Hf Hw Hc Hq a m0 r1 r.
  apply Forall_app in Hc as [Hc1 Hc2].
  destruct (exec_idle evs1 m0 eq_refl Hf Hc1) as (Hl1 & Hv1 & Hi1).
  fold r1 in Hl1, Hv1, Hi1.
  destruct (exec_app evs1 (Sig a :: evs2) m0) as [Hl Hs].
  fold r r1 in Hl, Hs.
  rewrite exec_logs_cons in Hl; rewrite exec_state_cons in Hs.
  destruct (step_sig a (fst (value r1))) as [Hls Hss].
  { intros E; rewrite E in Hi1; discriminate. }
  rewrite Hls, Hl1, !app_nil_l in Hl; rewrite Hss in Hl, Hs.
  rewrite Hv1 in Hl, Hs; change (vars m0) with st in Hl, Hs.
  assert (Hd : fst (deliver (setup_signals default_sigtable) a st)
               = {| child_pid := child_pid st; child_exited := 1;
                    child_exit_status := convention t |}).
  { change (fst (deliver (setup_signals default_sigtable) a st))
      with (sigchld_handler (a_reaped a) st).
    apply sigchld_handler_child; assumption. }
  rewrite Hd in Hl, Hs.
  set (m2 := {| at_place := match at_place (fst (value r1)) with
                            | Blocked => if caught (setup_signals default_sigtable) a
                                         then Woken else Blocked
                            | p => p
                            end;
                vars := {| child_pid := child_pid st; child_exited := 1;
                           child_exit_status := convention t |} |}) in *.
  assert (Hpend : pending (convention t) (at_place m2)).
  { unfold m2; cbn [at_place].
    destruct (at_place (fst (value r1))); try discriminate; exact I. }
  pose proof (convention_range t Hw) as Hrange.
  destruct (exec_pending (convention t) evs2 Hrange m2 Hpend eq_refl eq_refl Hc2)
    as (H1 & H2 & H3).
  rewrite <- Hs in H1, H2, H3; rewrite <- Hl in H3.
  split; [exact Hl1|].
  split; [destruct H3 as [[H3 _] | H3]; [left | right]; exact H3|].
  split; [exact H1|].
  split; [exact H2|].
  split.
  { intros H0; destruct H3 as [[_ H3] | H3]; [rewrite H0 in H3; discriminate | exact H3]. }
  split; [|split].
  - intros Hb Hgo.
    assert (Eplace : at_place m2 = Woken) by (unfold m2; rewrite Hb; reflexivity).
    destruct (exec_wake (convention t) evs2 Hrange m2 3%nat Hpend
                ltac:(rewrite Eplace; reflexivity) eq_refl eq_refl Hc2 Hgo) as [H _].
    rewrite Hl; exact H.
  - intros Hb Hgo.
    assert (Eplace : at_place m2 = Woken) by (unfold m2; rewrite Hb; reflexivity).
    destruct (exec_wake (convention t) evs2 Hrange m2 3%nat Hpend
                ltac:(rewrite Eplace; reflexivity) eq_refl eq_refl Hc2 ltac:(lia))
      as [_ H].
    rewrite Hs; apply H; exact Hgo.
  - intros Hb Hgo.
    assert (Eplace : at_place m2 = Pausing) by (unfold m2; rewrite Hb; reflexivity).
    destruct (exec_asleep evs2 m2 (or_introl Eplace) Hgo) as (H4 & H5 & _).
    rewrite Hl, Hs, H4, H5; split; reflexivity.
Qed.

Lemma exit_report_witness :
  logs (exec (setup_signals default_sigtable)
          ([Go; Sig {| a_sig := SIGTERM; a_reaped := [] |}; Go; Go]
           ++ Sig {| a_sig := SIGCHLD;
                     a_reaped := [(11, 256)] ++ (7, wait_status (Exited 3)) :: [] |}
              :: [Go; Sig {| a_sig := SIGCHLD; a_reaped := [(12, 9)] |}; Go; Go])
          {| at_place := Pausing;
             vars := {| child_pid := 7; child_exited := 0; child_exit_status := 0 |} |})
  = [exit_line (convention (Exited 3))].
Proof.
  refine (proj1 (proj2 (proj2 (proj2 (proj2 (proj2
           (exit_report
              [Go; Sig {| a_sig := SIGTERM; a_reaped := [] |}; Go; Go]
              [Go; Sig {| a_sig := SIGCHLD; a_reaped := [(12, 9)] |}; Go; Go]
              [(11, 256)] []
              {| child_pid := 7; child_exited := 0; child_exit_status := 0 |}
              (Exited 3) _ _ _ _ _)))))) _ _).
  - simpl; lia.
  - reflexivity.
  - simpl; lia.
  - repeat constructor; unfold calm, quiet; simpl; lia.
  - repeat constructor; simpl; lia.
  - reflexivity.
  - simpl; lia.
Defined.

(** ** main: the diagnostics of the fatal paths *)

Lemma last_line_bind {A B} (m : Logged A) (k : A -> Logged B) (x : log_line) :
  (exists l, logs (k (value m)) = l ++ [x]) ->
  exists l, logs (bind m k) = l ++ [x].
Proof.
  intros [l E]; exists (logs m ++ l).
  rewrite logs_bind, E, app_assoc; reflexivity.
Qed.

Lemma last_line_here {A} (x : cstring) (a : A) :
  exists l, logs (log_msg x ;;; ret a) = l ++ [Line x].
Proof. exists []; reflexivity. Qed.

Lemma kmsg_from_app (opens : nat -> bool) (l1 l2 : list log_line) :
  forall i,
    kmsg_from opens i (l1 ++ l2)
    = kmsg_from opens i l1 ++ kmsg_from opens (i + length l1) l2.
Proof.
  induction l1 as [|x l1 IH]; intros i; simpl.
  - rewrite Nat.add_0_r; reflexivity.
  - rewrite IH, <- app_assoc; do 3 f_equal; lia.
Qed.

Lemma kmsg_last (opens : nat -> bool) (l : list log_line) (x : log_line) :
  kmsg opens (l ++ [x])
  = kmsg opens l ++ (if opens (length l) then [x] else []).
Proof.
  unfold kmsg; rewrite kmsg_from_app; simpl.
  rewrite app_nil_r; reflexivity.
Qed.

(** The last call of [log_msg] or [log_error] before main returns. *)
Lemma main_last_call {K : Type} `{Kernel K} (k : K) (e : env) :
  prefork_failure k e ->
  exists l, logs (main k e) = l ++ [diagnostic k e].
Proof.
  intros Hf; unfold main, diagnostic; cbv zeta.
  apply last_line_bind; cbv beta.
  apply last_line_bind; cbv beta.
  destruct (fst (value (mount_filesystems k)) <? 0) eqn:E1;
    [apply last_line_here|].
  apply last_line_bind; cbv beta.
  destruct (fst (value (read_entrypoint (e_entrypoint_io e) MAX_ENTRYPOINT_LEN)) <? 0)
    eqn:E2; [apply last_line_here|].
  apply last_line_bind; cbv beta.
  apply last_line_bind; cbv beta.
  unfold entrypoint_of.
  destruct (pa_argc _ =? 0) eqn:E3; [apply last_line_here|].
  apply last_line_bind; cbv beta.
  simpl child_pid.
  destruct (e_fork e <? 0) eqn:E4; [exists []; reflexivity|].
  exfalso.
  apply Z.ltb_ge in E1, E2, E4; apply Z.eqb_neq in E3.
  destruct Hf as [Hf | [Hf | [[_ Hf] | Hf]]].
  - unfold mount_failure in Hf; lia.
  - unfold entrypoint_failure in Hf; lia.
  - unfold entrypoint_of in Hf; contradiction.
  - unfold fork_failure in Hf; lia.
Qed.


(** X10.  A fatal exit names its cause.  Whenever main returns, the last
    call of [log_msg] or [log_error] it has made carries the diagnostic of
    the first step that failed, in the order mount, entrypoint, tokens,
    fork: a failed mount hides what the command line holds, and fork is only
    blamed when all else went well.  The diagnostic is the last line of the
    kernel log if /dev/kmsg can be opened at that moment; if it cannot (a
    mount can fail before the program has mounted /dev), no line is written
    for the failure. *)
Theorem fatal_diagnostic {K : Type} `{Kernel K} (k : K) (e : env) :
  prefork_failure k e ->
  exists l,
    logs (main k e) = l ++ [diagnostic k e] /\
    forall opens,
      kmsg opens (logs (main k e))
      = kmsg opens l ++ (if opens (length l) then [diagnostic k e] else []).
Proof.
  intros Hf; destruct (main_last_call k e Hf) as [l El].
  exists l; split; [exact El|].
  intros opens; rewrite El; apply kmsg_last.
Qed.

Lemma fatal_diagnostic_witness :
  exists l,
    logs (main ([] : script)
            {| e_now := None;
               e_entrypoint_io := ReadOk (cs "quiet kerf.entrypoint= console=ttyS0");
               e_console_io := ReadOk (cs "quiet kerf.entrypoint= console=ttyS0");
               e_fork := -1; e_fork_errno := 11;
               e_tty := {| tty_open := SysOk; tty_getattr := true |};
               e_execv := None |})
    = l ++ [Line (cs "failed to read entrypoint")].
Proof.
  destruct (@fatal_diagnostic script scripted_kernel []
              {| e_now := None;
                 e_entrypoint_io := ReadOk (cs "quiet kerf.entrypoint= console=ttyS0");
                 e_console_io := ReadOk (cs "quiet kerf.entrypoint= console=ttyS0");
                 e_fork := -1; e_fork_errno := 11;
                 e_tty := {| tty_open := SysOk; tty_getattr := true |};
                 e_execv := None |}) as (l & El & _).
  - right; left; unfold entrypoint_failure; vm_compute; reflexivity.
  - exists l; exact El.
Defined.

(** ** main: what the child executes *)

Lemma read_entrypoint_stored (io : cmdline_io) (bufsize : N) :
  (fst (value (read_entrypoint io bufsize)) <? 0) = false ->
  exists v, value (read_entrypoint io bufsize) = (0, Some v) /\
            v <> [] /\ ~ In NUL v.
Proof.
  destruct io as [e | e | data]; try discriminate.
  destruct (entrypoint_spec_total (load_cmdline data) bufsize) as [o Ho].
  rewrite (entrypoint_spec_sound data bufsize o Ho).
  destruct o as [[] | v]; try discriminate; intros _.
  exists v; split; [reflexivity|].
  pose proof (c_str_no_nul (firstn (MAX_CMDLINE_LEN - 1) data)) as Hnul.
  fold (load_cmdline data) in Hnul.
  remember (inr v) as o eqn:Eo.
  destruct Ho as [Habs | pre rest Hf Hn | pre w post [Eh _] Hn
                 | pre w post [Eh _] Hq Hs Hn He]; try discriminate;
    apply classify_value in Eo as (-> & Hne & _);
    (split; [exact Hne|]);
    rewrite Eh in Hnul;
    apply no_nul_prefix in Hnul as [_ Hnul];
    apply no_nul_prefix in Hnul as [_ Hnul].
  - intros Hin; apply Hnul; right; apply in_or_app; left; exact Hin.
  - apply no_nul_prefix in Hnul as [Hnul _]; exact Hnul.
Qed.

Lemma tokenize_bare (v : list ascii) (max_args : Z) :
  v <> [] -> plain v -> 2 <= max_args -> tokenize v max_args = [v].
Proof.
  intros Hne Hv Hm; unfold tokenize.
  destruct v as [|c v]; [congruence|].
  destruct (Hv c (or_introl eq_refl)) as (Hb & _ & _).
  rewrite (spec_tokens_begin c v Hb).
  pose proof (spec_tokens_bare (c :: v) [] [] Hv) as E.
  rewrite app_nil_r in E; rewrite E; simpl spec_tokens; simpl app.
  apply firstn_all2; simpl; lia.
Qed.

(** X11.  What the child executes comes from the command line alone.  When
    main reaches [execv] in the child, the argument vector is the
    tokenization of the value [read_entrypoint] stored: it has at least one
    and at most 63 arguments, none with a NUL, and its first argument is the
    path executed; the console attached is the one recorded, and none is
    attached when none was recorded.  For an unquoted value without quote
    characters and tabs the vector is that value alone. *)
Theorem child_argv {K : Type} `{Kernel K} (k : K) (e : env)
    (argv : list cstring) (dev : cstring) (con : console_state) :
  value (main k e) = ChildExecs argv dev con ->
  (exists v,
      value (read_entrypoint (e_entrypoint_io e) MAX_ENTRYPOINT_LEN) = (0, Some v) /\
      argv = tokenize v MAX_ARGS) /\
  argv <> [] /\ (length argv <= 63)%nat /\
  Forall (fun a => ~ In NUL a) argv /\
  dev = recorded_console e /\ (dev = [] -> con = no_console) /\
  e_fork e = 0 /\
  (forall data pre v post,
      e_entrypoint_io e = ReadOk data ->
      first_at ENTRYPOINT_KEY (load_cmdline data) pre (v ++ post) ->
      v <> [] -> plain v -> ~ In NEWLINE v -> ends_value post ->
      argv = [v]).
Proof.
  rewrite main_value_console.
  destruct (fst (value (mount_filesystems k)) <? 0); [discriminate|].
  destruct (fst (value (read_entrypoint (e_entrypoint_io e) MAX_ENTRYPOINT_LEN)) <? 0)
    eqn:E2; [discriminate|].
  destruct (pa_argc (parse_args (entrypoint_of e) MAX_ARGS) =? 0) eqn:E3;
    [discriminate|].
  destruct (e_fork e <? 0); [discriminate|].
  destruct (e_fork e =? 0) eqn:E5; [|discriminate].
  destruct (e_execv e); [discriminate|].
  intros E; injection E as <- <- <-.
  destruct (read_entrypoint_stored _ _ E2) as (v & Ev & Hne & Hnul).
  assert (Eep : entrypoint_of e = v) by (unfold entrypoint_of; rewrite Ev; reflexivity).
  rewrite Eep in *.
  destruct (parse_args_tokens v MAX_ARGS Hnul) as (Ht & Hc & _).
  apply Z.eqb_neq in E3; apply Z.eqb_eq in E5.
  split; [exists v; split; [exact Ev | exact Ht]|].
  split; [intros E0; rewrite Ht in E0; rewrite E0 in Hc; exact (E3 Hc)|].
  split.
  { rewrite Ht; unfold tokenize; rewrite length_firstn.
    change (Z.to_nat (MAX_ARGS - 1)) with 63%nat; lia. }
  split.
  { unfold tokens_of, parse_args; simpl pa_argv; simpl pa_buf.
    rewrite argv_strings_sentinel; unfold strings_at.
    apply Forall_forall; intros a Ha.
    apply in_map_iff in Ha as (o & <- & _); apply c_str_no_nul. }
  split; [reflexivity|].
  split.
  { intros ->; reflexivity. }
  split; [exact E5|].
  intros data pre w post Eio Hf Hw Hplain Hnl Hend.
  assert (Espec : entrypoint_spec (load_cmdline data) MAX_ENTRYPOINT_LEN
                    (classify w MAX_ENTRYPOINT_LEN)).
  { apply (ES_unquoted _ _ pre w post Hf); try assumption.
    - destruct w as [|c w]; [congruence|]; simpl.
      destruct (Hplain c (or_introl eq_refl)) as (_ & Hq & _).
      intros ->; discriminate.
    - intros Hin; destruct (Hplain SPACE Hin) as (Hb & _); discriminate. }
  apply entrypoint_spec_sound in Espec.
  rewrite Eio, Espec in Ev.
  unfold classify in Ev.
  destruct (length w =? 0)%nat; [discriminate|].
  destruct (MAX_ENTRYPOINT_LEN <=? N.of_nat (length w))%N; [discriminate|].
  injection Ev as <-.
  rewrite Ht; apply tokenize_bare; [exact Hw | exact Hplain | unfold MAX_ARGS; lia].
Qed.

Lemma child_argv_witness :
  (exists v,
      value (read_entrypoint (e_entrypoint_io (good_env 0)) MAX_ENTRYPOINT_LEN)
      = (0, Some v) /\
      [cs "/bin/sh"] = tokenize v MAX_ARGS) /\
  [cs "/bin/sh"] <> [].
Proof.
  destruct (@child_argv script scripted_kernel [] (good_env 0)
              [cs "/bin/sh"] (cs "/dev/ttyS0")
              {| stdio_on_tty := true; termios_set := true |}
              ltac:(vm_compute; reflexivity)) as (H1 & H2 & _).
  split; assumption.
Defined.

(** ** main: the line that lists the arguments *)

Lemma executing_msg_full (args : list (list ascii)) (off : Z) (msg : list ascii) :
  512 - 1 <= off -> executing_msg off msg args = msg.
Proof.
  intros Hoff; destruct args as [|a args]; [reflexivity|].
  cbn [executing_msg].
  replace (off <? 512 - 1) with false by (symmetry; apply Z.ltb_ge; exact Hoff).
  reflexivity.
Qed.

Lemma firstn_app_exact {A} (n : nat) (a b : list A) :
  (length a <= n)%nat -> firstn n (a ++ b) = a ++ firstn (n - length a) b.
Proof.
  intros Hle; rewrite firstn_app, firstn_all2 by exact Hle; reflexivity.
Qed.

Lemma executing_msg_prefix (args : list (list ascii)) :
  forall (off : Z) (msg : list ascii),
    Z.of_nat (length msg) = off -> off <= 511 ->
    executing_msg off msg args
    = firstn 511 (msg ++ concat (map (fun a => SPACE :: a) args)).
Proof.
  induction args as [|a args IH]; intros off msg Hlen Hoff.
  - cbn [executing_msg map concat]; rewrite app_nil_r, firstn_all2;
      [reflexivity | lia].
  - cbn [executing_msg map concat].
    change (512 - 1) with 511.
    destruct (off <? 511) eqn:E.
    + apply Z.ltb_lt in E.
      unfold snprintf.
      replace (Z.to_nat (512 - off) - 1)%nat with (511 - length msg)%nat by lia.
      destruct (Z_le_gt_dec (off + Z.of_nat (length (SPACE :: a))) 511) as [Hfit | Hcut].
      * rewrite (firstn_all2 (SPACE :: a)) by lia.
        rewrite IH; [rewrite <- app_assoc; reflexivity | rewrite length_app; lia | lia].
      * rewrite executing_msg_full by lia.
        rewrite firstn_app_exact by lia.
        rewrite firstn_app.
        replace (511 - length msg - length (SPACE :: a))%nat with 0%nat by lia.
        rewrite firstn_O, app_nil_r; reflexivity.
    + apply Z.ltb_ge in E.
      rewrite firstn_app_exact by lia.
      replace (511 - length msg)%nat with 0%nat by lia.
      rewrite firstn_O, app_nil_r; reflexivity.
Qed.

(** X12.  The line that lists the arguments never overruns its 512-byte
    buffer: whatever the arguments, it is the first 511 characters of
    [executing:] followed by every argument with a space before it.  It is
    complete when that text has at most 511 characters, and cut at 511
    otherwise. *)
Theorem executing_line_bounded (args : list cstring) :
  executing_msg 10 (cs "executing:") args = firstn 511 (executing_line args) /\
  (length (executing_msg 10 (cs "executing:") args) <= 511)%nat /\
  ((length (executing_line args) <= 511)%nat ->
   executing_msg 10 (cs "executing:") args = executing_line args).
Proof.
  assert (E : executing_msg 10 (cs "executing:") args
              = firstn 511 (executing_line args)).
  { apply executing_msg_prefix; [reflexivity | lia]. }
  split; [exact E | split].
  - rewrite E, length_firstn; lia.
  - intros Hfit; rewrite E; apply firstn_all2; exact Hfit.
Qed.

Lemma executing_line_bounded_witness :
  executing_msg 10 (cs "executing:") [cs "/bin/sh"; cs "-c"; cs "echo hi"]
  = executing_line [cs "/bin/sh"; cs "-c"; cs "echo hi"].
Proof.
  apply (proj2 (proj2 (executing_line_bounded
                         [cs "/bin/sh"; cs "-c"; cs "echo hi"]))).
  simpl; lia.
Defined.


(** ** Console attacher: the descriptors *)

(** X13.  [setup_console] leaves the descriptors tidy.  When the device
    cannot be opened, one call of [log_error] names it, no descriptor
    changes and [tcsetattr] is not called.  When it opens, standard input,
    output and error all refer to the device, whichever descriptor [open]
    returned; every other descriptor is as it was before the call, the one
    opened being closed again if it was above 2; the device is the
    controlling terminal of a new session; nothing is logged; and, if the
    current attributes could be read, [tcsetattr] is called with a struct
    whose four flag words are the fixed baseline whatever they were before,
    which asks for the speed B115200, and whose other fields are passed on
    as they were read.  The summary view of [setup_console] logs the same
    lines and reports the streams rebound only when they are. *)
Theorem console_descriptors (tty : cstring) (ce : console_env) (st : child_io) :
  io_fds st (ce_fd ce) = None ->
  io_session (value (setup_console_io tty ce st)) = true /\
  (ce_fd ce < 0 ->
   (forall n, io_fds (value (setup_console_io tty ce st)) n = io_fds st n) /\
   io_ctty (value (setup_console_io tty ce st)) = None /\
   io_tcsetattr (value (setup_console_io tty ce st)) = io_tcsetattr st /\
   logs (setup_console_io tty ce st) = [ErrorLine tty (ce_errno ce)]) /\
  (0 <= ce_fd ce ->
   (forall n, 0 <= n <= 2 ->
      io_fds (value (setup_console_io tty ce st)) n = Some tty) /\
   (forall n, n < 0 \/ 2 < n ->
      io_fds (value (setup_console_io tty ce st)) n = io_fds st n) /\
   io_ctty (value (setup_console_io tty ce st)) = Some tty /\
   logs (setup_console_io tty ce st) = [] /\
   match ce_termios ce with
   | Some term =>
       exists term',
         io_tcsetattr (value (setup_console_io tty ce st)) = Some term' /\
         c_iflag term' = 1280 /\ c_oflag term' = 5 /\
         c_cflag term' = 7346 /\ c_lflag term' = 59 /\
         Z.land (c_cflag term') CBAUD = B115200 /\
         c_rest term' = c_rest term
   | None => io_tcsetattr (value (setup_console_io tty ce st)) = io_tcsetattr st
   end) /\
  logs (setup_console tty (summary_env ce)) = logs (setup_console_io tty ce st) /\
  (stdio_on_tty (value (setup_console tty (summary_env ce))) = true ->
   refers_to (value (setup_console_io tty ce st)) 0 tty = true /\
   refers_to (value (setup_console_io tty ce st)) 1 tty = true /\
   refers_to (value (setup_console_io tty ce st)) 2 tty = true).
Proof.
  intros Hfree; unfold setup_console_io, setup_console, summary_env.
  cbv zeta; simpl tty_open; simpl tty_getattr.
  destruct (ce_fd ce <? 0) eqn:Efd.
  - apply Z.ltb_lt in Efd; simpl.
    repeat split; try reflexivity; intros; try lia; try discriminate.
  - apply Z.ltb_ge in Efd.
    assert (Hrefl : cstring_eqb tty tty = true) by apply cstring_eqb_refl.
    rewrite Z.gtb_ltb.
    destruct (ce_termios ce) as [term|];
      destruct (Z.ltb_spec STDERR_FILENO (ce_fd ce)) as [Hhigh|Hlow];
      unfold value, logs, ret, refers_to, sys_close, sys_dup2, sys_tcsetattr,
        sys_tiocsctty, sys_open, sys_setsid,
        STDERR_FILENO, STDOUT_FILENO, STDIN_FILENO in *;
      cbn [fst snd io_fds io_session io_ctty io_tcsetattr];
      rewrite ?Z.eqb_refl;
      (split; [reflexivity|]); (split; [intros; lia|]);
      (split; [intros _|split; [reflexivity|intros _]]);
      repeat match goal with
             | |- _ /\ _ => split
             | |- forall n, _ => intros n Hn
             | |- exists t, _ => eexists
             | |- context [?a =? ?b] => destruct (Z.eqb_spec a b)
             end;
      subst; try reflexivity; try lia; try exact Hrefl;
      try (symmetry; exact Hfree).
Qed.

Lemma console_descriptors_witness :
  io_fds (value (setup_console_io (cs "/dev/ttyS0")
                   {| ce_fd := 3; ce_errno := 0; ce_termios := None |}
                   {| io_fds := fun _ => None; io_session := false;
                      io_ctty := None; io_tcsetattr := None |})) 0
  = Some (cs "/dev/ttyS0").
Proof.
  refine (proj1 (proj1 (proj2 (proj2
            (console_descriptors (cs "/dev/ttyS0")
               {| ce_fd := 3; ce_errno := 0; ce_termios := None |}
               {| io_fds := fun _ => None; io_session := false;
                  io_ctty := None; io_tcsetattr := None |} _))) _) 0 _).
  - reflexivity.
  - simpl; lia.
  - lia.
Defined.

(** ** main: the log of a boot that gets past the fork *)

Section Transcript.
Context {K : Type} `{Kernel K}.

Lemma do_mount_quiet (source target fstype : cstring) (flags : Z) (k : K) :
  (fst (value (do_mount source target fstype flags k)) <? 0) = false ->
  logs (do_mount source target fstype flags k) = [].
Proof.
  unfold do_mount.
  destruct (sys_mount source target fstype flags k) as [[|errno] k'];
    [reflexivity|].
  destruct (negb (errno =? EBUSY)); [discriminate | reflexivity].
Qed.

Lemma do_mkdir_quiet (path : cstring) (mode : Z) (k : K) :
  (fst (value (do_mkdir path mode k)) <? 0) = false ->
  logs (do_mkdir path mode k) = [].
Proof.
  unfold do_mkdir.
  destruct (sys_mkdir path mode k) as [[|errno] k']; [reflexivity|].
  destruct (negb (errno =? EEXIST)); [discriminate | reflexivity].
Qed.

Lemma step_quiet (m : Logged (Z * K)) (f : Z * K -> Logged (Z * K)) :
  ((fst (value m) <? 0) = false -> logs m = []) ->
  ((fst (value (f (value m))) <? 0) = false -> logs (f (value m)) = []) ->
  (fst (value (r <- m ;; if fst r <? 0 then ret (-1, snd r) else f r)) <? 0) = false ->
  logs (r <- m ;; if fst r <? 0 then ret (-1, snd r) else f r) = [].
Proof.
  intros Hm Hf; rewrite value_bind, logs_bind.
  destruct (fst (value m) <? 0) eqn:E; [discriminate|].
  intros Hv; rewrite (Hm eq_refl), (Hf Hv); reflexivity.
Qed.

Lemma mount_filesystems_quiet (k : K) :
  (fst (value (mount_filesystems k)) <? 0) = false ->
  logs (mount_filesystems k) = [].
Proof.
  unfold mount_filesystems.
  apply step_quiet; [apply do_mount_quiet|].
  apply step_quiet; [apply do_mount_quiet|].
  apply step_quiet; [apply do_mount_quiet|].
  apply step_quiet; [apply do_mkdir_quiet|].
  rewrite value_bind, logs_bind.
  destruct (fst (value (do_mount _ _ _ _ _)) <? 0) eqn:E; [discriminate|].
  intros _; rewrite (do_mount_quiet _ _ _ _ _ E); reflexivity.
Qed.
End Transcript.

Lemma value_pair {A} (a : A) (l : list log_line) : value (a, l) = a.
Proof. reflexivity. Qed.

Lemma logs_pair {A} (a : A) (l : list log_line) : logs (a, l) = l.
Proof. reflexivity. Qed.

Lemma read_entrypoint_quiet (io : cmdline_io) (bufsize : N) :
  (fst (value (read_entrypoint io bufsize)) <? 0) = false ->
  logs (read_entrypoint io bufsize) = [].
Proof.
  destruct io as [e | e | data]; try discriminate.
  destruct (entrypoint_spec_total (load_cmdline data) bufsize) as [o Ho].
  rewrite (entrypoint_spec_sound data bufsize o Ho).
  destruct o as [[] | v]; try discriminate; reflexivity.
Qed.

Lemma read_console_path (io : cmdline_io) (bufsize : N) :
  fst (read_console io bufsize) = 0 ->
  exists rest,
    stored [] (snd (read_console io bufsize)) = "/"%char :: rest /\
    (length ("/"%char :: rest) <= N.to_nat bufsize - 1)%nat.
Proof.
  unfold read_console.
  destruct io as [e | e | data]; try discriminate.
  cbv zeta.
  destruct (strstr (load_cmdline data) CONSOLE_KEY) as [start|]; [|discriminate].
  destruct (_ || _); [discriminate|].
  destruct (bufsize <=? _)%N eqn:E; [discriminate|].
  intros _; apply N.leb_gt in E.
  unfold stored, snd, snprintf.
  change (cs "/dev/") with ("/"%char :: cs "dev/").
  destruct (N.to_nat bufsize - 1)%nat as [|n] eqn:En; [lia|].
  rewrite <- app_comm_cons, firstn_cons.
  eexists; split; [reflexivity|].
  cbn [length]; rewrite length_firstn; lia.
Qed.

(** X14.  The log of a boot that gets past the fork.  Unless main returns,
    the calls of [log_msg] and [log_error] it has made are exactly, in this
    order: the start line, the entrypoint value as stored (its first 200
    characters), the console device if one was recorded (in full), and the
    line listing the arguments (its first 511 characters); none of these is
    cut by the buffer it is built in, and no error line is among them.  The
    parent adds nothing; the child adds an error line for a console device
    that cannot be opened and one for [execv] when it comes back.  Each line
    reaches the kernel log only if /dev/kmsg can be opened when it is
    logged: the start line, logged before the program has mounted /dev, is
    written only if the root filesystem provides /dev/kmsg. *)
Theorem boot_transcript {K : Type} `{Kernel K} (k : K) (e : env) :
  (forall status, value (main k e) <> Returned status) ->
  exists v,
    value (read_entrypoint (e_entrypoint_io e) MAX_ENTRYPOINT_LEN) = (0, Some v) /\
    logs (main k e)
    = transcript (e_now e) v (recorded_console e) (tokenize v MAX_ARGS)
      ++ (if e_fork e =? 0
          then child_lines (recorded_console e) (e_tty e) (e_execv e)
          else []) /\
    forall opens,
      kmsg opens (logs (main k e))
      = (if opens 0%nat then [starting_line (e_now e)] else [])
        ++ kmsg_from opens 1
             (tl (transcript (e_now e) v (recorded_console e) (tokenize v MAX_ARGS))
              ++ (if e_fork e =? 0
                  then child_lines (recorded_console e) (e_tty e) (e_execv e)
                  else [])).
Proof.
  intros Hrun.
  pose proof (main_value_console k e) as Hv.
  destruct (fst (value (mount_filesystems k)) <? 0) eqn:E1;
    [exfalso; exact (Hrun 1 Hv)|].
  destruct (fst (value (read_entrypoint (e_entrypoint_io e) MAX_ENTRYPOINT_LEN)) <? 0)
    eqn:E2; [exfalso; exact (Hrun 1 Hv)|].
  destruct (pa_argc (parse_args (entrypoint_of e) MAX_ARGS) =? 0) eqn:E3;
    [exfalso; exact (Hrun 1 Hv)|].
  destruct (e_fork e <? 0) eqn:E4; [exfalso; exact (Hrun 1 Hv)|].
  clear Hv Hrun.
  destruct (read_entrypoint_stored _ _ E2) as (v & Ev & Hne & Hnul).
  exists v; split; [exact Ev|].
  match goal with |- ?A /\ _ => assert (Hcalls : A) end; [|split; [exact Hcalls|]].
  2: { intros opens; rewrite Hcalls; unfold kmsg, transcript; simpl; reflexivity. }
  assert (Eep : entrypoint_of e = v) by (unfold entrypoint_of; rewrite Ev; reflexivity).
  rewrite Eep in E3.
  destruct (parse_args_tokens v MAX_ARGS Hnul) as (Ht & _).
  unfold main; cbv zeta.
  rewrite logs_bind.
  rewrite logs_bind, (mount_filesystems_quiet k E1), E1.
  rewrite logs_bind, (read_entrypoint_quiet _ _ E2), E2, Ev.
  change (stored [] (snd (0, Some v))) with v.
  rewrite logs_bind.
  rewrite logs_bind.
  assert (Hdev :
    (if fst (read_console (e_console_io e) MAX_CONSOLE_LEN) =? 0
     then log_msg (snprintf 128
                     (cs "console: " ++
                      stored [] (snd (read_console (e_console_io e) MAX_CONSOLE_LEN)))) ;;;
          ret (stored [] (snd (read_console (e_console_io e) MAX_CONSOLE_LEN)))
     else ret [])
    = (recorded_console e,
       match recorded_console e with
       | [] => []
       | _ :: _ => [Line (cs "console: " ++ recorded_console e)]
       end) /\
    negb (Ascii.eqb (deref (recorded_console e)) NUL)
    = match recorded_console e with [] => false | _ :: _ => true end).
  { unfold recorded_console; cbv zeta.
    destruct (fst (read_console (e_console_io e) MAX_CONSOLE_LEN) =? 0) eqn:Ec;
      [|split; reflexivity].
    apply Z.eqb_eq in Ec.
    destruct (read_console_path _ _ Ec) as (rest & -> & Hlen).
    change (N.to_nat MAX_CONSOLE_LEN - 1)%nat with 63%nat in Hlen.
    split; [|reflexivity].
    unfold snprintf; rewrite firstn_all2; [reflexivity|].
    rewrite length_app; change (length (cs "console: ")) with 9%nat; lia. }
  destruct Hdev as [Hdev Hderef]; rewrite Hdev.
  rewrite !value_pair, logs_pair.
  rewrite E3, logs_bind, Ht.
  rewrite (executing_msg_prefix (tokenize v MAX_ARGS) 10 (cs "executing:"))
    by (try reflexivity; lia).
  cbn [child_pid]; rewrite E4.
  assert (Eline : snprintf 256 (cs "entrypoint: '" ++ precision 200 v ++ cs "'")
                  = cs "entrypoint: '" ++ firstn 200 v ++ cs "'").
  { unfold snprintf, precision; apply firstn_all2.
    rewrite !length_app, length_firstn.
    change (length (cs "entrypoint: '")) with 13%nat.
    change (length (cs "'")) with 1%nat; lia. }
  rewrite Eline.
  assert (Estart : logs (log_starting (e_now e)) = [starting_line (e_now e)]).
  { unfold log_starting, starting_line; destruct (e_now e); reflexivity. }
  rewrite Estart.
  unfold transcript, child_lines, executing_line.
  destruct (e_fork e =? 0).
  - rewrite logs_bind, Hderef.
    destruct (recorded_console e) as [|c dev]; unfold setup_console;
      destruct (tty_open (e_tty e)); destruct (e_execv e); reflexivity.
  - destruct (recorded_console e) as [|c dev]; reflexivity.
Qed.

Lemma boot_transcript_witness :
  exists v,
    value (read_entrypoint (e_entrypoint_io (good_env 7)) MAX_ENTRYPOINT_LEN)
    = (0, Some v) /\
    logs (main ([] : script) (good_env 7))
    = transcript (e_now (good_env 7)) v (recorded_console (good_env 7))
        (tokenize v MAX_ARGS)
      ++ (if e_fork (good_env 7) =? 0
          then child_lines (recorded_console (good_env 7)) (e_tty (good_env 7))
                 (e_execv (good_env 7))
          else []).
Proof.
  destruct (@boot_transcript script scripted_kernel [] (good_env 7))
    as (v & Ev & El & _).
  - intros status; vm_compute; discriminate.
  - exists v; split; [exact Ev | exact El].
Defined.
